(** * Chi2ContingencyImputer: a shallow embedding of [general_settings.py]

    The development models the categorical imputer of the toolkit:
    [Chi2ContingencyImputer.fit], [transform],
    [_calculate_most_related_variables] and [_get_all_modes], together with
    the pandas/numpy operations these four methods call.  Data frames are
    row-major tables of optional labels; [transform] runs in a small
    state-and-exception monad over a store of data-frame objects, so that
    copies, rebinding and in-place assignment are told apart. *)

From Stdlib Require Import List String Ascii Bool Arith Lia ZArith.
From Stdlib Require Import OrderedTypeEx Sorted.
Import ListNotations.
Open Scope string_scope.
Open Scope list_scope.

(** ** Exceptions and results *)

(** The exception classes of Python and pandas that the methods raise.
    [SchemaMismatchError] is the class the specification names for
    [transform]; the module defines no such class and nothing below raises
    it. *)
Inductive exn : Type :=
| KeyError (key : string)
| ValueError (msg : string)
| AttributeError (attr : string)
| SchemaMismatchError (msg : string).

Inductive result (A : Type) : Type :=
| OK (a : A)
| Raise (e : exn).

Arguments OK {A} a.
Arguments Raise {A} e.

Definition bindr {A B : Type} (m : result A) (k : A -> result B) : result B :=
  match m with
  | OK a => k a
  | Raise e => Raise e
  end.

Declare Scope result_scope.
Delimit Scope result_scope with res.
Notation "x <- m ;; k" := (bindr m (fun x => k))
  (at level 61, m at next level, right associativity) : result_scope.

(** ** Labels, cells and their order *)

(** A cell of an object column: a label, or the missing marker (NaN/None). *)
Definition cell : Type := option string.

Definition cell_eqb (a b : cell) : bool :=
  match a, b with
  | None, None => true
  | Some x, Some y => String.eqb x y
  | _, _ => false
  end.

Definition isna (c : cell) : bool :=
  match c with None => true | Some _ => false end.

Definition cell_dec : forall a b : cell, {a = b} + {a <> b}.
Proof. decide equality. apply string_dec. Defined.

Definition mem (s : string) (l : list string) : bool :=
  existsb (String.eqb s) l.

(** Python compares [str] values code point by code point; on byte strings
    this is [String.compare]. *)
Fixpoint insert_unique (s : string) (l : list string) : list string :=
  match l with
  | [] => [s]
  | x :: l' =>
      match String.compare s x with
      | Lt => s :: x :: l'
      | Eq => x :: l'
      | Gt => x :: insert_unique s l'
      end
  end.

(** [np.unique] / the sorted key sets pandas builds: sorted, no repeats. *)
Definition sort_unique (l : list string) : list string :=
  fold_right insert_unique [] l.

(** ** Data frames

    A column has a label and a type.  Of the types the development tells
    object, the type of the categorical columns, from the numeric ones: it
    is what [select_dtypes], [merge] and [fillna] look at.  The values of a
    numeric column are kept as labels too. *)

Inductive dtype : Type := object | float64 | int64.

Definition dtype_eqb (a b : dtype) : bool :=
  match a, b with
  | object, object | float64, float64 | int64, int64 => true
  | _, _ => false
  end.

Record DataFrame : Type := mkDF {
  index : list Z;                     (* row labels *)
  columns : list (string * dtype);    (* column labels, in order *)
  rows : list (list cell)             (* one list of cells per row *)
}.

Definition col_names (df : DataFrame) : list string := map fst (columns df).

Fixpoint index_of (name : string) (l : list string) : option nat :=
  match l with
  | [] => None
  | x :: l' =>
      if String.eqb name x then Some 0
      else option_map S (index_of name l')
  end.

Definition get_cell (j : nat) (r : list cell) : cell := nth j r None.

(** [df.dtypes[name]] *)
Definition dtype_of (df : DataFrame) (name : string) : dtype :=
  match index_of name (col_names df) with
  | Some j => snd (nth j (columns df) (name, object))
  | None => object
  end.

(** [df[name]]: the values of a column, [KeyError] when there is none. *)
Definition getitem (df : DataFrame) (name : string) : result (list cell) :=
  match index_of name (col_names df) with
  | Some j => OK (map (get_cell j) (rows df))
  | None => Raise (KeyError name)
  end.

(** A column taken out of a frame: its type and its values. *)
Definition Series : Type := (dtype * list cell)%type.

(** [df[name]] with the type of the column. *)
Definition getitem_series (df : DataFrame) (name : string) : result Series :=
  (values <- getitem df name ;; OK (dtype_of df name, values))%res.

Fixpoint set_nth {A : Type} (j : nat) (v : A) (l : list A) : list A :=
  match l, j with
  | [], _ => []
  | _ :: l', 0 => v :: l'
  | x :: l', S j' => x :: set_nth j' v l'
  end.

(** [df[name] = s] on an existing column of the same length: the column
    keeps its place and takes the values and the type of [s]. *)
Definition setitem (df : DataFrame) (name : string) (s : Series)
  : result DataFrame :=
  match index_of name (col_names df) with
  | Some j =>
      if Nat.eqb (List.length (snd s)) (List.length (rows df)) then
        OK (mkDF (index df) (set_nth j (name, fst s) (columns df))
              (map (fun rv => set_nth j (snd rv) (fst rv))
                   (combine (rows df) (snd s))))
      else Raise (ValueError "Length of values does not match length of index")
  | None => Raise (KeyError name)
  end.

Fixpoint remove_nth {A : Type} (j : nat) (l : list A) : list A :=
  match l, j with
  | [], _ => []
  | _ :: l', 0 => l'
  | x :: l', S j' => x :: remove_nth j' l'
  end.

(** The cells of [r] whose column label is kept by [keep]. *)
Fixpoint select_cells {A : Type} (keep : list bool) (r : list A) : list A :=
  match keep, r with
  | k :: keep', c :: r' =>
      if k then c :: select_cells keep' r' else select_cells keep' r'
  | _, _ => []
  end.

(** [df.drop(label, axis=1)]: every column carrying the label goes. *)
Definition drop (df : DataFrame) (label : string) : result DataFrame :=
  if mem label (col_names df) then
    let keep := map (fun c => negb (String.eqb label (fst c))) (columns df) in
    OK (mkDF (index df) (select_cells keep (columns df))
          (map (select_cells keep) (rows df)))
  else Raise (KeyError label).

Definition range_index (n : nat) : list Z := map Z.of_nat (seq 0 n).

(** ** [DataFrame.merge(right, on=key, how="left")]

    pandas resolves the key in [right] first and then in [left]; a label that
    names two columns of [right] is refused, and so is a key that is
    object-typed on one side and numeric on the other.  Rows of [left] keep
    their order; a row is paired with every row of [right] carrying the
    same key, missing keys matching missing keys, and padded with missing
    cells when there is none.  Column labels common to both sides, the key
    apart, get the suffixes [_x] and [_y].  The result has a fresh
    [RangeIndex]. *)

Definition suffix_overlap (others : list string) (key sfx : string)
  (c : string * dtype) : string * dtype :=
  if negb (String.eqb (fst c) key) && mem (fst c) others
  then (String.append (fst c) sfx, snd c) else c.

Definition merge_rows (jl jr width : nat) (right : list (list cell))
  (r : list cell) : list (list cell) :=
  match filter (fun q => cell_eqb (get_cell jl r) (get_cell jr q)) right with
  | [] => [r ++ repeat None width]
  | qs => map (fun q => r ++ remove_nth jr q) qs
  end.

(** Keys can be matched when both are object-typed or both numeric. *)
Definition key_compatible (a b : dtype) : bool :=
  Bool.eqb (dtype_eqb a object) (dtype_eqb b object).

Definition merge (left right : DataFrame) (key : string) : result DataFrame :=
  match index_of key (col_names right) with
  | None => Raise (KeyError key)
  | Some jr =>
      if Nat.ltb 1 (count_occ string_dec (col_names right) key)
      then Raise (ValueError "The column label is not unique.")
      else
        match index_of key (col_names left) with
        | None => Raise (KeyError key)
        | Some jl =>
            if negb (key_compatible (dtype_of left key) (dtype_of right key))
            then Raise (ValueError
                          "You are trying to merge on object and numeric columns")
            else
            let rcols := remove_nth jr (columns right) in
            let lcols' :=
              map (suffix_overlap (map fst rcols) key "_x") (columns left) in
            let rcols' :=
              map (suffix_overlap (col_names left) key "_y") rcols in
            let out :=
              flat_map (merge_rows jl jr (List.length rcols) (rows right))
                       (rows left) in
            OK (mkDF (range_index (List.length out)) (lcols' ++ rcols') out)
        end
  end.

(** [Series.fillna(other)]: a missing cell takes the cell of [other] at the
    same position. *)
Definition fillna (s other : list cell) : list cell :=
  map (fun ab => if isna (fst ab) then snd ab else fst ab) (combine s other).

(** The type of [s.fillna(other)]: a numeric [s] in which a missing cell
    takes a label of an object-typed [other] cannot hold it, and the result
    is object-typed; otherwise the type of [s] is kept. *)
Definition fillna_dtype (s other : Series) : dtype :=
  if existsb (fun ab => isna (fst ab) && negb (isna (snd ab)))
       (combine (snd s) (snd other))
     && negb (dtype_eqb (fst s) object) && dtype_eqb (fst other) object
  then object else fst s.

Definition fillna_series (s other : Series) : Series :=
  (fillna_dtype s other, fillna (snd s) (snd other)).

(** ** Grouped modes *)

Definition dropna (g : list cell) : list string :=
  flat_map (fun c => match c with Some v => [v] | None => [] end) g.

Definition value_count (vals : list string) (v : string) : nat :=
  count_occ string_dec vals v.

(** [Series.mode()]: the most frequent non-missing values, sorted. *)
Definition mode (g : list cell) : list string :=
  let vals := dropna g in
  let top := list_max (map (value_count vals) vals) in
  sort_unique (filter (fun v => Nat.eqb (value_count vals v) top) vals).

(** [lambda g: g.mode().iloc[0] if not g.mode().empty else None] *)
Definition agg_mode (g : list cell) : cell :=
  match mode g with
  | v :: _ => Some v
  | [] => None
  end.

(** [groupby(var2, dropna=False)]: sorted keys, the missing key last. *)
Definition group_keys (keys : list cell) : list cell :=
  map Some (sort_unique (dropna keys))
  ++ (if existsb isna keys then [None] else []).

Definition group (keys vals : list cell) (k : cell) : list cell :=
  map snd (filter (fun kv => cell_eqb (fst kv) k) (combine keys vals)).

(** [f"Mode_{var1}"] *)
Definition mode_label (var1 : string) : string := String.append "Mode_" var1.
Arguments mode_label : simpl never.

(** [X.groupby(var2, dropna=False)[var1].agg(...).reset_index()
       .rename(columns={var1: f"Mode_{var1}"})] *)
Definition grouped_modes (X : DataFrame) (var1 var2 : string)
  : result DataFrame :=
  (keys <- getitem X var2 ;;
   vals <- getitem X var1 ;;
   if String.eqb var1 var2
   then Raise (ValueError "cannot insert column, already exists")
   else
     let ks := group_keys keys in
     OK (mkDF (range_index (List.length ks))
           [(var2, dtype_of X var2); (mode_label var1, dtype_of X var1)]
           (map (fun k => [k; agg_mode (group keys vals k)]) ks)))%res.

Definition ModeEntry : Type := (string * string * DataFrame)%type.

Fixpoint _get_all_modes (X : DataFrame) (related_vars : list (string * string))
  : result (list ModeEntry) :=
  match related_vars with
  | [] => OK []
  | (var1, var2) :: rest =>
      (modes <- grouped_modes X var1 var2 ;;
       all_modes <- _get_all_modes X rest ;;
       OK ((var1, var2, modes) :: all_modes))%res
  end.

(** ** The store of data-frame objects *)

Definition ref : Type := nat.
Definition store : Type := list DataFrame.

(** A computation reads and updates the store and returns or raises. *)
Definition M (A : Type) : Type := store -> result A * store.

Definition ret {A : Type} (a : A) : M A := fun s => (OK a, s).
Definition raise {A : Type} (e : exn) : M A := fun s => (Raise e, s).
Definition bind {A B : Type} (m : M A) (k : A -> M B) : M B :=
  fun s =>
    match m s with
    | (OK a, s') => k a s'
    | (Raise e, s') => (Raise e, s')
    end.
Definition lift {A : Type} (r : result A) : M A := fun s => (r, s).

Declare Scope store_scope.
Delimit Scope store_scope with M.
Notation "x <- m ;; k" := (bind m (fun x => k))
  (at level 61, m at next level, right associativity) : store_scope.
Notation "m ;;; k" := (bind m (fun _ => k))
  (at level 61, right associativity) : store_scope.

Definition new (df : DataFrame) : M ref :=
  fun s => (OK (List.length s), s ++ [df]).
Definition deref (r : ref) : M DataFrame :=
  fun s =>
    match nth_error s r with
    | Some df => (OK df, s)
    | None => (Raise (ValueError "no such object"), s)
    end.
Definition assign (r : ref) (df : DataFrame) : M unit :=
  fun s => (OK tt, set_nth r df s).

Module Frame.
(** The methods [transform] calls, on references. *)
Definition copy (x : ref) : M ref := (d <- deref x ;; new d)%M.
Definition merge (x : ref) (right : DataFrame) (key : string) : M ref :=
  (d <- deref x ;; d' <- lift (merge d right key) ;; new d')%M.
Definition getitem (x : ref) (name : string) : M Series :=
  (d <- deref x ;; lift (getitem_series d name))%M.
Definition setitem (x : ref) (name : string) (v : Series) : M unit :=
  (d <- deref x ;; d' <- lift (setitem d name v) ;; assign x d')%M.
Definition drop (x : ref) (label : string) : M ref :=
  (d <- deref x ;; d' <- lift (drop d label) ;; new d')%M.
Definition get_index (x : ref) : M (list Z) :=
  (d <- deref x ;; ret (index d))%M.
Definition set_index (x : ref) (idx : list Z) : M unit :=
  (d <- deref x ;;
   if Nat.eqb (List.length idx) (List.length (rows d))
   then assign x (mkDF idx (columns d) (rows d))
   else raise (ValueError "Length mismatch"))%M.
End Frame.

(** ** The imputer *)

Record Chi2ContingencyImputer : Type := mkImputer {
  cols_to_ignore : option (list string);
  related_vars_ : option (list (string * string));
  all_modes_ : option (list ModeEntry)
}.

Definition __init__ (cols_to_ignore : option (list string))
  : Chi2ContingencyImputer :=
  mkImputer cols_to_ignore None None.

(** The body of the [for var1, var2, modes in self.all_modes_] loop. *)
Fixpoint transform_loop (all_modes : list ModeEntry) (Xc : ref) : M ref :=
  match all_modes with
  | [] => ret Xc
  | (var1, var2, modes) :: rest =>
      (Xc1 <- Frame.merge Xc modes var2 ;;
       target <- Frame.getitem Xc1 var1 ;;
       filler <- Frame.getitem Xc1 (mode_label var1) ;;
       Frame.setitem Xc1 var1 (fillna_series target filler) ;;;
       Xc2 <- Frame.drop Xc1 (mode_label var1) ;;
       transform_loop rest Xc2)%M
  end.

Definition transform (self : Chi2ContingencyImputer) (X : ref) : M ref :=
  (Xc <- Frame.copy X ;;
   all_modes <- match all_modes_ self with
                | Some l => ret l
                | None => raise (AttributeError "all_modes_")
                end ;;
   Xc' <- transform_loop all_modes Xc ;;
   idx <- Frame.get_index X ;;
   Frame.set_index Xc' idx ;;;
   ret Xc')%M.

(** ** Association finding *)

(** [X.select_dtypes(include="object").columns.tolist()] *)
Definition select_dtypes_object (X : DataFrame) : list string :=
  map fst (filter (fun c => dtype_eqb (snd c) object) (columns X)).

(** [np.setdiff1d(ar1, ar2)]: the sorted distinct values of [ar1] that are
    not in [ar2]. *)
Definition setdiff1d (ar1 ar2 : list string) : list string :=
  filter (fun s => negb (mem s ar2)) (sort_unique ar1).

(** [itertools.product(l1, l2)] *)
Definition product (l1 l2 : list string) : list (string * string) :=
  flat_map (fun a => map (fun b => (a, b)) l2) l1.

Definition pair_dec : forall a b : string * string, {a = b} + {a <> b}.
Proof. decide equality; apply string_dec. Defined.

(** The rows in which both labels are present. *)
Definition joint (a b : list cell) : list (string * string) :=
  flat_map (fun ab => match ab with
                      | (Some x, Some y) => [(x, y)]
                      | _ => []
                      end) (combine a b).

(** [pd.crosstab(a, b)]: counts of the joint values, one row per value of
    [a] and one column per value of [b] seen in [joint a b], both sorted. *)
Definition crosstab (a b : list cell) : list (list nat) :=
  let js := joint a b in
  map (fun r => map (fun c => count_occ pair_dec js (r, c))
                    (sort_unique (map snd js)))
      (sort_unique (map fst js)).

Definition enumerate {A : Type} (l : list A) : list (nat * A) :=
  combine (seq 0 (List.length l)) l.

Section Fit.

(** [scipy.stats.chi2_contingency(...).pvalue] is not part of the
    repository: the test is a parameter, returning a p-value or raising,
    and p-values are compared with [pvalue_ltb]. *)
Variable pvalue : Type.
Variable pvalue_ltb : pvalue -> pvalue -> bool.
Variable chi2_contingency : list (list nat) -> result pvalue.

Definition Result : Type := (string * string * pvalue)%type.
Definition res_var1 (r : Result) : string := fst (fst r).
Definition res_var2 (r : Result) : string := snd (fst r).
Definition res_pvalue (r : Result) : pvalue := snd r.

(** The first loop of [_calculate_most_related_variables]. *)
Fixpoint pair_results (X : DataFrame) (pairs : list (string * string))
  : result (list Result) :=
  match pairs with
  | [] => OK []
  | (var1, var2) :: rest =>
      if String.eqb var1 var2 then pair_results X rest
      else
        (a <- getitem X var1 ;;
         b <- getitem X var2 ;;
         p <- chi2_contingency (crosstab a b) ;;
         results <- pair_results X rest ;;
         OK ((var1, var2, p) :: results))%res
  end.

(** [Series.idxmin()]: the position of the first smallest value. *)
Fixpoint idxmin_from (best : nat * Result) (l : list (nat * Result)) : nat :=
  match l with
  | [] => fst best
  | ir :: l' =>
      idxmin_from
        (if pvalue_ltb (res_pvalue (snd ir)) (res_pvalue (snd best))
         then ir else best) l'
  end.

Definition idxmin (l : list (nat * Result)) : list nat :=
  match l with
  | [] => []
  | ir :: l' => [idxmin_from ir l']
  end.

(** [related_vars.groupby("var1")["pvalue"].idxmin()]: groups come in
    sorted key order, rows keep their order inside a group. *)
Definition groupby_idxmin (results : list Result) : list nat :=
  flat_map
    (fun k => idxmin (filter (fun ir => String.eqb (res_var1 (snd ir)) k)
                             (enumerate results)))
    (sort_unique (map res_var1 results)).

(** [related_vars.iloc[min_ids, :2].to_numpy()] *)
Fixpoint iloc2 (results : list Result) (ids : list nat)
  : result (list (string * string)) :=
  match ids with
  | [] => OK []
  | i :: ids' =>
      match nth_error results i with
      | Some r =>
          (rest <- iloc2 results ids' ;;
           OK ((res_var1 r, res_var2 r) :: rest))%res
      | None => Raise (ValueError "positional indexers are out-of-bounds")
      end
  end.

Definition _calculate_most_related_variables (X : DataFrame)
  (cat_features : list string) : result (list (string * string)) :=
  (results <- pair_results X (product cat_features cat_features) ;;
   iloc2 results (groupby_idxmin results))%res.

Definition fit (self : Chi2ContingencyImputer) (X : DataFrame)
  : result Chi2ContingencyImputer :=
  let cat_features := select_dtypes_object X in
  let cat_features :=
    match cols_to_ignore self with
    | Some ignore => setdiff1d cat_features ignore
    | None => cat_features
    end in
  (related_vars <- _calculate_most_related_variables X cat_features ;;
   all_modes <- _get_all_modes X related_vars ;;
   OK (mkImputer (cols_to_ignore self) (Some related_vars) (Some all_modes)))%res.

(** The p-value the first loop computes for a pair of columns. *)
Definition pvalue_of (X : DataFrame) (var1 var2 : string) : result pvalue :=
  (a <- getitem X var1 ;;
   b <- getitem X var2 ;;
   chi2_contingency (crosstab a b))%res.

End Fit.

Arguments res_var1 {pvalue} r.
Arguments res_var2 {pvalue} r.
Arguments res_pvalue {pvalue} r.
Arguments pair_results {pvalue} chi2_contingency X pairs.
Arguments idxmin_from {pvalue} pvalue_ltb best l.
Arguments idxmin {pvalue} pvalue_ltb l.
Arguments groupby_idxmin {pvalue} pvalue_ltb results.
Arguments iloc2 {pvalue} results ids.
Arguments _calculate_most_related_variables {pvalue} pvalue_ltb
  chi2_contingency X cat_features.
Arguments fit {pvalue} pvalue_ltb chi2_contingency self X.
Arguments pvalue_of {pvalue} chi2_contingency X var1 var2.

(** The [cat_features] that [fit] hands to
    [_calculate_most_related_variables]. *)
Definition cat_features_of (self : Chi2ContingencyImputer) (X : DataFrame)
  : list string :=
  match cols_to_ignore self with
  | Some ignore => setdiff1d (select_dtypes_object X) ignore
  | None => select_dtypes_object X
  end.

(** [a] comes before [b] in the list [l]. *)
Definition before (l : list string) (a b : string) : Prop :=
  exists l1 l2 l3, l = l1 ++ a :: l2 ++ b :: l3.

(** ** Running [transform] on a table *)

(** [returns self h X Y]: called on an object holding [X], [transform]
    returns an object holding [Y]. *)
Definition transform_returns (self : Chi2ContingencyImputer) (h : store)
  (x : ref) (Y : DataFrame) : Prop :=
  exists r h', transform self x h = (OK r, h') /\ nth_error h' r = Some Y.

Definition transform_raises (self : Chi2ContingencyImputer) (h : store)
  (x : ref) (e : exn) : Prop :=
  exists h', transform self x h = (Raise e, h').

(** Small tables for examples. *)
Definition frame (cols : list string) (rs : list (list cell)) : DataFrame :=
  mkDF (range_index (List.length rs)) (map (fun c => (c, object)) cols) rs.

(** ** The value computed by [transform]

    The same statements on data-frame values, without the store: one pass
    of the loop body, the whole loop, and the final index assignment. *)

Definition impute_step (Xc : DataFrame) (e : ModeEntry) : result DataFrame :=
  let '(var1, var2, modes) := e in
  (Xc1 <- merge Xc modes var2 ;;
   target <- getitem_series Xc1 var1 ;;
   filler <- getitem_series Xc1 (mode_label var1) ;;
   Xc1' <- setitem Xc1 var1 (fillna_series target filler) ;;
   drop Xc1' (mode_label var1))%res.

Fixpoint impute_all (all_modes : list ModeEntry) (Xc : DataFrame)
  : result DataFrame :=
  match all_modes with
  | [] => OK Xc
  | e :: rest => (Xc' <- impute_step Xc e ;; impute_all rest Xc')%res
  end.

Definition reindex (idx : list Z) (df : DataFrame) : result DataFrame :=
  if Nat.eqb (List.length idx) (List.length (rows df))
  then OK (mkDF idx (columns df) (rows df))
  else Raise (ValueError "Length mismatch").

Definition transform_value (self : Chi2ContingencyImputer) (X : DataFrame)
  : result DataFrame :=
  match all_modes_ self with
  | Some all_modes =>
      (Xc <- impute_all all_modes X ;; reindex (index X) Xc)%res
  | None => Raise (AttributeError "all_modes_")
  end.

(** ** Vocabulary of the statements *)

(** A table as pandas builds one from records: every row has one cell per
    column, there is one index label per row, and no label names two
    columns. *)
Definition well_formed (df : DataFrame) : Prop :=
  Forall (fun r => List.length r = List.length (columns df)) (rows df)
  /\ List.length (index df) = List.length (rows df)
  /\ NoDup (col_names df).

Definition target (e : ModeEntry) : string := fst (fst e).
Definition driver (e : ModeEntry) : string := snd (fst e).
Definition mode_map (e : ModeEntry) : DataFrame := snd e.

(** The cell of row [i] under the column [name]; missing when there is no
    such row or column. *)
Definition cell_at (df : DataFrame) (i : nat) (name : string) : cell :=
  match index_of name (col_names df) with
  | Some j => get_cell j (nth i (rows df) [])
  | None => None
  end.

(** The ModeMap read as a function: the mode stored for a driver value. *)
Definition lookup_mode (modes : DataFrame) (k : cell) : cell :=
  match find (fun q => cell_eqb k (get_cell 0 q)) (rows modes) with
  | Some q => get_cell 1 q
  | None => None
  end.

(** The shape [_get_all_modes] gives a ModeMap: the driver column, then the
    mode column, one row per driver value. *)
Definition modes_ok (e : ModeEntry) : Prop :=
  col_names (mode_map e) = [driver e; mode_label (target e)]
  /\ Forall (fun q => List.length q = 2) (rows (mode_map e))
  /\ NoDup (map (get_cell 0) (rows (mode_map e))).

(** The table has what the fitted state refers to, and no column is called
    like the helper column of a target. *)
Definition schema_ok (all_modes : list ModeEntry) (X : DataFrame) : Prop :=
  Forall (fun e => In (target e) (col_names X)
                   /\ In (driver e) (col_names X)
                   /\ ~ In (mode_label (target e)) (col_names X)) all_modes.

(** The spec's reading of single-pass imputation: every pair looks its
    driver values up in the input table [X]. *)
Definition single_pass_cell (X : DataFrame) (e : ModeEntry) (i : nat) : cell :=
  match cell_at X i (target e) with
  | Some v => Some v
  | None => lookup_mode (mode_map e) (cell_at X i (driver e))
  end.

(** The strict order on labels, and key sets sorted by it. *)
Definition slt (a b : string) : Prop := String.compare a b = Lt.
Definition sorted (l : list string) : Prop := StronglySorted slt l.

(** What one pass of the loop body does to a row: the target cell, when
    missing, takes the mode stored for the row's driver cell. *)
Definition fill_row (j1 j2 : nat) (modes : DataFrame) (r : list cell)
  : list cell :=
  set_nth j1 (if isna (get_cell j1 r)
              then lookup_mode modes (get_cell j2 r)
              else get_cell j1 r) r.

(** All passes of the loop on one row, with columns found by position in
    [names]. *)
Fixpoint fill_all (names : list string) (l : list ModeEntry) (r : list cell)
  : list cell :=
  match l with
  | [] => r
  | e :: rest =>
      match index_of (target e) names, index_of (driver e) names with
      | Some j1, Some j2 =>
          fill_all names rest (fill_row j1 j2 (mode_map e) r)
      | _, _ => r
      end
  end.

(** The type one pass of the loop body gives its target column. *)
Definition step_dtype (Xc : DataFrame) (e : ModeEntry) (j1 j2 : nat) : dtype :=
  fillna_dtype
    (dtype_of Xc (target e), map (get_cell j1) (rows Xc))
    (dtype_of (mode_map e) (mode_label (target e)),
     map (fun r => lookup_mode (mode_map e) (get_cell j2 r)) (rows Xc)).



(** The state [fit] leaves behind: one ModeMap per selected pair, built by
    [_get_all_modes] from the fitting table, no target selected twice. *)
Definition fitted_from (Xfit : DataFrame) (self : Chi2ContingencyImputer)
  (all_modes : list ModeEntry) : Prop :=
  exists related_vars,
    NoDup (map fst related_vars)
    /\ _get_all_modes Xfit related_vars = OK all_modes
    /\ related_vars_ self = Some related_vars
    /\ all_modes_ self = Some all_modes.

Definition fitted (self : Chi2ContingencyImputer) (all_modes : list ModeEntry)
  : Prop :=
  exists Xfit, fitted_from Xfit self all_modes.

(** The spec's tie-break for the mode of a group: the first value, in row
    order, whose frequency is the highest. *)
Definition first_encountered_mode (g : list cell) : cell :=
  let vals := dropna g in
  let top := list_max (map (value_count vals) vals) in
  find (fun v => Nat.eqb (value_count vals v) top) vals.

(** [v] is one of the most frequent labels of the group [g]. *)
Definition most_frequent (g : list cell) (v : string) : Prop :=
  In v (dropna g)
  /\ forall w, value_count (dropna g) w <= value_count (dropna g) v.

(** ** A running example

    Three columns that vary together, so that every pair gives the same
    contingency table; [fit] then selects B for A, and A for B and for C. *)
Module Demo.

Definition Xfit : DataFrame :=
  frame ["A"; "B"; "C"]
    [[Some "a1"; Some "b1"; Some "c1"];
     [Some "a1"; Some "b1"; Some "c1"];
     [Some "a2"; Some "b2"; Some "c2"];
     [Some "a2"; Some "b2"; Some "c2"]].

Definition related : list (string * string) :=
  [("A", "B"); ("B", "A"); ("C", "A")].

Definition modes : list ModeEntry :=
  Eval vm_compute in
    match _get_all_modes Xfit related with
    | OK l => l
    | Raise _ => []
    end.

Definition imputer : Chi2ContingencyImputer :=
  mkImputer None (Some related) (Some modes).

(** A table to impute: in the first row A and C are missing. *)
Definition Xin : DataFrame :=
  mkDF [10%Z; 20%Z] [("A", object); ("B", object); ("C", object)]
    [[None; Some "b1"; None];
     [Some "a2"; None; Some "c2"]].

(** What [transform] makes of [Xin]. *)
Definition Xout : DataFrame :=
  mkDF [10%Z; 20%Z] [("A", object); ("B", object); ("C", object)]
    [[Some "a1"; Some "b1"; Some "c1"];
     [Some "a2"; Some "b2"; Some "c2"]].

(** A table with nothing missing. *)
Definition Xfull : DataFrame :=
  mkDF [7%Z; 8%Z] [("A", object); ("B", object); ("C", object)]
    [[Some "a1"; Some "b2"; Some "c1"];
     [Some "a2"; Some "b1"; Some "c2"]].


End Demo.

(** The driver cell a pair reads in row [i].  The pair reads the working
    copy: when an earlier pair of the same call had the driver column for
    target, that is the cell the call returns in [Y]; otherwise it is the
    cell of the input [X]. *)
Definition driver_cell_read (X Y : DataFrame) (pre : list ModeEntry)
  (e : ModeEntry) (i : nat) : cell :=
  if mem (driver e) (map target pre)
  then cell_at Y i (driver e)
  else cell_at X i (driver e).

Module DemoTie.
(** One driver value, two target labels seen once each: ["b"] first. *)
Definition Xfit : DataFrame :=
  frame ["A"; "B"] [[Some "b"; Some "x"]; [Some "a"; Some "x"]].
End DemoTie.

Module DemoNaN.
(** The driver B is missing in two rows of the fitting table. *)
Definition Xfit : DataFrame :=
  frame ["A"; "B"]
    [[Some "a1"; None]; [Some "a1"; None]; [Some "a2"; Some "b"]].

Definition related : list (string * string) := [("A", "B")].

Definition modes : list ModeEntry :=
  Eval vm_compute in
    match _get_all_modes Xfit related with
    | OK l => l
    | Raise _ => []
    end.

Definition imputer : Chi2ContingencyImputer :=
  mkImputer None (Some related) (Some modes).

(** Target and driver are both missing in the only row. *)
Definition Xin : DataFrame := frame ["A"; "B"] [[None; None]].
Definition Xout : DataFrame := frame ["A"; "B"] [[Some "a1"; None]].
End DemoNaN.

(** The pairs the first loop does not skip. *)
Definition neq_pair (ab : string * string) : bool :=
  negb (String.eqb (fst ab) (snd ab)).

(** The columns that stand as driver for the target [A]. *)
Definition candidates (A : string) (cat_features : list string) : list string :=
  filter (fun b => negb (String.eqb A b)) cat_features.

(** The rows of the results frame in the group of the key [k], with their
    positions. *)
Definition group_of {pvalue : Type} (results : list (Result pvalue))
  (k : string) : list (nat * Result pvalue) :=
  filter (fun ir => String.eqb (res_var1 (snd ir)) k) (enumerate results).

Module DemoConst.
(** The column A has a single label. *)
Definition X : DataFrame :=
  frame ["A"; "B"] [[Some "x"; Some "u"]; [Some "x"; Some "v"]].
End DemoConst.

Module DemoOrder.
(** Four columns; B has three labels, the others two. *)
Definition X : DataFrame :=
  frame ["A"; "B"; "C"; "D"]
    [[Some "a1"; Some "b1"; Some "c1"; Some "d1"];
     [Some "a2"; Some "b2"; Some "c2"; Some "d2"];
     [Some "a1"; Some "b3"; Some "c1"; Some "d1"]].

(** A stand-in for the test, enough to order the pairs: the number of
    columns of the contingency table.  For the target A it is 3 with B and
    2 with C and with D. *)
Definition width (t : list (list nat)) : result nat :=
  OK (List.length (hd [] t)).

Definition imputer : Chi2ContingencyImputer :=
  Eval vm_compute in
    match fit Nat.ltb width (__init__ None) X with
    | OK s => s
    | Raise _ => __init__ None
    end.

Definition related : list (string * string) :=
  [("A", "C"); ("B", "A"); ("C", "A"); ("D", "A")].
End DemoOrder.

(** The type that holds the cells of two columns put together. *)
Definition common_dtype (a b : dtype) : dtype :=
  match a, b with
  | object, _ | _, object => object
  | int64, int64 => int64
  | _, _ => float64
  end.

Definition common_columns (c1 c2 : list (string * dtype))
  : list (string * dtype) :=
  map (fun ab => (fst (fst ab), common_dtype (snd (fst ab)) (snd (snd ab))))
      (combine c1 c2).

(** Two tables with the same column labels, one on top of the other
    ([pd.concat([X1, X2])]); a column takes the common type of its two
    parts. *)
Definition stack (X1 X2 : DataFrame) : DataFrame :=
  mkDF (index X1 ++ index X2) (common_columns (columns X1) (columns X2))
    (rows X1 ++ rows X2).

Module DemoUnseen.
(** A is missing and the driver value ["b9"] was never seen by [fit]. *)
Definition Xin : DataFrame :=
  mkDF [5%Z] [("A", object); ("B", object); ("C", object)]
    [[None; Some "b9"; Some "c1"]].
End DemoUnseen.

Module DemoStack.
(** The rows of [Demo.Xin], one table each. *)
Definition X1 : DataFrame :=
  mkDF [10%Z] [("A", object); ("B", object); ("C", object)]
    [[None; Some "b1"; None]].
Definition X2 : DataFrame :=
  mkDF [20%Z] [("A", object); ("B", object); ("C", object)]
    [[Some "a2"; None; Some "c2"]].
Definition Y1 : DataFrame :=
  mkDF [10%Z] [("A", object); ("B", object); ("C", object)]
    [[Some "a1"; Some "b1"; Some "c1"]].
Definition Y2 : DataFrame :=
  mkDF [20%Z] [("A", object); ("B", object); ("C", object)]
    [[Some "a2"; Some "b2"; Some "c2"]].
End DemoStack.

(** ** [download_from_kaggle] *)

(** [s.split(sep)] for a separator of one character. *)
Fixpoint str_split (sep : ascii) (s : string) : list string :=
  match s with
  | EmptyString => [EmptyString]
  | String c s' =>
      if Ascii.eqb c sep then EmptyString :: str_split sep s'
      else
        match str_split sep s' with
        | h :: t => String c h :: t
        | [] => [String c EmptyString]
        end
  end.

(** [args[-1].split("/")[-1] + ".zip"] *)
Definition archive_name (args : list string) : string :=
  String.append (last (str_split "/" (last args "")) "") ".zip".

(** What the function raises: its own two exceptions, or whatever the
    file system or the command raised. *)
Inductive kaggle_exn : Type :=
| TypeError (msg : string)
| SyntaxError (msg : string)
| Effect (e : exn).

(** The [directory] argument: not given, a [Path], or something else. *)
Inductive directory_arg (path : Type) : Type :=
| NoDirectory
| APath (p : path)
| NotAPath.

Arguments NoDirectory {path}.
Arguments APath {path} p.
Arguments NotAPath {path}.

(** The expressions the [match] accepts:
    [["kaggle", _, "download", *args] if args]. *)
Definition kaggle_command (expr : list string) : Prop :=
  exists x arg args, expr = "kaggle" :: x :: "download" :: arg :: args.

Section Kaggle.

(** The file system and the command runner are outside the repository: a
    world, paths, and the operations on them, each of which may raise. *)
Variable path : Type.
Variable world : Type.
Variable Path_data : path.                      (* Path("data") *)
Variable parent : path -> path.                 (* directory.parent *)
Variable joinpath : path -> string -> path.     (* directory / filename *)
Variable mkdir : path -> world -> option exn * world.
Variable is_file : path -> world -> bool.
Variable subprocess_run : list string -> world -> option exn * world.
Variable unpack_archive : string -> path -> world -> option exn * world.
Variable move : string -> path -> world -> option exn * world.

(** Run [op]; go on with [k] unless it raised. *)
Definition and_then (op : world -> option exn * world)
  (k : world -> option kaggle_exn * world) (w : world)
  : option kaggle_exn * world :=
  match op w with
  | (Some e, w') => (Some (Effect e), w')
  | (None, w') => k w'
  end.

Definition download_from_kaggle (expr : list string)
  (directory : directory_arg path) (w : world) : option kaggle_exn * world :=
  match match directory with
        | NoDirectory => Some Path_data
        | APath p => Some p
        | NotAPath => None
        end with
  | None =>
      (Some (TypeError "The `directory` argument must be `Path` instance!"), w)
  | Some directory =>
      match expr with
      | kaggle :: _ :: download :: arg :: args =>
          if String.eqb kaggle "kaggle" && String.eqb download "download"
          then
            and_then (mkdir (parent directory))
              (fun w1 =>
                 let filename := archive_name (arg :: args) in
                 if is_file (joinpath directory filename) w1
                 then (None, w1)
                 else
                   and_then (subprocess_run expr)
                     (and_then (unpack_archive filename directory)
                        (and_then (move filename directory)
                           (fun w4 => (None, w4)))) w1)
              w
          else (Some (SyntaxError "Invalid expression!"), w)
      | _ => (Some (SyntaxError "Invalid expression!"), w)
      end
  end.

End Kaggle.

Arguments download_from_kaggle {path world} Path_data parent joinpath mkdir
  is_file subprocess_run unpack_archive move expr directory w.

Module DemoKaggle.
(** A toy world: the files that exist, by name. *)
Definition world : Type := list string.
Definition here (d f : string) : string :=
  String.append d (String.append "/" f).
Definition mkdir (_ : string) (w : world) : option exn * world := (None, w).
Definition is_file (p : string) (w : world) : bool := mem p w.
Definition run (expr : list string) (w : world) : option exn * world :=
  (None, archive_name expr :: w).
Definition unpack (f d : string) (w : world) : option exn * world :=
  (None, here d "train.csv" :: w).
Definition move (f d : string) (w : world) : option exn * world :=
  (None, here d f :: filter (fun p => negb (String.eqb p f)) w).
Definition expr : list string :=
  ["kaggle"; "datasets"; "download"; "-d"; "owner/titanic"].
End DemoKaggle.

(** No [/] in a string. *)
Definition no_slash (s : string) : Prop :=
  ~ In "/"%char (list_ascii_of_string s).

(** The [Path] the function works with, when its argument is acceptable. *)
Definition resolve_directory {path : Type} (Path_data : path)
  (directory : directory_arg path) : option path :=
  match directory with
  | NoDirectory => Some Path_data
  | APath p => Some p
  | NotAPath => None
  end.

(** ** Types of the columns [transform] works on *)

(** Every driver column of the table can be matched with the key column of
    its ModeMap. *)
Definition keys_typed (all_modes : list ModeEntry) (X : DataFrame) : Prop :=
  Forall (fun e => key_compatible (dtype_of X (driver e))
                     (dtype_of (mode_map e) (driver e)) = true) all_modes.


(** The column [name] of the table has a missing cell. *)
Definition has_missing (X : DataFrame) (name : string) : bool :=
  match getitem X name with
  | OK col => existsb isna col
  | Raise _ => false
  end.

(** [c] is the mode of the group [g]: the least, in the order of labels, of
    the most frequent labels of [g], or the missing marker when [g] has no
    label. *)
Definition is_group_mode (g : list cell) (c : cell) : Prop :=
  match c with
  | Some v => most_frequent g v
              /\ forall w, most_frequent g w -> w = v \/ slt v w
  | None => dropna g = []
  end.

Module DemoFloat.
(** The column A holds nothing and came out of the reader as float64. *)
Definition Xin : DataFrame :=
  mkDF [3%Z] [("A", float64); ("B", object); ("C", object)]
    [[None; Some "b1"; Some "c1"]].
Definition Xout : DataFrame :=
  mkDF [3%Z] [("A", object); ("B", object); ("C", object)]
    [[Some "a1"; Some "b1"; Some "c1"]].

(** The driver column B holds a number. *)
Definition Xdriver : DataFrame :=
  mkDF [4%Z] [("A", object); ("B", float64); ("C", object)]
    [[None; Some "1.5"; Some "c1"]].
End DemoFloat.

Module DemoModeColumn.
(** Nothing is missing, and there is a column called [Mode_A]. *)
Definition Xin : DataFrame :=
  mkDF [7%Z; 8%Z]
    [("A", object); ("B", object); ("C", object); ("Mode_A", object)]
    [[Some "a1"; Some "b2"; Some "c1"; Some "m1"];
     [Some "a2"; Some "b1"; Some "c2"; Some "m2"]].
End DemoModeColumn.

Module DemoClash.
(** A fitting table with the columns [A] and [Mode_A]. *)
Definition Xfit : DataFrame :=
  frame ["A"; "Mode_A"]
    [[Some "a1"; Some "m1"]; [Some "a1"; Some "m1"];
     [Some "a2"; Some "m2"]; [Some "a2"; Some "m2"]].

Definition imputer : Chi2ContingencyImputer :=
  Eval vm_compute in
    match fit Nat.ltb (fun _ => OK 5) (__init__ None) Xfit with
    | OK s => s
    | Raise _ => __init__ None
    end.

(** A table without the column [A]. *)
Definition Xin : DataFrame := frame ["Mode_A"] [[Some "m1"]].
End DemoClash.

(* ================================================================== *)
(** * Properties *)

(** ** Labels and their order *)

Lemma slt_trans a b c : slt a b -> slt b c -> slt a c.
Proof.
  unfold slt. intros H1 H2.
  apply String_as_OT.cmp_lt in H1. apply String_as_OT.cmp_lt in H2.
  apply String_as_OT.cmp_lt. eapply String_as_OT.lt_trans; eauto.
Qed.

Lemma compare_refl s : String.compare s s = Eq.
Proof. induction s as [|a s IH]; simpl; auto.
  unfold Ascii.compare. rewrite N.compare_refl. exact IH. Qed.

Lemma slt_irrefl a : ~ slt a a.
Proof. unfold slt. rewrite compare_refl. discriminate. Qed.

Lemma compare_gt_slt a b : String.compare a b = Gt -> slt b a.
Proof.
  unfold slt. intros H. rewrite String.compare_antisym, H. reflexivity.
Qed.

Lemma cell_eqb_eq a b : cell_eqb a b = true <-> a = b.
Proof.
  destruct a as [x|], b as [y|]; simpl; try (split; congruence).
  rewrite String.eqb_eq. split; congruence.
Qed.

Lemma cell_eqb_refl a : cell_eqb a a = true.
Proof. apply cell_eqb_eq. reflexivity. Qed.

Lemma cell_eqb_neq a b : cell_eqb a b = false <-> a <> b.
Proof.
  rewrite <- cell_eqb_eq. destruct (cell_eqb a b); split; congruence.
Qed.

Lemma mem_In s l : mem s l = true <-> In s l.
Proof.
  unfold mem. rewrite existsb_exists. split.
  - intros [x [Hx He]]. apply String.eqb_eq in He. subst. exact Hx.
  - intros H. exists s. split; auto. apply String.eqb_refl.
Qed.

Lemma mem_false s l : mem s l = false <-> ~ In s l.
Proof.
  rewrite <- mem_In. destruct (mem s l); split; congruence.
Qed.

Lemma string_length_append a b :
  String.length (String.append a b) = String.length a + String.length b.
Proof. induction a as [|c a IH]; simpl; auto. Qed.

Lemma mode_label_neq v : mode_label v <> v.
Proof.
  intros H. apply (f_equal String.length) in H.
  unfold mode_label in H. rewrite string_length_append in H. simpl in H. lia.
Qed.

Lemma suffixed_neq s sfx :
  String.length sfx <> 0 -> String.append s sfx <> s.
Proof.
  intros Hn H. apply (f_equal String.length) in H.
  rewrite string_length_append in H. lia.
Qed.

Lemma mode_label_suffixed_neq v sfx : String.append (mode_label v) sfx <> v.
Proof.
  intros H. apply (f_equal String.length) in H.
  unfold mode_label in H. rewrite !string_length_append in H. simpl in H. lia.
Qed.

(** ** Sorted key sets *)

Lemma insert_unique_In s l x :
  In x (insert_unique s l) <-> x = s \/ In x l.
Proof.
  induction l as [|y l IH]; simpl.
  - intuition.
  - destruct (String.compare s y) eqn:E; simpl.
    + apply String.compare_eq_iff in E. subst. intuition.
    + intuition.
    + rewrite IH. intuition.
Qed.

Lemma insert_unique_sorted s l : sorted l -> sorted (insert_unique s l).
Proof.
  unfold sorted. induction 1 as [|y l Hs IH Hall]; simpl.
  - repeat constructor.
  - destruct (String.compare s y) eqn:E.
    + constructor; auto.
    + constructor; [constructor; auto|].
      constructor; [exact E|].
      rewrite Forall_forall in *. intros z Hz.
      eapply slt_trans; [exact E|auto].
    + constructor; auto.
      rewrite Forall_forall in *. intros z Hz.
      apply insert_unique_In in Hz. destruct Hz as [->|Hz]; auto.
      apply compare_gt_slt; exact E.
Qed.

Lemma sort_unique_In l x : In x (sort_unique l) <-> In x l.
Proof.
  induction l as [|y l IH]; simpl; [tauto|].
  rewrite insert_unique_In, IH. intuition.
Qed.

Lemma sort_unique_sorted l : sorted (sort_unique l).
Proof.
  induction l as [|y l IH]; simpl.
  - constructor.
  - apply insert_unique_sorted; exact IH.
Qed.

Lemma sorted_NoDup l : sorted l -> NoDup l.
Proof.
  induction 1 as [|y l Hs IH Hall]; constructor; auto.
  intros Hin. rewrite Forall_forall in Hall.
  exact (slt_irrefl _ (Hall _ Hin)).
Qed.

Lemma sort_unique_NoDup l : NoDup (sort_unique l).
Proof. apply sorted_NoDup, sort_unique_sorted. Qed.

(** The first element of a sorted key set is below every other one. *)
Lemma sorted_head_least x l y :
  sorted (x :: l) -> In y (x :: l) -> y = x \/ slt x y.
Proof.
  intros Hs [->|Hin]; [now left|right].
  inversion Hs as [|? ? _ Hall]; subst.
  rewrite Forall_forall in Hall. auto.
Qed.

(** ** Positions of columns *)

Lemma index_of_Some name l j :
  index_of name l = Some j -> j < List.length l /\ nth_error l j = Some name.
Proof.
  revert j. induction l as [|x l IH]; simpl; intros j H; [discriminate|].
  destruct (String.eqb name x) eqn:E.
  - inversion H; subst. apply String.eqb_eq in E. subst. split; [lia|auto].
  - destruct (index_of name l) as [k|]; simpl in H; [|discriminate].
    inversion H; subst. destruct (IH k eq_refl). split; [lia|auto].
Qed.

Lemma index_of_None name l : index_of name l = None <-> ~ In name l.
Proof.
  induction l as [|x l IH]; simpl; [tauto|].
  destruct (String.eqb name x) eqn:E.
  - apply String.eqb_eq in E. subst. split; [discriminate|tauto].
  - apply String.eqb_neq in E.
    destruct (index_of name l) as [k|] eqn:Ek; simpl.
    + split; [discriminate|]. intros H. exfalso. apply H. right.
      apply index_of_Some in Ek. destruct Ek as [_ Ek].
      eapply nth_error_In; eauto.
    + split; auto. intros _ [H|H]; [congruence|]. now apply IH.
Qed.

Lemma index_of_In name l : In name l -> exists j, index_of name l = Some j.
Proof.
  intros H. destruct (index_of name l) as [j|] eqn:E; eauto.
  apply index_of_None in E. contradiction.
Qed.

Lemma index_of_inj a b l j :
  index_of a l = Some j -> index_of b l = Some j -> a = b.
Proof.
  intros Ha Hb. apply index_of_Some in Ha, Hb.
  destruct Ha as [_ Ha], Hb as [_ Hb]. congruence.
Qed.

Lemma index_of_app_l name l l' j :
  index_of name l = Some j -> index_of name (l ++ l') = Some j.
Proof.
  revert j. induction l as [|x l IH]; simpl; intros j H; [discriminate|].
  destruct (String.eqb name x); auto.
  destruct (index_of name l) as [k|]; simpl in *; [|discriminate].
  rewrite (IH k eq_refl). exact H.
Qed.

Lemma index_of_app_r name l l' :
  ~ In name l ->
  index_of name (l ++ l') = option_map (Nat.add (List.length l)) (index_of name l').
Proof.
  induction l as [|x l IH]; simpl; intros H.
  - destruct (index_of name l'); reflexivity.
  - destruct (String.eqb name x) eqn:E.
    + apply String.eqb_eq in E. subst. tauto.
    + rewrite IH by tauto. destruct (index_of name l'); reflexivity.
Qed.

(** ** Rows and cells *)

Lemma get_cell_app_l j r s :
  j < List.length r -> get_cell j (r ++ s) = get_cell j r.
Proof. intros H. unfold get_cell. now rewrite app_nth1. Qed.

Lemma get_cell_app_last r v : get_cell (List.length r) (r ++ [v]) = v.
Proof.
  unfold get_cell. rewrite app_nth2 by lia. now rewrite Nat.sub_diag.
Qed.

Lemma set_nth_length {A : Type} j (v : A) l :
  List.length (set_nth j v l) = List.length l.
Proof.
  revert j. induction l as [|x l IH]; intros [|j]; simpl; auto.
Qed.

Lemma set_nth_app {A : Type} j (v : A) l s :
  j < List.length l -> set_nth j v (l ++ s) = set_nth j v l ++ s.
Proof.
  revert j. induction l as [|x l IH]; intros [|j] H; simpl in *;
    try lia; auto.
  rewrite IH by lia. reflexivity.
Qed.

Lemma get_set_nth_same j v r :
  j < List.length r -> get_cell j (set_nth j v r) = v.
Proof.
  unfold get_cell. revert j. induction r as [|x r IH]; intros [|j] H;
    simpl in *; try lia; auto.
  apply IH. lia.
Qed.

Lemma get_set_nth_other j k v r :
  j <> k -> get_cell k (set_nth j v r) = get_cell k r.
Proof.
  unfold get_cell. revert j k. induction r as [|x r IH]; intros [|j] [|k] H;
    simpl in *; try congruence; auto.
Qed.

Lemma set_nth_same j r :
  set_nth j (get_cell j r) r = r.
Proof.
  unfold get_cell. revert j. induction r as [|x r IH]; intros [|j]; simpl;
    auto. now rewrite IH.
Qed.

Lemma select_cells_drop_last {A B : Type} (f : A -> bool) cols (r : list B) m :
  Forall (fun c => f c = true) cols ->
  List.length r = List.length cols ->
  select_cells (map f cols ++ [false]) (r ++ [m]) = r.
Proof.
  intros Hall. revert r. induction Hall as [|c cols Hc _ IH];
    intros [|x r] Hlen; simpl in *; try discriminate; auto.
  rewrite Hc, IH by lia. reflexivity.
Qed.

Lemma combine_map_same {A B C : Type} (f : A -> B) (g : A -> C) l :
  combine (map f l) (map g l) = map (fun x => (f x, g x)) l.
Proof. induction l as [|x l IH]; simpl; congruence. Qed.

Lemma fillna_map {A : Type} (f g : A -> cell) l :
  fillna (map f l) (map g l)
  = map (fun x => if isna (f x) then g x else f x) l.
Proof. unfold fillna. rewrite combine_map_same, map_map. reflexivity. Qed.

Lemma flat_map_singleton {A B : Type} (f : A -> list B) (g : A -> B) l :
  (forall x, In x l -> f x = [g x]) -> flat_map f l = map g l.
Proof.
  induction l as [|x l IH]; simpl; intros H; auto.
  rewrite H by auto. simpl. rewrite IH; auto.
Qed.

(** ** Looking a driver value up in a ModeMap *)

Lemma filter_unique_key k (rs : list (list cell)) :
  NoDup (map (get_cell 0) rs) ->
  filter (fun q => cell_eqb k (get_cell 0 q)) rs
  = match find (fun q => cell_eqb k (get_cell 0 q)) rs with
    | Some q => [q]
    | None => []
    end.
Proof.
  induction rs as [|q rs IH]; simpl; intros Hnd; auto.
  inversion Hnd as [|? ? Hnot Hnd']; subst.
  destruct (cell_eqb k (get_cell 0 q)) eqn:E.
  - apply cell_eqb_eq in E. f_equal.
    assert (Hnone : forall q', In q' rs ->
                    cell_eqb k (get_cell 0 q') = false).
    { intros q' Hq'. apply cell_eqb_neq. intros Heq. apply Hnot.
      rewrite <- E, Heq. now apply in_map. }
    clear - Hnone. induction rs as [|q' rs IH]; simpl; auto.
    rewrite Hnone by (now left). apply IH. intros; apply Hnone. now right.
  - now apply IH.
Qed.

Lemma merge_rows_lookup modes j2 r :
  Forall (fun q => List.length q = 2) (rows modes) ->
  NoDup (map (get_cell 0) (rows modes)) ->
  merge_rows j2 0 1 (rows modes) r
  = [r ++ [lookup_mode modes (get_cell j2 r)]].
Proof.
  intros Hlen Hnd. unfold merge_rows, lookup_mode.
  rewrite filter_unique_key by exact Hnd.
  destruct (find _ (rows modes)) as [q|] eqn:E; simpl; auto.
  apply find_some in E. destruct E as [Hin _].
  rewrite Forall_forall in Hlen. specialize (Hlen _ Hin).
  destruct q as [|a [|b [|c q]]]; simpl in Hlen; try discriminate.
  reflexivity.
Qed.

(** ** One pass of the loop body *)

Lemma nth_set_nth_same {A : Type} j (v d : A) l :
  j < List.length l -> nth j (set_nth j v l) d = v.
Proof.
  revert j. induction l as [|x l IH]; intros [|j] H; simpl in *;
    try lia; auto.
  apply IH. lia.
Qed.

Lemma nth_set_nth_other {A : Type} j k (v d : A) l :
  j <> k -> nth k (set_nth j v l) d = nth k l d.
Proof.
  revert j k. induction l as [|x l IH]; intros [|j] [|k] H;
    simpl in *; try congruence; auto.
Qed.

Lemma Forall_set_nth {A : Type} (P : A -> Prop) j v l :
  P v -> Forall P l -> Forall P (set_nth j v l).
Proof.
  intros Hv Hl. revert j. induction Hl; intros [|j]; simpl; auto.
Qed.

(** Assigning to a column leaves the labels as they are. *)
Lemma set_nth_names t j d (cols : list (string * dtype)) :
  index_of t (map fst cols) = Some j ->
  map fst (set_nth j (t, d) cols) = map fst cols.
Proof.
  revert j. induction cols as [|[c dc] cols IH]; intros j H; simpl in *;
    [discriminate|].
  destruct (String.eqb t c) eqn:E.
  - inversion H; subst. apply String.eqb_eq in E. now subst.
  - destruct (index_of t (map fst cols)) as [k|]; simpl in H; [|discriminate].
    inversion H; subst. simpl. now rewrite IH.
Qed.

Lemma set_nth_column t j (cols : list (string * dtype)) :
  index_of t (map fst cols) = Some j ->
  set_nth j (t, snd (nth j cols (t, object))) cols = cols.
Proof.
  revert j. induction cols as [|[c dc] cols IH]; intros j H; simpl in *;
    [discriminate|].
  destruct (String.eqb t c) eqn:E.
  - inversion H; subst. apply String.eqb_eq in E. now subst.
  - destruct (index_of t (map fst cols)) as [k|]; simpl in H; [|discriminate].
    inversion H; subst. simpl. now rewrite IH.
Qed.

Lemma dtype_of_columns X X' name :
  columns X' = columns X -> dtype_of X' name = dtype_of X name.
Proof. intros H. unfold dtype_of, col_names. now rewrite H. Qed.

Lemma dtype_of_absent X name :
  ~ In name (col_names X) -> dtype_of X name = object.
Proof.
  intros H. unfold dtype_of. apply index_of_None in H. now rewrite H.
Qed.

(** The types after an assignment to the column [t]. *)
Lemma dtype_of_retag X X' t j d name :
  index_of t (col_names X) = Some j ->
  columns X' = set_nth j (t, d) (columns X) ->
  dtype_of X' name = if String.eqb name t then d else dtype_of X name.
Proof.
  intros Hj Hc. unfold dtype_of, col_names in *.
  rewrite Hc, set_nth_names by exact Hj.
  destruct (index_of name (map fst (columns X))) as [k|] eqn:E.
  - destruct (String.eqb name t) eqn:Et.
    + apply String.eqb_eq in Et. subst. rewrite Hj in E. inversion E; subst.
      apply index_of_Some in Hj. rewrite length_map in Hj.
      rewrite nth_set_nth_same; [reflexivity|tauto].
    + rewrite nth_set_nth_other; auto. intros ->.
      apply String.eqb_neq in Et. apply Et.
      exact (index_of_inj _ _ _ _ E Hj).
  - destruct (String.eqb name t) eqn:Et; auto.
    apply String.eqb_eq in Et. subst. congruence.
Qed.


Lemma fillna_dtype_object s other : fillna_dtype (object, s) other = object.
Proof.
  unfold fillna_dtype. cbn [fst snd dtype_eqb negb].
  now rewrite andb_false_r.
Qed.

Lemma fillna_dtype_full d s other :
  existsb isna s = false -> fillna_dtype (d, s) other = d.
Proof.
  intros H. unfold fillna_dtype. cbn [fst snd].
  replace (existsb _ (combine s (snd other))) with false; [reflexivity|].
  symmetry. revert H. generalize (snd other).
  induction s as [|a s IH]; intros [|b o] H; cbn in *; auto.
  apply orb_false_iff in H. destruct H as [-> H]. cbn. now apply IH.
Qed.

Lemma modes_columns var1 var2 modes :
  col_names modes = [var2; mode_label var1] ->
  var2 <> mode_label var1 ->
  columns modes = [(var2, dtype_of modes var2);
                   (mode_label var1, dtype_of modes (mode_label var1))].
Proof.
  unfold dtype_of, col_names. intros H Hneq.
  destruct (columns modes) as [|[a d1] [|[b d2] [|c l]]]; simpl in H;
    try discriminate.
  inversion H; subst. cbn [map fst index_of].
  rewrite !String.eqb_refl.
  replace (String.eqb (mode_label var1) var2) with false
    by (symmetry; apply String.eqb_neq; congruence).
  reflexivity.
Qed.

Lemma index_of_head a l : index_of a (a :: l) = Some 0.
Proof. simpl. now rewrite String.eqb_refl. Qed.

Lemma count_occ_pair a b :
  a <> b -> count_occ string_dec [a; b] a = 1.
Proof.
  intros H. cbn [count_occ].
  destruct (string_dec a a); [|congruence].
  destruct (string_dec b a); [congruence|reflexivity].
Qed.

(** The merge of the working copy with a ModeMap, when the driver is not
    called like the mode column: refused when the driver column and the key
    of the ModeMap cannot be matched, and else one row per row, one more
    cell. *)
Lemma merge_modes Xc var1 var2 modes j2 :
  modes_ok (var1, var2, modes) ->
  var2 <> mode_label var1 ->
  index_of var2 (col_names Xc) = Some j2 ->
  merge Xc modes var2
  = if key_compatible (dtype_of Xc var2) (dtype_of modes var2)
    then OK (mkDF (range_index (List.length (rows Xc)))
               (map (suffix_overlap [mode_label var1] var2 "_x") (columns Xc)
                ++ [suffix_overlap (col_names Xc) var2 "_y"
                      (mode_label var1, dtype_of modes (mode_label var1))])
               (map (fun r => r ++ [lookup_mode modes (get_cell j2 r)])
                    (rows Xc)))
    else Raise (ValueError
                  "You are trying to merge on object and numeric columns").
Proof.
  intros (Hcols & Hlen & Hnd) Hneq Hj2.
  unfold target, driver, mode_map in *; simpl in *.
  pose proof (modes_columns _ _ _ Hcols Hneq) as Hc.
  unfold merge. rewrite Hcols.
  rewrite index_of_head, (count_occ_pair _ _ Hneq), Hj2.
  cbn [Nat.ltb Nat.leb].
  destruct (key_compatible (dtype_of Xc var2) (dtype_of modes var2));
    cbn [negb]; [|reflexivity].
  rewrite Hc. cbn [remove_nth map fst List.length].
  rewrite (flat_map_singleton _
             (fun r => r ++ [lookup_mode modes (get_cell j2 r)])).
  - now rewrite length_map.
  - intros r _. now apply merge_rows_lookup.
Qed.

Lemma suffix_x_names_absent var1 var2 cols :
  ~ In (mode_label var1) (map fst cols) ->
  map (suffix_overlap [mode_label var1] var2 "_x") cols = cols.
Proof.
  induction cols as [|[n d] cols IH]; simpl; intros H; auto.
  rewrite IH by tauto. f_equal.
  unfold suffix_overlap; simpl.
  destruct (String.eqb n (mode_label var1)) eqn:E.
  - apply String.eqb_eq in E. subst. tauto.
  - now rewrite andb_false_r.
Qed.

(** With its columns in place, a pass fills the rows and gives the target
    column the type of the filled Series. *)
Lemma impute_step_ok Xc var1 var2 modes j1 j2 :
  modes_ok (var1, var2, modes) ->
  Forall (fun r => List.length r = List.length (columns Xc)) (rows Xc) ->
  index_of var1 (col_names Xc) = Some j1 ->
  index_of var2 (col_names Xc) = Some j2 ->
  ~ In (mode_label var1) (col_names Xc) ->
  key_compatible (dtype_of Xc var2) (dtype_of modes var2) = true ->
  impute_step Xc (var1, var2, modes)
  = OK (mkDF (range_index (List.length (rows Xc)))
          (set_nth j1 (var1, step_dtype Xc (var1, var2, modes) j1 j2)
             (columns Xc))
          (map (fill_row j1 j2 modes) (rows Xc))).
Proof.
  intros Hok Hwf Hj1 Hj2 Hml Hcompat.
  unfold step_dtype, target, mode_map. cbn [fst snd].
  assert (Hneq : var2 <> mode_label var1).
  { intros ->. apply Hml. apply index_of_Some in Hj2.
    eapply nth_error_In, Hj2. }
  assert (Hne1 : mode_label var1 <> var1) by apply mode_label_neq.
  unfold impute_step.
  rewrite (merge_modes _ _ _ _ _ Hok Hneq Hj2), Hcompat. clear Hok Hcompat.
  rewrite suffix_x_names_absent by exact Hml.
  assert (Hy : forall d2,
             suffix_overlap (col_names Xc) var2 "_y" (mode_label var1, d2)
             = (mode_label var1, d2)).
  { intros d2. unfold suffix_overlap; cbn [fst snd].
    replace (mem (mode_label var1) (col_names Xc)) with false
      by (symmetry; now apply mem_false).
    now rewrite andb_false_r. }
  rewrite Hy. clear Hy.
  set (dm := dtype_of modes (mode_label var1)). clearbody dm.
  set (ml := mode_label var1) in *. clearbody ml. cbn [bindr].
  assert (Hn : List.length (col_names Xc) = List.length (columns Xc))
    by (unfold col_names; now rewrite length_map).
  destruct (index_of_Some _ _ _ Hj1) as [Hlt1 _].
  set (Xc1 := mkDF _ (columns Xc ++ [(ml, dm)]) _).
  assert (Hn1 : col_names Xc1 = col_names Xc ++ [ml]).
  { unfold col_names. subst Xc1. cbn [columns]. now rewrite map_app. }
  assert (Hg1 : getitem Xc1 var1 = OK (map (get_cell j1) (rows Xc))).
  { unfold getitem. rewrite Hn1, (index_of_app_l _ _ _ _ Hj1).
    subst Xc1; cbn [rows]. f_equal. rewrite map_map.
    apply map_ext_in. intros r Hr. apply get_cell_app_l.
    rewrite Forall_forall in Hwf. rewrite (Hwf _ Hr). lia. }
  assert (Hd1 : dtype_of Xc1 var1 = dtype_of Xc var1).
  { unfold dtype_of. rewrite Hn1, (index_of_app_l _ _ _ _ Hj1), Hj1.
    subst Xc1; cbn [columns]. rewrite app_nth1 by lia. reflexivity. }
  assert (Hg2 : getitem Xc1 ml
                = OK (map (fun r => lookup_mode modes (get_cell j2 r))
                        (rows Xc))).
  { unfold getitem. rewrite Hn1, index_of_app_r by exact Hml.
    rewrite index_of_head. cbn [option_map].
    subst Xc1; cbn [rows]. f_equal. rewrite map_map.
    apply map_ext_in. intros r Hr. rewrite Nat.add_0_r.
    rewrite Forall_forall in Hwf.
    replace (List.length (col_names Xc)) with (List.length r)
      by (rewrite (Hwf _ Hr); lia).
    apply get_cell_app_last. }
  assert (Hd2 : dtype_of Xc1 ml = dm).
  { unfold dtype_of. rewrite Hn1, index_of_app_r by exact Hml.
    rewrite index_of_head. cbn [option_map].
    subst Xc1; cbn [columns]. rewrite Nat.add_0_r, Hn.
    rewrite app_nth2 by lia. now rewrite Nat.sub_diag. }
  unfold getitem_series. rewrite Hg1, Hg2, Hd1, Hd2. cbn [bindr].
  unfold fillna_series. cbn [fst snd]. rewrite fillna_map.
  set (d1 := fillna_dtype _ _). clearbody d1.
  unfold setitem. rewrite Hn1, (index_of_app_l _ _ _ _ Hj1). cbn [fst snd].
  subst Xc1. cbn [rows columns index].
  rewrite !length_map, Nat.eqb_refl.
  rewrite (combine_map_same
             (fun r => r ++ [lookup_mode modes (get_cell j2 r)])), map_map.
  cbn [bindr fst snd].
  rewrite set_nth_app by lia.
  unfold drop. unfold col_names at 1. cbn [columns].
  rewrite map_app, set_nth_names by exact Hj1. fold (col_names Xc).
  replace (mem ml (col_names Xc ++ map fst [(ml, dm)])) with true.
  2:{ symmetry. apply mem_In, in_or_app. right. now left. }
  cbn [index rows columns]. rewrite map_app. cbn [map fst].
  rewrite String.eqb_refl. cbn [negb].
  assert (Hkeep : Forall (fun c : string * dtype =>
                    negb (String.eqb ml (fst c)) = true)
                    (set_nth j1 (var1, d1) (columns Xc))).
  { apply Forall_set_nth.
    - cbn [fst]. apply negb_true_iff, String.eqb_neq. exact Hne1.
    - rewrite Forall_forall. intros c Hc.
      apply negb_true_iff, String.eqb_neq. intros E. apply Hml.
      rewrite E. unfold col_names. now apply in_map. }
  f_equal. f_equal.
  - apply select_cells_drop_last; [exact Hkeep|reflexivity].
  - rewrite map_map. apply map_ext_in. intros r Hr.
    rewrite Forall_forall in Hwf. specialize (Hwf _ Hr).
    rewrite set_nth_app by lia.
    unfold fill_row. apply select_cells_drop_last; [exact Hkeep|].
    now rewrite !set_nth_length.
Qed.

(** ** The loop body, when the table does not fit the fitted state *)

Lemma suffix_x_names var1 var2 cols n :
  In n (map fst (map (suffix_overlap [mode_label var1] var2 "_x") cols)) ->
  (In n (map fst cols) /\ n <> mode_label var1)
  \/ (n = var2 /\ In n (map fst cols))
  \/ n = String.append (mode_label var1) "_x".
Proof.
  induction cols as [|[c d] cols IH]; simpl; [tauto|].
  intros [H|H].
  - unfold suffix_overlap in H; cbn [fst snd mem existsb] in H.
    destruct (String.eqb c var2) eqn:E1; cbn [negb andb] in H.
    + apply String.eqb_eq in E1. subst. cbn [fst]. right. left. auto.
    + rewrite orb_false_r in H.
      destruct (String.eqb c (mode_label var1)) eqn:E2; cbn [fst] in H.
      * apply String.eqb_eq in E2. subst. auto.
      * apply String.eqb_neq in E2. subst. left. auto.
  - destruct (IH H) as [[? ?]|[[? ?]|?]]; auto.
Qed.

Lemma suffix_x_keeps var1 var2 cols n :
  In n (map fst cols) -> n <> mode_label var1 ->
  In n (map fst (map (suffix_overlap [mode_label var1] var2 "_x") cols)).
Proof.
  intros Hin Hn. rewrite map_map. apply in_map_iff in Hin.
  destruct Hin as ([c d] & <- & Hin). apply in_map_iff.
  exists (c, d). split; auto.
  unfold suffix_overlap; cbn [fst snd mem existsb] in *.
  replace (String.eqb c (mode_label var1)) with false
    by (symmetry; now apply String.eqb_neq).
  now rewrite andb_false_r.
Qed.

Lemma suffix_y_name names var1 var2 d2 :
  fst (suffix_overlap names var2 "_y" (mode_label var1, d2)) = mode_label var1
  \/ (In (mode_label var1) names
      /\ fst (suffix_overlap names var2 "_y" (mode_label var1, d2))
         = String.append (mode_label var1) "_y").
Proof.
  unfold suffix_overlap; cbn [fst snd].
  destruct (negb (String.eqb (mode_label var1) var2)
            && mem (mode_label var1) names) eqn:E; auto.
  apply andb_true_iff in E. destruct E as [_ E]. apply mem_In in E.
  right. auto.
Qed.

Lemma impute_step_driver_clash Xc var1 modes :
  modes_ok (var1, mode_label var1, modes) ->
  impute_step Xc (var1, mode_label var1, modes)
  = Raise (ValueError "The column label is not unique.").
Proof.
  intros (Hcols & _). unfold target, driver, mode_map in Hcols; simpl in Hcols.
  unfold impute_step, merge. rewrite Hcols, index_of_head.
  cbn [count_occ]. destruct (string_dec (mode_label var1) (mode_label var1));
    [reflexivity|congruence].
Qed.

Lemma impute_step_no_driver Xc var1 var2 modes :
  modes_ok (var1, var2, modes) ->
  var2 <> mode_label var1 ->
  ~ In var2 (col_names Xc) ->
  impute_step Xc (var1, var2, modes) = Raise (KeyError var2).
Proof.
  intros (Hcols & _) Hneq Hnot.
  unfold target, driver, mode_map in Hcols; simpl in Hcols.
  unfold impute_step, merge.
  rewrite Hcols, index_of_head, (count_occ_pair _ _ Hneq).
  apply index_of_None in Hnot. rewrite Hnot. reflexivity.
Qed.

Lemma impute_step_key_mismatch Xc var1 var2 modes :
  modes_ok (var1, var2, modes) ->
  var2 <> mode_label var1 ->
  In var2 (col_names Xc) ->
  key_compatible (dtype_of Xc var2) (dtype_of modes var2) = false ->
  impute_step Xc (var1, var2, modes)
  = Raise (ValueError "You are trying to merge on object and numeric columns").
Proof.
  intros Hok Hneq Hin Hc.
  destruct (index_of_In _ _ Hin) as [j2 Hj2].
  unfold impute_step.
  rewrite (merge_modes _ _ _ _ _ Hok Hneq Hj2), Hc. reflexivity.
Qed.

Lemma impute_step_no_target Xc var1 var2 modes :
  modes_ok (var1, var2, modes) ->
  var2 <> mode_label var1 ->
  In var2 (col_names Xc) ->
  key_compatible (dtype_of Xc var2) (dtype_of modes var2) = true ->
  ~ In var1 (col_names Xc) ->
  impute_step Xc (var1, var2, modes) = Raise (KeyError var1).
Proof.
  intros Hok Hneq Hin Hc Hnot.
  destruct (index_of_In _ _ Hin) as [j2 Hj2].
  unfold impute_step.
  rewrite (merge_modes _ _ _ _ _ Hok Hneq Hj2), Hc.
  cbn [bindr]. unfold getitem_series at 1. unfold getitem at 1.
  match goal with |- context [index_of var1 ?l] =>
    assert (Hnone : index_of var1 l = None) end.
  { apply index_of_None. unfold col_names. cbn [columns].
    rewrite map_app. intros H. apply in_app_or in H. destruct H as [H|H].
    - apply suffix_x_names in H. destruct H as [[H _]|[[_ H]|H]].
      + now apply Hnot.
      + now apply Hnot.
      + symmetry in H. now apply mode_label_suffixed_neq in H.
    - cbn [map In] in H. destruct H as [H|[]].
      destruct (suffix_y_name (map fst (columns Xc)) var1 var2
                  (dtype_of modes (mode_label var1)))
        as [E|[_ E]]; unfold col_names in H; rewrite E in H.
      + now apply mode_label_neq in H.
      + now apply mode_label_suffixed_neq in H. }
  rewrite Hnone. reflexivity.
Qed.

Lemma impute_step_label_clash Xc var1 var2 modes :
  modes_ok (var1, var2, modes) ->
  var2 <> mode_label var1 ->
  In var2 (col_names Xc) ->
  key_compatible (dtype_of Xc var2) (dtype_of modes var2) = true ->
  In var1 (col_names Xc) ->
  In (mode_label var1) (col_names Xc) ->
  impute_step Xc (var1, var2, modes) = Raise (KeyError (mode_label var1)).
Proof.
  intros Hok Hneq Hin2 Hc Hin1 Hml.
  destruct (index_of_In _ _ Hin2) as [j2 Hj2].
  unfold impute_step.
  rewrite (merge_modes _ _ _ _ _ Hok Hneq Hj2), Hc.
  cbn [bindr]. unfold getitem_series at 1. unfold getitem at 1.
  match goal with |- context [index_of var1 ?l] =>
    assert (Hsome : exists j, index_of var1 l = Some j) end.
  { apply index_of_In. unfold col_names. cbn [columns].
    rewrite map_app. apply in_or_app. left.
    apply suffix_x_keeps; auto.
    intros E. symmetry in E. now apply mode_label_neq in E. }
  destruct Hsome as [j Hj]. rewrite Hj. cbn [bindr].
  unfold getitem_series, getitem.
  match goal with |- context [index_of (mode_label var1) ?l] =>
    assert (Hnone : index_of (mode_label var1) l = None) end.
  { apply index_of_None. unfold col_names. cbn [columns].
    rewrite map_app. intros H. apply in_app_or in H. destruct H as [H|H].
    - apply suffix_x_names in H. destruct H as [[_ H]|[[H _]|H]].
      + now apply H.
      + now apply Hneq.
      + symmetry in H. apply suffixed_neq in H; auto. discriminate.
    - cbn [map In] in H. destruct H as [H|[]].
      unfold suffix_overlap in H; cbn [fst snd] in H.
      replace (String.eqb (mode_label var1) var2) with false in H
        by (symmetry; apply String.eqb_neq; congruence).
      replace (mem (mode_label var1) (map fst (columns Xc))) with true in H
        by (symmetry; now apply mem_In).
      cbn [negb andb fst] in H. apply suffixed_neq in H; auto. discriminate. }
  rewrite Hnone. reflexivity.
Qed.

(** The outcomes of a pass, case by case. *)
Lemma impute_step_cases Xc e :
  modes_ok e ->
  Forall (fun r => List.length r = List.length (columns Xc)) (rows Xc) ->
  (exists j1 j2,
     index_of (target e) (col_names Xc) = Some j1
     /\ index_of (driver e) (col_names Xc) = Some j2
     /\ ~ In (mode_label (target e)) (col_names Xc)
     /\ key_compatible (dtype_of Xc (driver e))
          (dtype_of (mode_map e) (driver e)) = true
     /\ impute_step Xc e
        = OK (mkDF (range_index (List.length (rows Xc)))
                (set_nth j1 (target e, step_dtype Xc e j1 j2) (columns Xc))
                (map (fill_row j1 j2 (mode_map e)) (rows Xc))))
  \/ (~ (In (target e) (col_names Xc) /\ In (driver e) (col_names Xc)
         /\ ~ In (mode_label (target e)) (col_names Xc))
      /\ exists err, impute_step Xc e = Raise err
         /\ ((exists k, err = KeyError k) \/ (exists m, err = ValueError m))
         /\ (driver e <> mode_label (target e) ->
             key_compatible (dtype_of Xc (driver e))
               (dtype_of (mode_map e) (driver e)) = true ->
             exists k, err = KeyError k))
  \/ (In (driver e) (col_names Xc)
      /\ key_compatible (dtype_of Xc (driver e))
           (dtype_of (mode_map e) (driver e)) = false
      /\ exists m, impute_step Xc e = Raise (ValueError m)).
Proof.
  destruct e as [[var1 var2] modes].
  unfold target, driver, mode_map; cbn [fst snd].
  intros Hok Hwf.
  destruct (string_dec var2 (mode_label var1)) as [->|Hneq].
  { right. left. split.
    - intros (_ & H & H'). contradiction.
    - eexists. split; [now apply impute_step_driver_clash|].
      split; [right; eauto|congruence]. }
  destruct (in_dec string_dec var2 (col_names Xc)) as [H2|H2].
  2:{ right. left. split; [tauto|].
      eexists. split; [now apply impute_step_no_driver|].
      split; [left; eauto|eauto]. }
  destruct (key_compatible (dtype_of Xc var2) (dtype_of modes var2)) eqn:Hc.
  2:{ right. right. split; auto. split; auto.
      eexists. now apply impute_step_key_mismatch. }
  destruct (in_dec string_dec var1 (col_names Xc)) as [H1|H1].
  2:{ right. left. split; [tauto|].
      eexists. split; [now apply impute_step_no_target|].
      split; [left; eauto|eauto]. }
  destruct (in_dec string_dec (mode_label var1) (col_names Xc)) as [H3|H3].
  { right. left. split; [tauto|].
    eexists. split; [now apply impute_step_label_clash|].
    split; [left; eauto|eauto]. }
  left.
  destruct (index_of_In _ _ H1) as [j1 Hj1].
  destruct (index_of_In _ _ H2) as [j2 Hj2].
  exists j1, j2. repeat split; auto.
  now apply impute_step_ok.
Qed.

(** A pass that returns found its columns, and what it returns is the
    working copy with the rows filled and the target column retyped. *)
Lemma impute_step_inv Xc e Xc' :
  modes_ok e ->
  Forall (fun r => List.length r = List.length (columns Xc)) (rows Xc) ->
  impute_step Xc e = OK Xc' ->
  exists j1 j2,
    index_of (target e) (col_names Xc) = Some j1
    /\ index_of (driver e) (col_names Xc) = Some j2
    /\ ~ In (mode_label (target e)) (col_names Xc)
    /\ key_compatible (dtype_of Xc (driver e))
         (dtype_of (mode_map e) (driver e)) = true
    /\ columns Xc' = set_nth j1 (target e, step_dtype Xc e j1 j2) (columns Xc)
    /\ rows Xc' = map (fill_row j1 j2 (mode_map e)) (rows Xc).
Proof.
  intros Hok Hwf Hstep.
  destruct (impute_step_cases Xc e Hok Hwf)
    as [(j1 & j2 & H1 & H2 & H3 & H4 & E)
       |[(_ & err & E & _)|(_ & _ & m & E)]];
    rewrite E in Hstep; [|discriminate|discriminate].
  inversion Hstep; subst. exists j1, j2. cbn [rows columns]. auto 10.
Qed.

Lemma index_of_found name l j : index_of name l = Some j -> In name l.
Proof.
  intros H. apply index_of_Some in H. destruct H as [_ H].
  eapply nth_error_In, H.
Qed.

(** ** The whole loop *)

Lemma fill_row_length j1 j2 modes r :
  List.length (fill_row j1 j2 modes r) = List.length r.
Proof. unfold fill_row. apply set_nth_length. Qed.

Lemma fill_all_length names l : forall r,
  List.length (fill_all names l r) = List.length r.
Proof.
  induction l as [|e l IH]; intros r; cbn [fill_all]; auto.
  destruct (index_of (target e) names); auto.
  destruct (index_of (driver e) names); auto.
  rewrite IH. apply fill_row_length.
Qed.

(** What a pass keeps: the labels, the shape of the rows, and the type of
    every column but its target; an object-typed column stays so. *)
Lemma impute_step_frame Xc e Xc' :
  modes_ok e ->
  Forall (fun r => List.length r = List.length (columns Xc)) (rows Xc) ->
  impute_step Xc e = OK Xc' ->
  col_names Xc' = col_names Xc
  /\ Forall (fun r => List.length r = List.length (columns Xc')) (rows Xc')
  /\ (forall name, name <> target e -> dtype_of Xc' name = dtype_of Xc name)
  /\ (forall name, dtype_of Xc name = object -> dtype_of Xc' name = object).
Proof.
  intros Hok Hwf Hstep.
  destruct (impute_step_inv _ _ _ Hok Hwf Hstep)
    as (j1 & j2 & H1 & H2 & H3 & H4 & Hc & Hr).
  repeat split.
  - unfold col_names. rewrite Hc. now apply set_nth_names.
  - rewrite Hc, Hr, set_nth_length, Forall_forall in *. intros r Hin.
    apply in_map_iff in Hin. destruct Hin as (r0 & <- & Hr0).
    rewrite fill_row_length. auto.
  - intros name Hne. rewrite (dtype_of_retag Xc Xc' _ _ _ name H1 Hc).
    replace (String.eqb name (target e)) with false
      by (symmetry; now apply String.eqb_neq).
    reflexivity.
  - intros name Hobj. rewrite (dtype_of_retag Xc Xc' _ _ _ name H1 Hc).
    destruct (String.eqb name (target e)) eqn:E; auto.
    apply String.eqb_eq in E. subst. unfold step_dtype. rewrite Hobj.
    apply fillna_dtype_object.
Qed.

Lemma schema_ok_names l X X' :
  col_names X' = col_names X -> schema_ok l X -> schema_ok l X'.
Proof. unfold schema_ok. intros ->. auto. Qed.

(** A loop that returns found the columns of every pair; it keeps the
    labels, fills the rows, and keeps the type of every column that is no
    target. *)
Lemma impute_all_inv l : forall Xc Y,
  Forall modes_ok l ->
  Forall (fun r => List.length r = List.length (columns Xc)) (rows Xc) ->
  impute_all l Xc = OK Y ->
  schema_ok l Xc
  /\ col_names Y = col_names Xc
  /\ rows Y = map (fill_all (col_names Xc) l) (rows Xc)
  /\ (forall name, ~ In name (map target l) ->
                   dtype_of Y name = dtype_of Xc name)
  /\ (forall name, dtype_of Xc name = object -> dtype_of Y name = object).
Proof.
  induction l as [|e l IH]; intros Xc Y Hok Hwf Hrun.
  - cbn in Hrun. inversion Hrun; subst. cbn [fill_all map].
    rewrite map_id. repeat split; auto. constructor.
  - inversion Hok as [|? ? Hok1 Hok']; subst. cbn [impute_all] in Hrun.
    destruct (impute_step Xc e) as [Xc'|err] eqn:E; cbn [bindr] in Hrun;
      [|discriminate].
    destruct (impute_step_frame _ _ _ Hok1 Hwf E) as (Hn & Hwf' & Hd & Ho).
    destruct (impute_step_inv _ _ _ Hok1 Hwf E)
      as (j1 & j2 & H1 & H2 & H3 & _ & _ & Hr).
    destruct (IH Xc' Y Hok' Hwf' Hrun) as (Hs & HnY & HrY & HdY & HoY).
    repeat split.
    + constructor.
      * split; [now apply (index_of_found _ _ j1)|].
        split; [now apply (index_of_found _ _ j2)|exact H3].
      * now apply (schema_ok_names l Xc' Xc).
    + congruence.
    + rewrite HrY, Hr, Hn, map_map. apply map_ext. intros r.
      cbn [fill_all]. now rewrite H1, H2.
    + intros name Hnot. cbn [map In] in Hnot.
      rewrite HdY by tauto. apply Hd. intros ->. tauto.
    + intros name Hobj. apply HoY, Ho, Hobj.
Qed.





(** ** [transform] on the store *)

Lemma nth_error_new (h : store) d : nth_error (h ++ [d]) (List.length h) = Some d.
Proof. rewrite nth_error_app2 by lia. now rewrite Nat.sub_diag. Qed.

Lemma set_nth_new (h : store) d d' :
  set_nth (List.length h) d' (h ++ [d]) = h ++ [d'].
Proof. induction h as [|x h IH]; simpl; congruence. Qed.

Lemma set_nth_beyond (h ext : store) r d :
  List.length h <= r ->
  set_nth r d (h ++ ext) = h ++ set_nth (r - List.length h) d ext.
Proof.
  revert r. induction h as [|x h IH]; intros r Hr; simpl in *.
  - now rewrite Nat.sub_0_r.
  - destruct r as [|r]; [lia|]. simpl. rewrite IH by lia. reflexivity.
Qed.

Lemma run_merge h x d right key :
  nth_error h x = Some d ->
  Frame.merge x right key h
  = match merge d right key with
    | OK d' => (OK (List.length h), h ++ [d'])
    | Raise e => (Raise e, h)
    end.
Proof.
  intros H. unfold Frame.merge, bind, deref, lift, new. rewrite H.
  now destruct (merge d right key).
Qed.

Lemma run_getitem h x d name :
  nth_error h x = Some d ->
  Frame.getitem x name h = (getitem_series d name, h).
Proof.
  intros H. unfold Frame.getitem, bind, deref, lift. now rewrite H.
Qed.

Lemma run_setitem h x d name v :
  nth_error h x = Some d ->
  Frame.setitem x name v h
  = match setitem d name v with
    | OK d' => (OK tt, set_nth x d' h)
    | Raise e => (Raise e, h)
    end.
Proof.
  intros H. unfold Frame.setitem, bind, deref, lift, assign. rewrite H.
  now destruct (setitem d name v).
Qed.

Lemma run_drop h x d label :
  nth_error h x = Some d ->
  Frame.drop x label h
  = match drop d label with
    | OK d' => (OK (List.length h), h ++ [d'])
    | Raise e => (Raise e, h)
    end.
Proof.
  intros H. unfold Frame.drop, bind, deref, lift, new. rewrite H.
  now destruct (drop d label).
Qed.

(** The loop on the store computes [impute_all], allocates beyond the
    objects it found and assigns only to objects of its own. *)
Lemma run_loop l : forall h xc Xc,
  nth_error h xc = Some Xc ->
  exists ext res,
    transform_loop l xc h = (res, h ++ ext)
    /\ match impute_all l Xc with
       | OK Y => exists r, res = OK r
                   /\ nth_error (h ++ ext) r = Some Y
                   /\ (r = xc \/ List.length h <= r)
       | Raise e => res = Raise e
       end.
Proof.
  induction l as [|[[var1 var2] modes] l IH]; intros h xc Xc Hxc.
  - exists [], (OK xc). cbn. rewrite app_nil_r. split; auto. exists xc. auto.
  - cbn [transform_loop impute_all impute_step].
    unfold bind at 1. rewrite (run_merge _ _ _ _ _ Hxc).
    destruct (merge Xc modes var2) as [X1|e]; cbn [bindr].
    2:{ exists [], (Raise e). rewrite app_nil_r. auto. }
    pose proof (nth_error_new h X1) as H1.
    unfold bind at 1. rewrite (run_getitem _ _ _ _ H1).
    destruct (getitem_series X1 var1) as [tg|e]; cbn [bindr].
    2:{ exists [X1], (Raise e). auto. }
    unfold bind at 1. rewrite (run_getitem _ _ _ _ H1).
    destruct (getitem_series X1 (mode_label var1)) as [fl|e]; cbn [bindr].
    2:{ exists [X1], (Raise e). auto. }
    unfold bind at 1. rewrite (run_setitem _ _ _ _ _ H1).
    destruct (setitem X1 var1 (fillna_series tg fl)) as [X1'|e]; cbn [bindr].
    2:{ exists [X1], (Raise e). auto. }
    rewrite set_nth_new.
    pose proof (nth_error_new h X1') as H1'.
    unfold bind at 1. rewrite (run_drop _ _ _ _ H1').
    destruct (drop X1' (mode_label var1)) as [X2|e]; cbn [bindr].
    2:{ exists [X1'], (Raise e). auto. }
    pose proof (nth_error_new (h ++ [X1']) X2) as H2.
    destruct (IH _ _ _ H2) as (ext & res & Hrun & Hres).
    exists ([X1'; X2] ++ ext), res.
    replace (h ++ [X1'; X2] ++ ext) with (((h ++ [X1']) ++ [X2]) ++ ext)
      by (now rewrite <- !app_assoc).
    split; [exact Hrun|].
    destruct (impute_all l X2) as [Y|e]; auto.
    destruct Hres as (r & Hr & Hnth & Hfresh). exists r.
    repeat split; auto. right.
    rewrite !length_app in *. cbn [List.length] in *.
    destruct Hfresh; lia.
Qed.

Lemma set_nth_nth_error {A : Type} (s : list A) n d :
  n < List.length s -> nth_error (set_nth n d s) n = Some d.
Proof.
  revert n. induction s as [|x s IH]; intros [|n] H; simpl in *;
    try lia; auto. apply IH. lia.
Qed.

(** [transform] on the store computes [transform_value] and leaves every
    object it found as it was. *)
Lemma run_transform self h x X :
  nth_error h x = Some X ->
  exists ext res,
    transform self x h = (res, h ++ ext)
    /\ match transform_value self X with
       | OK Y => exists r, res = OK r /\ nth_error (h ++ ext) r = Some Y
       | Raise e => res = Raise e
       end.
Proof.
  intros Hx. unfold transform, transform_value.
  unfold bind at 1. unfold Frame.copy, bind at 1, deref, new. rewrite Hx.
  unfold bind at 1.
  destruct (all_modes_ self) as [l|]; cbn [ret raise].
  2:{ exists [X], (Raise (AttributeError "all_modes_")). auto. }
  pose proof (nth_error_new h X) as Hc.
  destruct (run_loop l _ _ _ Hc) as (ext & res & Hrun & Hres).
  unfold bind at 1. rewrite Hrun. rewrite <- app_assoc in *.
  destruct (impute_all l X) as [Y|e']; cbn [bindr].
  2:{ subst res. exists ([X] ++ ext), (Raise e'). auto. }
  destruct Hres as (r & -> & Hnth & Hfresh).
  assert (Hx' : nth_error (h ++ [X] ++ ext) x = Some X).
  { rewrite nth_error_app1; auto. apply nth_error_Some. congruence. }
  unfold bind at 1. unfold Frame.get_index, bind at 1, deref. rewrite Hx'.
  cbn [ret]. unfold bind at 1. unfold Frame.set_index, bind at 1, deref.
  rewrite Hnth. unfold reindex.
  destruct (Nat.eqb (List.length (index X)) (List.length (rows Y))).
  - unfold assign, ret.
    assert (Hr : List.length h <= r).
    { rewrite length_app in Hfresh. cbn [List.length] in Hfresh.
      destruct Hfresh; lia. }
    rewrite set_nth_beyond by exact Hr.
    eexists. eexists. split; [reflexivity|]. exists r. split; auto.
    rewrite nth_error_app2 by exact Hr.
    apply set_nth_nth_error.
    rewrite nth_error_app2 in Hnth by exact Hr.
    apply nth_error_Some. congruence.
  - unfold raise. eexists. eexists. split; [reflexivity|]. reflexivity.
Qed.

(** ** What [_get_all_modes] builds *)

Lemma dropna_In g v : In v (dropna g) <-> In (Some v) g.
Proof.
  unfold dropna. rewrite in_flat_map. split.
  - intros ([w|] & Hin & Hv); simpl in Hv; [|tauto].
    destruct Hv as [->|[]]. exact Hin.
  - intros H. exists (Some v). split; simpl; auto.
Qed.

Lemma group_keys_In keys k : In k (group_keys keys) <-> In k keys.
Proof.
  unfold group_keys. rewrite in_app_iff, in_map_iff. split.
  - intros [(v & <- & Hv)|H].
    + apply sort_unique_In, dropna_In in Hv. exact Hv.
    + destruct (existsb isna keys) eqn:E; simpl in H; [|tauto].
      destruct H as [<-|[]]. apply existsb_exists in E.
      destruct E as ([v|] & Hin & Hna); simpl in Hna; congruence.
  - intros Hin. destruct k as [v|].
    + left. exists v. split; auto. now apply sort_unique_In, dropna_In.
    + right. replace (existsb isna keys) with true; [now left|].
      symmetry. apply existsb_exists. exists None. auto.
Qed.

Lemma NoDup_map_Some (l : list string) : NoDup l -> NoDup (map Some l).
Proof.
  induction 1 as [|x l Hx _ IH]; simpl; constructor; auto.
  intros H. apply in_map_iff in H. destruct H as (y & E & Hy).
  inversion E; subst. contradiction.
Qed.

Lemma group_keys_NoDup keys : NoDup (group_keys keys).
Proof.
  unfold group_keys. apply NoDup_app.
  - apply NoDup_map_Some, sort_unique_NoDup.
  - destruct (existsb isna keys); repeat constructor. simpl. tauto.
  - intros a Ha Hb. apply in_map_iff in Ha. destruct Ha as (v & <- & _).
    destruct (existsb isna keys); simpl in Hb; [|tauto].
    destruct Hb as [Hb|[]]. discriminate.
Qed.

Lemma grouped_modes_ok X var1 var2 modes :
  grouped_modes X var1 var2 = OK modes ->
  modes_ok (var1, var2, modes)
  /\ exists keys vals,
       getitem X var2 = OK keys /\ getitem X var1 = OK vals
       /\ var1 <> var2
       /\ rows modes
          = map (fun k => [k; agg_mode (group keys vals k)]) (group_keys keys).
Proof.
  unfold grouped_modes. intros H.
  destruct (getitem X var2) as [keys|] eqn:Ek; cbn [bindr] in H;
    [|discriminate].
  destruct (getitem X var1) as [vals|] eqn:Ev; cbn [bindr] in H;
    [|discriminate].
  destruct (String.eqb var1 var2) eqn:E; [discriminate|].
  apply String.eqb_neq in E. inversion H; subst; clear H.
  split.
  - unfold modes_ok, target, driver, mode_map; cbn [fst snd rows columns].
    unfold col_names; cbn [columns map fst]. repeat split.
    + rewrite Forall_forall. intros q Hq. apply in_map_iff in Hq.
      destruct Hq as (k & <- & _). reflexivity.
    + rewrite map_map. cbn [get_cell nth]. rewrite map_id.
      apply group_keys_NoDup.
  - exists keys, vals. auto.
Qed.

Lemma get_all_modes_ok X : forall related_vars l,
  _get_all_modes X related_vars = OK l ->
  Forall modes_ok l /\ map (fun e => (target e, driver e)) l = related_vars.
Proof.
  induction related_vars as [|[var1 var2] rv IH]; intros l H; simpl in H.
  - inversion H; subst. split; constructor.
  - destruct (grouped_modes X var1 var2) as [modes|] eqn:Eg; cbn [bindr] in H;
      [|discriminate].
    destruct (_get_all_modes X rv) as [l'|] eqn:El; cbn [bindr] in H;
      [|discriminate].
    inversion H; subst; clear H.
    destruct (IH l' eq_refl) as [Hall Hmap].
    apply grouped_modes_ok in Eg. destruct Eg as [Hok _].
    split; [constructor; auto|]. cbn [map]. now rewrite Hmap.
Qed.

Lemma fitted_modes_ok self l : fitted self l -> Forall modes_ok l.
Proof.
  intros (Xfit & rv & _ & Hl & _). now apply get_all_modes_ok in Hl.
Qed.

Lemma fitted_targets self l : fitted self l -> NoDup (map target l).
Proof.
  intros (Xfit & rv & Hnd & Hl & _). apply get_all_modes_ok in Hl.
  destruct Hl as [_ Hmap]. rewrite <- Hmap, map_map in Hnd. exact Hnd.
Qed.

Lemma fitted_all_modes self l : fitted self l -> all_modes_ self = Some l.
Proof. intros (Xfit & rv & _ & _ & _ & H). exact H. Qed.

(** The mode stored for a driver value is the mode of its group. *)
Lemma lookup_mode_group keys vals modes k :
  rows modes
  = map (fun k => [k; agg_mode (group keys vals k)]) (group_keys keys) ->
  lookup_mode modes k = agg_mode (group keys vals k).
Proof.
  intros Hrows. unfold lookup_mode. rewrite Hrows. clear Hrows.
  destruct (in_dec cell_dec k keys) as [Hin|Hnot].
  - apply group_keys_In in Hin. revert Hin.
    induction (group_keys keys) as [|k' ks IH]; intros Hin; [destruct Hin|].
    cbn [map find get_cell nth].
    destruct (cell_eqb k k') eqn:E.
    + apply cell_eqb_eq in E. now subst.
    + apply cell_eqb_neq in E. destruct Hin as [Hin|Hin]; [congruence|auto].
  - assert (Hg : group keys vals k = []).
    { unfold group. clear - Hnot. revert vals.
      induction keys as [|a keys IH]; intros [|b vals]; simpl; auto.
      destruct (cell_eqb a k) eqn:E.
      - apply cell_eqb_eq in E. subst. exfalso. apply Hnot. now left.
      - apply IH. intros H. apply Hnot. now right. }
    rewrite Hg. cbn.
    assert (Hk : ~ In k (group_keys keys)) by now rewrite group_keys_In.
    revert Hk. induction (group_keys keys) as [|k' ks IH]; intros Hk; auto.
    cbn [map find get_cell nth].
    destruct (cell_eqb k k') eqn:E.
    + apply cell_eqb_eq in E. subst. exfalso. apply Hk. now left.
    + apply IH. intros H. apply Hk. now right.
Qed.

(** ** Cells after the loop *)

Lemma fill_row_other j j1 j2 modes r :
  j <> j1 -> get_cell j (fill_row j1 j2 modes r) = get_cell j r.
Proof. intros H. unfold fill_row. apply get_set_nth_other. congruence. Qed.

Lemma fill_row_present j1 j2 modes r :
  get_cell j1 r <> None -> fill_row j1 j2 modes r = r.
Proof.
  intros H. unfold fill_row. destruct (get_cell j1 r) eqn:E; [|congruence].
  cbn [isna]. rewrite <- E. apply set_nth_same.
Qed.

Lemma fill_row_target j1 j2 modes r :
  j1 < List.length r ->
  get_cell j1 (fill_row j1 j2 modes r)
  = match get_cell j1 r with
    | Some v => Some v
    | None => lookup_mode modes (get_cell j2 r)
    end.
Proof.
  intros H. unfold fill_row. rewrite get_set_nth_same by exact H.
  now destruct (get_cell j1 r).
Qed.

Lemma fill_all_nil names l : fill_all names l [] = [].
Proof.
  induction l as [|e l IH]; cbn [fill_all]; auto.
  destruct (index_of (target e) names); auto.
  destruct (index_of (driver e) names); auto.
  unfold fill_row. now destruct n.
Qed.

(** A cell that holds a label keeps it. *)
Lemma fill_all_present names l : forall r j,
  get_cell j r <> None -> get_cell j (fill_all names l r) = get_cell j r.
Proof.
  induction l as [|e l IH]; intros r j H; cbn [fill_all]; auto.
  destruct (index_of (target e) names) as [j1|]; auto.
  destruct (index_of (driver e) names) as [j2|]; auto.
  destruct (Nat.eq_dec j j1) as [->|Hne].
  - rewrite fill_row_present by exact H. now apply IH.
  - rewrite IH; rewrite fill_row_other; auto.
Qed.

(** A column that is no target keeps its cells. *)
Lemma fill_all_other names l : forall r j,
  (forall e, In e l -> index_of (target e) names <> Some j) ->
  get_cell j (fill_all names l r) = get_cell j r.
Proof.
  induction l as [|e l IH]; intros r j H; cbn [fill_all]; auto.
  destruct (index_of (target e) names) as [j1|] eqn:E1; auto.
  destruct (index_of (driver e) names) as [j2|]; auto.
  rewrite IH by (intros; apply H; now right).
  apply fill_row_other. intros ->. apply (H e); [now left|exact E1].
Qed.

(** Rows without a missing target cell are left as they are. *)
Lemma fill_all_id names l : forall r,
  (forall e j, In e l -> index_of (target e) names = Some j ->
               get_cell j r <> None) ->
  fill_all names l r = r.
Proof.
  induction l as [|e l IH]; intros r H; cbn [fill_all]; auto.
  destruct (index_of (target e) names) as [j1|] eqn:E1; auto.
  destruct (index_of (driver e) names) as [j2|]; auto.
  rewrite fill_row_present by (apply (H e); [now left|exact E1]).
  apply IH. intros e' j Hin. apply H. now right.
Qed.

Lemma cell_at_filled Y names l rs i name :
  col_names Y = names ->
  rows Y = map (fill_all names l) rs ->
  cell_at Y i name
  = match index_of name names with
    | Some j => get_cell j (fill_all names l (nth i rs []))
    | None => None
    end.
Proof.
  intros Hn Hr. unfold cell_at. rewrite Hn, Hr.
  destruct (index_of name names); auto.
  rewrite <- (fill_all_nil names l) at 1. now rewrite map_nth.
Qed.

(** ** Missing cells and types along the loop *)

Lemma existsb_isna_false {A : Type} (f : A -> cell) l :
  existsb isna (map f l) = false <-> forall x, In x l -> f x <> None.
Proof.
  split.
  - intros H x Hx Hnone.
    assert (E : existsb isna (map f l) = true).
    { apply existsb_exists. exists (f x). split; [now apply in_map|].
      now rewrite Hnone. }
    congruence.
  - intros H. destruct (existsb isna (map f l)) eqn:E; auto.
    apply existsb_exists in E. destruct E as (c & Hc & Hna).
    apply in_map_iff in Hc. destruct Hc as (x & <- & Hx).
    exfalso. apply (H x Hx). now destruct (f x).
Qed.

Lemma has_missing_at X name j :
  index_of name (col_names X) = Some j ->
  has_missing X name = existsb isna (map (get_cell j) (rows X)).
Proof. intros H. unfold has_missing, getitem. now rewrite H. Qed.

Lemma has_missing_ext X X' name :
  col_names X' = col_names X -> rows X' = rows X ->
  has_missing X' name = has_missing X name.
Proof. intros Hn Hr. unfold has_missing, getitem. now rewrite Hn, Hr. Qed.

Lemma no_missing_has_missing X name :
  (forall col, getitem X name = OK col -> ~ In None col) ->
  has_missing X name = false.
Proof.
  intros H. unfold has_missing. destruct (getitem X name) as [col|]; auto.
  specialize (H col eq_refl).
  destruct (existsb isna col) eqn:E; auto.
  apply existsb_exists in E. destruct E as ([v|] & Hin & Hna);
    [discriminate|contradiction].
Qed.

(** A pass leaves the columns that are not its target as they are, and a
    target without a missing cell too. *)
Lemma impute_step_missing Xc e Xc' :
  modes_ok e ->
  Forall (fun r => List.length r = List.length (columns Xc)) (rows Xc) ->
  impute_step Xc e = OK Xc' ->
  (forall name, name <> target e ->
                has_missing Xc' name = has_missing Xc name)
  /\ (has_missing Xc (target e) = false ->
      columns Xc' = columns Xc /\ rows Xc' = rows Xc).
Proof.
  intros Hok Hwf Hstep.
  destruct (impute_step_frame _ _ _ Hok Hwf Hstep) as (Hn & _ & _ & _).
  destruct (impute_step_inv _ _ _ Hok Hwf Hstep)
    as (j1 & j2 & H1 & H2 & H3 & H4 & Hc & Hr).
  split.
  - intros name Hne. unfold has_missing, getitem. rewrite Hn, Hr.
    destruct (index_of name (col_names Xc)) as [j|] eqn:E; auto.
    rewrite map_map. f_equal. apply map_ext. intros r.
    apply fill_row_other. intros ->. apply Hne.
    exact (index_of_inj _ _ _ _ E H1).
  - intros Hfull. rewrite (has_missing_at _ _ _ H1) in Hfull.
    split.
    + rewrite Hc. unfold step_dtype.
      rewrite fillna_dtype_full by exact Hfull.
      unfold dtype_of. rewrite H1. now apply set_nth_column.
    + rewrite Hr. rewrite <- (map_id (rows Xc)) at 2.
      apply map_ext_in. intros r Hin. apply fill_row_present.
      now apply (proj1 (existsb_isna_false (get_cell j1) (rows Xc)) Hfull).
Qed.













Lemma keys_typed_columns l X X' :
  columns X' = columns X -> keys_typed l X -> keys_typed l X'.
Proof.
  intros Hc. unfold keys_typed. apply Forall_impl. intros e H.
  now rewrite (dtype_of_columns X X' _ Hc).
Qed.

(** With no missing cell in its targets, a loop that returns has changed
    neither a column nor a row, and it returns when the table has the
    columns of every pair, each driver typed like the key of its ModeMap. *)
Lemma impute_all_full l : forall Xc,
  Forall modes_ok l ->
  Forall (fun r => List.length r = List.length (columns Xc)) (rows Xc) ->
  (forall e, In e l -> has_missing Xc (target e) = false) ->
  (forall Y, impute_all l Xc = OK Y ->
             columns Y = columns Xc /\ rows Y = rows Xc /\ keys_typed l Xc)
  /\ (schema_ok l Xc -> keys_typed l Xc -> exists Y, impute_all l Xc = OK Y).
Proof.
  induction l as [|e l IH]; intros Xc Hok Hwf Hfull.
  - split.
    + intros Y H. inversion H; subst. repeat split. constructor.
    + intros _ _. exists Xc. reflexivity.
  - inversion Hok as [|? ? Hok1 Hok']; subst. cbn [impute_all].
    assert (Hnext : forall Xc', impute_step Xc e = OK Xc' ->
              columns Xc' = columns Xc /\ rows Xc' = rows Xc
              /\ Forall (fun r => List.length r = List.length (columns Xc'))
                   (rows Xc')
              /\ (forall e', In e' l -> has_missing Xc' (target e') = false)).
    { intros Xc' E.
      destruct (impute_step_missing _ _ _ Hok1 Hwf E) as (_ & Hsame).
      destruct (Hsame (Hfull e (or_introl eq_refl))) as (Hc & Hr).
      repeat split; auto.
      - now rewrite Hc, Hr.
      - intros e' He'. rewrite (has_missing_ext Xc Xc').
        + apply Hfull. now right.
        + unfold col_names. now rewrite Hc.
        + exact Hr. }
    split.
    + intros Y Hrun.
      destruct (impute_step Xc e) as [Xc'|err] eqn:E; cbn [bindr] in Hrun;
        [|discriminate].
      destruct (Hnext Xc' eq_refl) as (Hc & Hr & Hwf' & Hfull').
      destruct (impute_step_inv _ _ _ Hok1 Hwf E)
        as (j1 & j2 & _ & _ & _ & H4 & _ & _).
      destruct (IH Xc' Hok' Hwf' Hfull') as [Hinv _].
      destruct (Hinv Y Hrun) as (HcY & HrY & Hk).
      repeat split; try congruence.
      constructor; auto.
      apply (keys_typed_columns l Xc' Xc); auto.
    + intros Hs Hk.
      inversion Hs as [|? ? (H1 & H2 & H3) Hs']; subst.
      inversion Hk as [|? ? Hk1 Hk']; subst.
      destruct (impute_step_cases Xc e Hok1 Hwf)
        as [(j1 & j2 & _ & _ & _ & _ & E)
           |[(Hbad & _)|(_ & Hc & _)]]; [|tauto|congruence].
      rewrite E. cbn [bindr].
      destruct (Hnext _ E) as (Hc & Hr & Hwf' & Hfull').
      destruct (IH _ Hok' Hwf' Hfull') as [_ Htot]. apply Htot.
      * apply (schema_ok_names l Xc); auto. unfold col_names. now rewrite Hc.
      * now apply (keys_typed_columns l Xc).
Qed.

(** ** What [transform] returns, what it raises *)

Lemma returns_iff_value self h x X Y :
  nth_error h x = Some X ->
  (transform_returns self h x Y <-> transform_value self X = OK Y).
Proof.
  intros Hx. destruct (run_transform self h x X Hx) as (ext & res & Hrun & Hres).
  unfold transform_returns. rewrite Hrun. split.
  - intros (r & h' & E & Hnth). inversion E; subst.
    destruct (transform_value self X) as [Y'|e].
    + destruct Hres as (r' & Hr' & Hnth'). inversion Hr'; subst. congruence.
    + discriminate.
  - intros Hv. rewrite Hv in Hres. destruct Hres as (r & -> & Hnth). eauto.
Qed.

Lemma raises_iff_value self h x X e :
  nth_error h x = Some X ->
  (transform_raises self h x e <-> transform_value self X = Raise e).
Proof.
  intros Hx. destruct (run_transform self h x X Hx) as (ext & res & Hrun & Hres).
  unfold transform_raises. rewrite Hrun. split.
  - intros (h' & E). inversion E; subst.
    destruct (transform_value self X) as [Y'|e'].
    + destruct Hres as (r' & Hr' & _). discriminate.
    + congruence.
  - intros Hv. rewrite Hv in Hres. subst. eauto.
Qed.

Lemma run_transform_dangling self h x :
  nth_error h x = None ->
  transform self x h = (Raise (ValueError "no such object"), h).
Proof.
  intros Hx. unfold transform, bind at 1, Frame.copy, bind at 1, deref.
  now rewrite Hx.
Qed.

Lemma schema_ok_dec l X : {schema_ok l X} + {~ schema_ok l X}.
Proof.
  apply Forall_dec. intros e.
  destruct (in_dec string_dec (target e) (col_names X));
    destruct (in_dec string_dec (driver e) (col_names X));
    destruct (in_dec string_dec (mode_label (target e)) (col_names X));
    try (right; tauto). left. tauto.
Defined.

(** A returned table is what the loop returns, under the index of the
    input. *)
Lemma transform_value_inv self l X Y :
  all_modes_ self = Some l ->
  transform_value self X = OK Y ->
  exists Yc, impute_all l X = OK Yc
             /\ Y = mkDF (index X) (columns Yc) (rows Yc).
Proof.
  intros Hl Hv. unfold transform_value in Hv. rewrite Hl in Hv.
  destruct (impute_all l X) as [Yc|]; cbn [bindr] in Hv; [|discriminate].
  exists Yc. split; auto. unfold reindex in Hv.
  destruct (Nat.eqb _ _); [|discriminate]. now inversion Hv.
Qed.

Lemma transform_value_of self l X Yc :
  all_modes_ self = Some l ->
  impute_all l X = OK Yc ->
  List.length (index X) = List.length (rows Yc) ->
  transform_value self X = OK (mkDF (index X) (columns Yc) (rows Yc)).
Proof.
  intros Hl Hrun Hlen. unfold transform_value. rewrite Hl, Hrun.
  cbn [bindr]. unfold reindex. now rewrite Hlen, Nat.eqb_refl.
Qed.


Lemma get_all_modes_In X : forall related_vars l e,
  _get_all_modes X related_vars = OK l -> In e l ->
  grouped_modes X (target e) (driver e) = OK (mode_map e).
Proof.
  induction related_vars as [|[var1 var2] rv IH]; intros l e H Hin; simpl in H.
  - inversion H; subst. destruct Hin.
  - destruct (grouped_modes X var1 var2) as [modes|] eqn:Eg; cbn [bindr] in H;
      [|discriminate].
    destruct (_get_all_modes X rv) as [l'|] eqn:El; cbn [bindr] in H;
      [|discriminate].
    inversion H; subst; clear H. destruct Hin as [<-|Hin]; [exact Eg|].
    now apply (IH l').
Qed.

(** The table a fitted imputer returns: the input with its rows filled,
    under the same labels and the same index. *)
Lemma returned_table self l h x X Y :
  fitted self l -> nth_error h x = Some X -> well_formed X ->
  transform_returns self h x Y ->
  schema_ok l X
  /\ col_names Y = col_names X
  /\ index Y = index X
  /\ rows Y = map (fill_all (col_names X) l) (rows X).
Proof.
  intros Hf Hx (Hwf & _) HY. apply (returns_iff_value self h x X Y Hx) in HY.
  destruct (transform_value_inv self l X Y (fitted_all_modes _ _ Hf) HY)
    as (Yc & Hrun & ->).
  destruct (impute_all_inv l X Yc (fitted_modes_ok _ _ Hf) Hwf Hrun)
    as (Hs & Hn & Hr & _).
  cbn [index rows]. repeat split; auto.
Qed.


(** ** The running example is a fitted state *)

Ltac solve_NoDup :=
  repeat (constructor; [simpl; intuition discriminate|]); constructor.

Ltac solve_well_formed :=
  repeat split; [repeat constructor | solve_NoDup].

Lemma demo_fitted : fitted Demo.imputer Demo.modes.
Proof.
  exists Demo.Xfit, Demo.related. repeat split.
  solve_NoDup.
Defined.

Lemma demo_Xin_well_formed : well_formed Demo.Xin.
Proof. solve_well_formed. Defined.

Lemma demo_Xfull_well_formed : well_formed Demo.Xfull.
Proof. solve_well_formed. Defined.


Lemma demo_schema_Xin : schema_ok Demo.modes Demo.Xin.
Proof.
  repeat constructor; simpl; try tauto;
    intros H; repeat (destruct H as [H|H]; [discriminate|]); exact H.
Defined.

Lemma demo_schema_Xfull : schema_ok Demo.modes Demo.Xfull.
Proof. exact demo_schema_Xin. Defined.



Lemma demo_keys_typed_Xfull : keys_typed Demo.modes Demo.Xfull.
Proof. repeat constructor. Defined.

(* ================================================================== *)
(** * The claims about [transform] *)







(** A numeric driver column is not matched with the object-typed key of its
    ModeMap: [merge] refuses the keys and [transform] raises. *)
Example demo_numeric_driver_raises :
  dtype_of DemoFloat.Xdriver "B" = float64
  /\ transform_raises Demo.imputer [DemoFloat.Xdriver] 0
       (ValueError "You are trying to merge on object and numeric columns").
Proof. split; [reflexivity|]. eexists. vm_compute. reflexivity. Qed.

(** C8.  [transform] changes no object it finds in the store, its input
    table included: what it allocates comes after them, and it assigns
    only to what it allocated.  This holds for every state and every
    reference, whether the call returns or raises. *)
Theorem transform_does_not_mutate self h x :
  exists ext,
    snd (transform self x h) = h ++ ext
    /\ nth_error (snd (transform self x h)) x = nth_error h x.
Proof.
  destruct (nth_error h x) as [X|] eqn:Hx.
  - destruct (run_transform self h x X Hx) as (ext & res & Hrun & _).
    exists ext. rewrite Hrun. cbn [snd]. split; auto.
    rewrite nth_error_app1; auto. apply nth_error_Some. congruence.
  - exists []. rewrite (run_transform_dangling self h x Hx). cbn [snd].
    now rewrite app_nil_r.
Qed.

(** C9, as the code has it.  Take a table in which no target column of the
    fitted state has a missing cell.  When it has the target and driver
    columns of the fitted state, no column called [Mode_<target>], and
    every driver column typed like the key of its ModeMap, [transform]
    returns a table equal to it.  Whatever [transform] returns is equal to
    the input; and when the table lacks one of these columns or has a
    column called [Mode_<target>], [transform] raises. *)
Theorem transform_without_missing_is_identity self l h x X :
  fitted self l ->
  nth_error h x = Some X -> well_formed X ->
  (forall e col, In e l -> getitem X (target e) = OK col -> ~ In None col) ->
  (schema_ok l X -> keys_typed l X -> transform_returns self h x X)
  /\ (forall Y, transform_returns self h x Y -> Y = X)
  /\ (~ schema_ok l X -> exists err, transform_raises self h x err).
Proof.
  intros Hf Hx (Hrows & Hidx & _) Hfull.
  pose proof (fitted_modes_ok _ _ Hf) as Hok.
  pose proof (fitted_all_modes _ _ Hf) as Hl.
  assert (Hfull' : forall e, In e l -> has_missing X (target e) = false).
  { intros e He. apply no_missing_has_missing. intros col. now apply Hfull. }
  destruct (impute_all_full l X Hok Hrows Hfull') as [Hinv Htot].
  assert (Hret : forall Y, transform_value self X = OK Y ->
                 Y = X /\ schema_ok l X /\ keys_typed l X).
  { intros Y HY.
    destruct (transform_value_inv self l X Y Hl HY) as (Yc & Hrun & ->).
    destruct (Hinv Yc Hrun) as (Hc & Hr & Hk).
    destruct (impute_all_inv l X Yc Hok Hrows Hrun) as (Hs & _).
    rewrite Hc, Hr. split; [now destruct X|auto]. }
  repeat split.
  - intros Hs Hk. destruct (Htot Hs Hk) as [Yc Hrun].
    destruct (Hinv Yc Hrun) as (Hc & Hr & _).
    apply (returns_iff_value self h x X X Hx).
    rewrite (transform_value_of self l X Yc Hl Hrun) by congruence.
    rewrite Hc, Hr. now destruct X.
  - intros Y HY. apply (returns_iff_value self h x X Y Hx) in HY.
    now apply Hret.
  - intros Hbad. destruct (transform_value self X) as [Y|err] eqn:E.
    + exfalso. apply Hbad. now apply (Hret Y).
    + exists err. now apply (raises_iff_value self h x X err Hx).
Qed.

Lemma transform_without_missing_is_identity_witness :
  transform_returns Demo.imputer [Demo.Xfull] 0 Demo.Xfull
  /\ (forall Y, transform_returns Demo.imputer [Demo.Xfull] 0 Y ->
                Y = Demo.Xfull).
Proof.
  destruct (transform_without_missing_is_identity Demo.imputer Demo.modes
              [Demo.Xfull] 0 Demo.Xfull) as (Hret & Hinv & _).
  - exact demo_fitted.
  - reflexivity.
  - exact demo_Xfull_well_formed.
  - intros e col He Hget Hin. simpl in He.
    destruct He as [<-|[<-|[<-|[]]]]; vm_compute in Hget;
      inversion Hget; subst; simpl in Hin; intuition discriminate.
  - split; [|exact Hinv].
    exact (Hret demo_schema_Xfull demo_keys_typed_Xfull).
Defined.

(** C9, as the spec states it, fails.  [DemoModeColumn.Xin] has the columns
    A, B and C of the fitted state with nothing missing, and a column
    called [Mode_A].  The merge of the first pair renames that column and
    the helper column of the ModeMap, [Xc["Mode_A"]] finds no column, and
    [transform] raises a [KeyError] where the spec has it return the
    input. *)
Lemma transform_mode_column_counterexample :
  _get_all_modes Demo.Xfit Demo.related = OK Demo.modes
  /\ well_formed DemoModeColumn.Xin
  /\ map target Demo.modes = ["A"; "B"; "C"]
  /\ has_missing DemoModeColumn.Xin "A" = false
  /\ has_missing DemoModeColumn.Xin "B" = false
  /\ has_missing DemoModeColumn.Xin "C" = false
  /\ transform_raises Demo.imputer [DemoModeColumn.Xin] 0 (KeyError "Mode_A")
  /\ ~ transform_returns Demo.imputer [DemoModeColumn.Xin] 0
         DemoModeColumn.Xin.
Proof.
  split; [reflexivity|].
  split; [solve_well_formed|].
  repeat (split; [reflexivity|]).
  split; [eexists; vm_compute; reflexivity|].
  intros (r & h' & H & _). vm_compute in H. discriminate.
Qed.

(** ** One target cell of the returned table *)

Lemma fill_all_app names pre : forall post r,
  Forall (fun e => In (target e) names /\ In (driver e) names) pre ->
  fill_all names (pre ++ post) r = fill_all names post (fill_all names pre r).
Proof.
  induction pre as [|e pre IH]; intros post r H; cbn [fill_all app]; auto.
  inversion H as [|? ? [H1 H2] H']; subst.
  destruct (index_of_In _ _ H1) as [j1 ->].
  destruct (index_of_In _ _ H2) as [j2 ->].
  now apply IH.
Qed.

Lemma schema_ok_found l X :
  schema_ok l X ->
  Forall (fun e => In (target e) (col_names X) /\ In (driver e) (col_names X)) l.
Proof.
  unfold schema_ok. apply Forall_impl. tauto.
Qed.

Lemma nth_row_length X i :
  well_formed X -> i < List.length (rows X) ->
  List.length (nth i (rows X) []) = List.length (columns X).
Proof.
  intros (Hrows & _) Hi. rewrite Forall_forall in Hrows.
  apply Hrows. now apply nth_In.
Qed.

(** The cell a pair leaves in its target column, from the cells its own
    pass found. *)
Lemma filled_cell X Y pre e post i :
  well_formed X ->
  schema_ok (pre ++ e :: post) X ->
  NoDup (map target (pre ++ e :: post)) ->
  i < List.length (rows X) ->
  col_names Y = col_names X ->
  rows Y = map (fill_all (col_names X) (pre ++ e :: post)) (rows X) ->
  cell_at Y i (target e)
  = match cell_at X i (target e) with
    | Some v => Some v
    | None => lookup_mode (mode_map e) (driver_cell_read X Y pre e i)
    end.
Proof.
  intros Hwf Hs Hnd Hi HnY HrY.
  pose proof (nth_row_length X i Hwf Hi) as Hlen.
  pose proof (schema_ok_found _ _ Hs) as Hfound.
  apply Forall_app in Hfound. destruct Hfound as [Hpre Hpost].
  inversion Hpost as [|? ? [H1 H2] Hpost']; subst.
  destruct (index_of_In _ _ H1) as [j1 Hj1].
  destruct (index_of_In _ _ H2) as [j2 Hj2].
  rewrite map_app in Hnd. cbn [map] in Hnd.
  pose proof (NoDup_remove_2 _ _ _ Hnd) as Hnot.
  assert (Hpre1 : forall e', In e' pre ->
                  index_of (target e') (col_names X) <> Some j1).
  { intros e' He' Hj. apply Hnot, in_or_app. left.
    rewrite (index_of_inj _ _ _ _ Hj1 Hj). now apply in_map. }
  assert (Hpost1 : forall e', In e' post ->
                   index_of (target e') (col_names X) <> Some j1).
  { intros e' He' Hj. apply Hnot, in_or_app. right.
    rewrite (index_of_inj _ _ _ _ Hj1 Hj). now apply in_map. }
  set (r := nth i (rows X) []) in *.
  set (rp := fill_all (col_names X) pre r).
  assert (Hfinal : fill_all (col_names X) (pre ++ e :: post) r
                   = fill_all (col_names X) post
                       (fill_row j1 j2 (mode_map e) rp)).
  { rewrite fill_all_app by exact Hpre. cbn [fill_all].
    now rewrite Hj1, Hj2. }
  assert (Hlt : j1 < List.length rp).
  { subst rp. rewrite fill_all_length, Hlen.
    apply index_of_Some in Hj1. unfold col_names in Hj1.
    rewrite length_map in Hj1. tauto. }
  rewrite (cell_at_filled Y _ _ _ i _ HnY HrY). fold r. rewrite Hj1, Hfinal.
  rewrite fill_all_other by exact Hpost1.
  rewrite fill_row_target by exact Hlt.
  assert (Ht : get_cell j1 rp = cell_at X i (target e)).
  { subst rp. rewrite fill_all_other by exact Hpre1.
    unfold cell_at. now rewrite Hj1. }
  rewrite Ht. destruct (cell_at X i (target e)); auto. f_equal.
  unfold driver_cell_read.
  destruct (mem (driver e) (map target pre)) eqn:Em.
  - apply mem_In in Em.
    rewrite (cell_at_filled Y _ _ _ i _ HnY HrY). fold r.
    rewrite Hj2, Hfinal.
    assert (Hne : j2 <> j1).
    { intros ->. apply Hnot, in_or_app. left.
      now rewrite (index_of_inj _ _ _ _ Hj1 Hj2). }
    rewrite fill_all_other.
    + now rewrite fill_row_other.
    + intros e' He' Hj.
      assert (Hd : driver e = target e')
        by exact (index_of_inj _ _ _ _ Hj2 Hj).
      apply NoDup_app_remove_l in Hnd as Hnd'.
      clear - Hnd Em Hd He'. rewrite Hd in Em.
      induction pre as [|p pre IH]; [destruct Em|].
      cbn [map app] in Hnd. inversion Hnd as [|? ? Hx Hnd']; subst.
      destruct Em as [Ep|Em]; [|now apply IH].
      apply Hx. rewrite Ep. apply in_or_app. right. right. now apply in_map.
  - apply mem_false in Em. subst rp.
    rewrite fill_all_other.
    + unfold cell_at. now rewrite Hj2.
    + intros e' He' Hj. apply Em.
      rewrite (index_of_inj _ _ _ _ Hj2 Hj). now apply in_map.
Qed.

Lemma driver_cell_read_input X l Y pre e i :
  col_names Y = col_names X ->
  rows Y = map (fill_all (col_names X) l) (rows X) ->
  cell_at X i (driver e) <> None \/ ~ In (driver e) (map target pre) ->
  driver_cell_read X Y pre e i = cell_at X i (driver e).
Proof.
  intros Hn Hr H. unfold driver_cell_read.
  destruct (mem (driver e) (map target pre)) eqn:Em; auto.
  destruct H as [H|H]; [|apply mem_In in Em; contradiction].
  rewrite (cell_at_filled Y _ _ _ i _ Hn Hr).
  unfold cell_at in *. destruct (index_of (driver e) (col_names X)); auto.
  now apply fill_all_present.
Qed.

(** The cell a pair of a fitted imputer leaves in its target column. *)
Lemma returned_cell self l h x X Y pre e post i :
  fitted self l ->
  nth_error h x = Some X -> well_formed X ->
  transform_returns self h x Y ->
  l = pre ++ e :: post ->
  i < List.length (rows X) ->
  cell_at Y i (target e)
  = match cell_at X i (target e) with
    | Some v => Some v
    | None => lookup_mode (mode_map e) (driver_cell_read X Y pre e i)
    end.
Proof.
  intros Hf Hx Hwf HY -> Hi.
  destruct (returned_table self _ h x X Y Hf Hx Hwf HY)
    as (Hs & Hn & _ & Hr).
  exact (filled_cell X Y pre e post i Hwf Hs (fitted_targets _ _ Hf) Hi Hn Hr).
Qed.

(* ================================================================== *)
(** * Imputation is sequential, on one working copy *)

(** C1, as the code has it.  [transform] fills the targets one pair after
    the other in one working copy.  The driver cell a pair looks up in a
    row is the cell of that working copy: it is the input table's cell
    whenever that cell holds a label or the driver column is not the target
    of an earlier pair; where the input's driver cell is missing and an
    earlier pair filled that column, the pair reads what was filled. *)
Theorem transform_reads_working_copy self l h x X Y pre e post i :
  fitted self l ->
  nth_error h x = Some X -> well_formed X ->
  transform_returns self h x Y ->
  l = pre ++ e :: post ->
  i < List.length (rows X) ->
  cell_at Y i (target e)
  = match cell_at X i (target e) with
    | Some v => Some v
    | None => lookup_mode (mode_map e) (driver_cell_read X Y pre e i)
    end
  /\ (cell_at X i (driver e) <> None \/ ~ In (driver e) (map target pre) ->
      driver_cell_read X Y pre e i = cell_at X i (driver e)).
Proof.
  intros Hf Hx Hwf HY Hl Hi.
  split.
  - exact (returned_cell self l h x X Y pre e post i Hf Hx Hwf HY Hl Hi).
  - destruct (returned_table self l h x X Y Hf Hx Hwf HY)
      as (_ & Hn & _ & Hr).
    now apply (driver_cell_read_input X l).
Qed.

Lemma demo_returns : transform_returns Demo.imputer [Demo.Xin] 0 Demo.Xout.
Proof. eexists. eexists. split; vm_compute; reflexivity. Defined.

Lemma transform_reads_working_copy_witness :
  cell_at Demo.Xout 0 "C"
  = match cell_at Demo.Xin 0 "C" with
    | Some v => Some v
    | None =>
        lookup_mode (mode_map (nth 2 Demo.modes ("", "", Demo.Xin)))
          (driver_cell_read Demo.Xin Demo.Xout (firstn 2 Demo.modes)
             (nth 2 Demo.modes ("", "", Demo.Xin)) 0)
    end
  /\ (cell_at Demo.Xin 0 "A" <> None
      \/ ~ In "A" (map target (firstn 2 Demo.modes)) ->
      driver_cell_read Demo.Xin Demo.Xout (firstn 2 Demo.modes)
        (nth 2 Demo.modes ("", "", Demo.Xin)) 0
      = cell_at Demo.Xin 0 "A").
Proof.
  apply (transform_reads_working_copy Demo.imputer Demo.modes [Demo.Xin] 0
           Demo.Xin Demo.Xout (firstn 2 Demo.modes)
           (nth 2 Demo.modes ("", "", Demo.Xin)) [] 0).
  - exact demo_fitted.
  - reflexivity.
  - exact demo_Xin_well_formed.
  - exact demo_returns.
  - reflexivity.
  - simpl. lia.
Defined.

(** C1, as the spec states it, fails: in the first row of [Demo.Xin] both A
    and C are missing.  The pair (A, B) fills A with ["a1"]; the pair
    (C, A), applied next, looks that fresh ["a1"] up and fills C with
    ["c1"].  Looked up with the input's driver cell, which is missing, the
    ModeMap of (C, A) has no entry and C would stay missing. *)
Lemma transform_single_pass_counterexample :
  _get_all_modes Demo.Xfit Demo.related = OK Demo.modes
  /\ transform_returns Demo.imputer [Demo.Xin] 0 Demo.Xout
  /\ nth 2 Demo.modes ("", "", Demo.Xin)
     = ("C", "A", mode_map (nth 2 Demo.modes ("", "", Demo.Xin)))
  /\ cell_at Demo.Xin 0 "A" = None
  /\ cell_at Demo.Xin 0 "C" = None
  /\ cell_at Demo.Xout 0 "A" = Some "a1"
  /\ cell_at Demo.Xout 0 "C" = Some "c1"
  /\ single_pass_cell Demo.Xin (nth 2 Demo.modes ("", "", Demo.Xin)) 0 = None
  /\ cell_at Demo.Xout 0 "C"
     <> single_pass_cell Demo.Xin (nth 2 Demo.modes ("", "", Demo.Xin)) 0.
Proof.
  split; [reflexivity|]. split; [exact demo_returns|].
  repeat split; try reflexivity. vm_compute. discriminate.
Qed.

(* ================================================================== *)
(** * Modes of groups *)

Lemma list_max_In l : l <> [] -> In (list_max l) l.
Proof.
  induction l as [|a l IH]; [congruence|]. intros _.
  destruct l as [|b l].
  - left. simpl. lia.
  - change (list_max (a :: b :: l)) with (Nat.max a (list_max (b :: l))).
    destruct (Nat.max_spec a (list_max (b :: l))) as [[_ ->]|[_ ->]].
    + right. apply IH. discriminate.
    + now left.
Qed.

Lemma value_count_le_top vals w :
  value_count vals w <= list_max (map (value_count vals) vals).
Proof.
  destruct (in_dec string_dec w vals) as [Hin|Hnot].
  - assert (H := proj1 (list_max_le (map (value_count vals) vals)
                          (list_max (map (value_count vals) vals)))
                   (Nat.le_refl _)).
    rewrite Forall_forall in H. apply H. now apply in_map.
  - unfold value_count. rewrite (proj1 (count_occ_not_In _ _ _) Hnot). lia.
Qed.

Lemma mode_In g v :
  In v (mode g) <->
  In v (dropna g)
  /\ value_count (dropna g) v
     = list_max (map (value_count (dropna g)) (dropna g)).
Proof.
  unfold mode. rewrite sort_unique_In, filter_In, Nat.eqb_eq. tauto.
Qed.

Lemma mode_most_frequent g v : In v (mode g) <-> most_frequent g v.
Proof.
  rewrite mode_In. unfold most_frequent. split.
  - intros [Hin Htop]. split; auto. intros w. rewrite Htop.
    apply value_count_le_top.
  - intros [Hin Hmax]. split; auto. apply Nat.le_antisymm.
    + apply value_count_le_top.
    + assert (Hne : map (value_count (dropna g)) (dropna g) <> []).
      { destruct (dropna g); [destruct Hin|discriminate]. }
      apply list_max_In, in_map_iff in Hne.
      destruct Hne as (w & <- & _). apply Hmax.
Qed.

Lemma mode_nonempty g : dropna g <> [] -> mode g <> [].
Proof.
  intros Hne.
  assert (Hm : map (value_count (dropna g)) (dropna g) <> []).
  { destruct (dropna g); [congruence|discriminate]. }
  apply list_max_In, in_map_iff in Hm. destruct Hm as (w & Hw & Hin).
  intros E. assert (H : In w (mode g)) by (apply mode_In; auto).
  rewrite E in H. destruct H.
Qed.

(** What the aggregation stores for a group: a most frequent label, the
    least of them in the order of labels; nothing for a group without
    labels. *)
Lemma agg_mode_spec g :
  match agg_mode g with
  | Some v => most_frequent g v
              /\ forall w, most_frequent g w -> w = v \/ slt v w
  | None => dropna g = []
  end.
Proof.
  unfold agg_mode. pose proof (sort_unique_sorted
    (filter (fun v => Nat.eqb (value_count (dropna g) v)
                        (list_max (map (value_count (dropna g)) (dropna g))))
            (dropna g))) as Hs.
  fold (mode g) in Hs.
  pose proof (mode_most_frequent g) as Hm.
  pose proof (mode_nonempty g) as Hne.
  destruct (mode g) as [|v m].
  - destruct (dropna g); auto. exfalso. apply Hne; [discriminate|reflexivity].
  - split.
    + apply Hm. now left.
    + intros w Hw. apply Hm in Hw. now apply (sorted_head_least v m w).
Qed.

(** C2, as the code has it.  For every pair learned by [fit] and every
    driver value, the ModeMap stores the mode of the driver value's group:
    a label of highest frequency among the non-missing target cells of the
    group and, when several labels tie, the least of them in the order of
    labels ([Series.mode] sorts what it returns, [iloc[0]] takes the
    first); a group without labels stores the missing marker. *)
Theorem mode_tie_takes_least_label Xfit self l e :
  fitted_from Xfit self l ->
  In e l ->
  exists keys vals,
    getitem Xfit (driver e) = OK keys
    /\ getitem Xfit (target e) = OK vals
    /\ forall k,
         lookup_mode (mode_map e) k = agg_mode (group keys vals k)
         /\ match lookup_mode (mode_map e) k with
            | Some v =>
                most_frequent (group keys vals k) v
                /\ forall w, most_frequent (group keys vals k) w ->
                             w = v \/ slt v w
            | None => dropna (group keys vals k) = []
            end.
Proof.
  intros (rv & _ & Hl & _) Hin.
  pose proof (get_all_modes_In Xfit rv l e Hl Hin) as Hg.
  apply grouped_modes_ok in Hg.
  destruct Hg as (_ & keys & vals & Hk & Hv & _ & Hrows).
  exists keys, vals. repeat split; auto.
  - now apply lookup_mode_group.
  - rewrite (lookup_mode_group keys vals (mode_map e) k Hrows).
    apply agg_mode_spec.
Qed.

Lemma demo_tie_fitted :
  fitted_from DemoTie.Xfit
    (mkImputer None (Some [("A", "B")])
       (Some [("A", "B",
               mkDF [0%Z] [("B", object); ("Mode_A", object)]
                 [[Some "x"; Some "a"]])]))
    [("A", "B",
      mkDF [0%Z] [("B", object); ("Mode_A", object)] [[Some "x"; Some "a"]])].
Proof. exists [("A", "B")]. repeat split. solve_NoDup. Defined.

Lemma mode_tie_takes_least_label_witness :
  exists keys vals,
    getitem DemoTie.Xfit "B" = OK keys
    /\ getitem DemoTie.Xfit "A" = OK vals
    /\ forall k,
         lookup_mode (mkDF [0%Z] [("B", object); ("Mode_A", object)]
                        [[Some "x"; Some "a"]]) k
         = agg_mode (group keys vals k)
         /\ match lookup_mode (mkDF [0%Z] [("B", object); ("Mode_A", object)]
                                 [[Some "x"; Some "a"]]) k with
            | Some v =>
                most_frequent (group keys vals k) v
                /\ forall w, most_frequent (group keys vals k) w ->
                             w = v \/ slt v w
            | None => dropna (group keys vals k) = []
            end.
Proof.
  apply (mode_tie_takes_least_label DemoTie.Xfit _ _
           ("A", "B", mkDF [0%Z] [("B", object); ("Mode_A", object)]
                        [[Some "x"; Some "a"]])
           demo_tie_fitted).
  now left.
Defined.

(** C2, as the spec states it, fails: in [DemoTie.Xfit] the driver value
    ["x"] has the target labels ["b"] and ["a"], once each and in that
    order.  The first label met is ["b"]; the ModeMap stores ["a"]. *)
Lemma mode_first_encountered_counterexample :
  _get_all_modes DemoTie.Xfit [("A", "B")]
  = OK [("A", "B",
         mkDF [0%Z] [("B", object); ("Mode_A", object)]
           [[Some "x"; Some "a"]])]
  /\ group [Some "x"; Some "x"] [Some "b"; Some "a"] (Some "x")
     = [Some "b"; Some "a"]
  /\ value_count ["b"; "a"] "b" = value_count ["b"; "a"] "a"
  /\ first_encountered_mode [Some "b"; Some "a"] = Some "b"
  /\ lookup_mode (mkDF [0%Z] [("B", object); ("Mode_A", object)]
                    [[Some "x"; Some "a"]]) (Some "x")
     = Some "a".
Proof. repeat split. Qed.

(* ================================================================== *)
(** * The missing marker as a driver value *)

(** C10, as the code has it.  [groupby(var2, dropna=False)] keeps the rows
    whose driver is missing as a group of their own: when the fitting table
    has such rows, the ModeMap has a row for the missing key, holding the
    mode of the target among them.  At [transform] time a row whose target
    is missing and whose driver cell is missing when its pair is applied
    gets that mode ([merge] matches missing keys with missing keys): the
    least of the most frequent target labels of these fitting rows, or the
    missing marker when they have no label.  The driver cell is missing
    when the pair is applied if it is missing in the input and no earlier
    pair of the call has the driver column for target. *)
Theorem missing_driver_is_a_group Xfit self l h x X Y pre e post i :
  fitted_from Xfit self l ->
  nth_error h x = Some X -> well_formed X ->
  transform_returns self h x Y ->
  l = pre ++ e :: post ->
  i < List.length (rows X) ->
  exists keys vals,
    getitem Xfit (driver e) = OK keys
    /\ getitem Xfit (target e) = OK vals
    /\ (In None keys ->
        exists c, In [None; c] (rows (mode_map e))
                  /\ is_group_mode (group keys vals None) c)
    /\ (cell_at X i (target e) = None ->
        driver_cell_read X Y pre e i = None ->
        is_group_mode (group keys vals None) (cell_at Y i (target e)))
    /\ (cell_at X i (target e) = None ->
        cell_at X i (driver e) = None ->
        ~ In (driver e) (map target pre) ->
        is_group_mode (group keys vals None) (cell_at Y i (target e))).
Proof.
  intros Hff Hx Hwf HY Hl Hi.
  assert (Hf : fitted self l) by (exists Xfit; exact Hff).
  pose proof (returned_cell self l h x X Y pre e post i Hf Hx Hwf HY Hl Hi)
    as Hcell.
  destruct (returned_table self l h x X Y Hf Hx Hwf HY) as (_ & Hn & _ & Hr).
  destruct Hff as (rv & _ & Hmodes & _).
  assert (Hin : In e l) by (subst l; apply in_or_app; right; now left).
  pose proof (get_all_modes_In Xfit rv _ e Hmodes Hin) as Hg.
  apply grouped_modes_ok in Hg.
  destruct Hg as (_ & keys & vals & Hk & Hv & _ & Hrows).
  pose proof (lookup_mode_group keys vals (mode_map e) None Hrows) as Hlook.
  pose proof (agg_mode_spec (group keys vals None)) as Hspec.
  fold (is_group_mode (group keys vals None) (agg_mode (group keys vals None)))
    in Hspec.
  assert (Hfill : cell_at X i (target e) = None ->
                  driver_cell_read X Y pre e i = None ->
                  is_group_mode (group keys vals None)
                    (cell_at Y i (target e))).
  { intros Ht Hd. rewrite Hcell, Ht, Hd, Hlook. exact Hspec. }
  exists keys, vals. repeat split; auto.
  - intros Hnone. exists (agg_mode (group keys vals None)). split; auto.
    rewrite Hrows. apply in_map_iff. exists None.
    split; auto. now apply group_keys_In.
  - intros Ht Hd Hpre. apply Hfill; auto.
    rewrite (driver_cell_read_input X l Y pre e i Hn Hr (or_intror Hpre)).
    exact Hd.
Qed.

Lemma demo_nan_fitted :
  fitted_from DemoNaN.Xfit DemoNaN.imputer DemoNaN.modes.
Proof. exists DemoNaN.related. repeat split. solve_NoDup. Defined.

Lemma demo_nan_returns :
  transform_returns DemoNaN.imputer [DemoNaN.Xin] 0 DemoNaN.Xout.
Proof. eexists. eexists. split; vm_compute; reflexivity. Defined.

Lemma missing_driver_is_a_group_witness :
  exists keys vals,
    getitem DemoNaN.Xfit "B" = OK keys
    /\ getitem DemoNaN.Xfit "A" = OK vals
    /\ In None keys
    /\ (exists c,
          In [None; c]
             (rows (mode_map (nth 0 DemoNaN.modes ("", "", DemoNaN.Xin))))
          /\ is_group_mode (group keys vals None) c)
    /\ cell_at DemoNaN.Xin 0 "A" = None
    /\ cell_at DemoNaN.Xin 0 "B" = None
    /\ is_group_mode (group keys vals None) (cell_at DemoNaN.Xout 0 "A").
Proof.
  destruct (missing_driver_is_a_group DemoNaN.Xfit DemoNaN.imputer
              DemoNaN.modes [DemoNaN.Xin] 0 DemoNaN.Xin DemoNaN.Xout []
              (nth 0 DemoNaN.modes ("", "", DemoNaN.Xin)) [] 0)
    as (keys & vals & Hk & Hv & Hrow & _ & Hfill).
  - exact demo_nan_fitted.
  - reflexivity.
  - solve_well_formed.
  - exact demo_nan_returns.
  - reflexivity.
  - simpl. lia.
  - assert (Hnone : In None keys).
    { vm_compute in Hk. inversion Hk. simpl. tauto. }
    exists keys, vals.
    split; [exact Hk|]. split; [exact Hv|]. split; [exact Hnone|].
    split; [exact (Hrow Hnone)|].
    split; [reflexivity|]. split; [reflexivity|].
    apply Hfill; [reflexivity|reflexivity|simpl; tauto].
Defined.

(** In the example the premises of the last part hold and the cell is
    filled with ["a1"], the label seen twice among the fitting rows
    without B. *)
Example demo_nan_filled :
  cell_at DemoNaN.Xin 0 "A" = None
  /\ cell_at DemoNaN.Xin 0 "B" = None
  /\ group [None; None; Some "b"] [Some "a1"; Some "a1"; Some "a2"] None
     = [Some "a1"; Some "a1"]
  /\ cell_at DemoNaN.Xout 0 "A" = Some "a1".
Proof. repeat split. Qed.

(** C10, as the claim states it, fails: a missing target with a missing
    driver in the input is not always given the mode of the fitting rows
    without driver.  In the first row of [Demo.Xin] the target C and its
    driver A are both missing.  No row of [Demo.Xfit] lacks A, so the
    group of the missing key is empty and its mode is the missing marker.
    But the pair (A, B), applied first, fills A with ["a1"], and the pair
    (C, A) looks that label up and fills C with ["c1"]. *)
Lemma missing_driver_filled_counterexample :
  _get_all_modes Demo.Xfit Demo.related = OK Demo.modes
  /\ transform_returns Demo.imputer [Demo.Xin] 0 Demo.Xout
  /\ nth 2 Demo.modes ("", "", Demo.Xin)
     = ("C", "A", mode_map (nth 2 Demo.modes ("", "", Demo.Xin)))
  /\ cell_at Demo.Xin 0 "C" = None
  /\ cell_at Demo.Xin 0 "A" = None
  /\ getitem Demo.Xfit "A"
     = OK [Some "a1"; Some "a1"; Some "a2"; Some "a2"]
  /\ getitem Demo.Xfit "C"
     = OK [Some "c1"; Some "c1"; Some "c2"; Some "c2"]
  /\ group [Some "a1"; Some "a1"; Some "a2"; Some "a2"]
       [Some "c1"; Some "c1"; Some "c2"; Some "c2"] None = []
  /\ is_group_mode [] None
  /\ cell_at Demo.Xout 0 "C" = Some "c1"
  /\ ~ is_group_mode [] (cell_at Demo.Xout 0 "C").
Proof.
  repeat (split; [reflexivity|]).
  split; [eexists; eexists; split; vm_compute; reflexivity|].
  repeat (split; [reflexivity|]).
  intros [[H _] _]. exact H.
Qed.

(* ================================================================== *)
(** * Association finding *)

(** ** Lists of candidates *)

Lemma enumerate_from_nth {A : Type} (l : list A) : forall s i r,
  In (i, r) (combine (seq s (List.length l)) l) ->
  s <= i /\ nth_error l (i - s) = Some r.
Proof.
  induction l as [|x l IH]; intros s i r H; simpl in H; [destruct H|].
  destruct H as [H|H].
  - inversion H; subst. split; auto. now rewrite Nat.sub_diag.
  - apply IH in H. destruct H as [Hle Hn]. split; [lia|].
    replace (i - s) with (S (i - S s)) by lia. exact Hn.
Qed.

Lemma enumerate_nth {A : Type} (l : list A) i r :
  In (i, r) (enumerate l) -> nth_error l i = Some r.
Proof.
  intros H. apply enumerate_from_nth in H. destruct H as [_ H].
  now rewrite Nat.sub_0_r in H.
Qed.

Lemma enumerate_from_snd {A : Type} (f : A -> bool) (l : list A) : forall s,
  map snd (filter (fun ir => f (snd ir)) (combine (seq s (List.length l)) l))
  = filter f l.
Proof.
  induction l as [|x l IH]; intros s; simpl; auto.
  destruct (f x); simpl; now rewrite IH.
Qed.

Lemma enumerate_snd {A : Type} (f : A -> bool) (l : list A) :
  map snd (filter (fun ir => f (snd ir)) (enumerate l)) = filter f l.
Proof. apply enumerate_from_snd. Qed.

Lemma product_In l1 l2 a b : In (a, b) (product l1 l2) <-> In a l1 /\ In b l2.
Proof.
  unfold product. rewrite in_flat_map. split.
  - intros (x & Hx & H). apply in_map_iff in H. destruct H as (y & E & Hy).
    inversion E; subst. auto.
  - intros [Ha Hb]. exists a. split; auto. now apply in_map.
Qed.




Section FitProperties.

Variable pvalue : Type.
Variable pvalue_ltb : pvalue -> pvalue -> bool.
Variable chi2_contingency : list (list nat) -> result pvalue.

Local Abbreviation pv ir := (res_pvalue (snd ir)).

(** ** The first loop: one row per ordered pair of distinct columns *)

Lemma pair_results_cons X var1 var2 rest :
  var1 <> var2 ->
  pair_results chi2_contingency X ((var1, var2) :: rest)
  = (p <- pvalue_of chi2_contingency X var1 var2 ;;
     results <- pair_results chi2_contingency X rest ;;
     OK ((var1, var2, p) :: results))%res.
Proof.
  intros H. cbn [pair_results]. apply String.eqb_neq in H. rewrite H.
  unfold pvalue_of. destruct (getitem X var1); cbn [bindr]; auto.
  destruct (getitem X var2); cbn [bindr]; auto.
Qed.

Lemma pair_results_skip X var rest :
  pair_results chi2_contingency X ((var, var) :: rest)
  = pair_results chi2_contingency X rest.
Proof. cbn [pair_results]. now rewrite String.eqb_refl. Qed.

Lemma pair_results_ok X : forall pairs results,
  pair_results chi2_contingency X pairs = OK results ->
  map fst results = filter neq_pair pairs
  /\ Forall (fun r => pvalue_of chi2_contingency X (res_var1 r) (res_var2 r)
                      = OK (res_pvalue r)) results.
Proof.
  induction pairs as [|[var1 var2] pairs IH]; intros results H.
  - inversion H; subst. split; constructor.
  - destruct (string_dec var1 var2) as [->|Hne].
    + rewrite pair_results_skip in H. cbn [filter].
      unfold neq_pair at 1; cbn [fst snd]. rewrite String.eqb_refl.
      now apply IH.
    + rewrite pair_results_cons in H by exact Hne.
      destruct (pvalue_of chi2_contingency X var1 var2) as [p|] eqn:Ep;
        cbn [bindr] in H; [|discriminate].
      destruct (pair_results chi2_contingency X pairs) as [rs|];
        cbn [bindr] in H; [|discriminate].
      inversion H; subst; clear H. destruct (IH rs eq_refl) as [Hm Hall].
      cbn [filter map]. unfold neq_pair at 1; cbn [fst snd].
      replace (String.eqb var1 var2) with false
        by (symmetry; now apply String.eqb_neq).
      cbn [negb]. split; [now rewrite Hm|]. constructor; auto.
Qed.


Lemma pair_results_raise X e : forall pairs,
  pair_results chi2_contingency X pairs = Raise e ->
  exists a b, In (a, b) pairs /\ a <> b
              /\ pvalue_of chi2_contingency X a b = Raise e.
Proof.
  induction pairs as [|[var1 var2] pairs IH]; intros H; [discriminate|].
  destruct (string_dec var1 var2) as [->|Hne].
  - rewrite pair_results_skip in H. destruct (IH H) as (a & b & Hin & Hab).
    exists a, b. split; [now right|exact Hab].
  - rewrite pair_results_cons in H by exact Hne.
    destruct (pvalue_of chi2_contingency X var1 var2) as [p|e'] eqn:Ep;
      cbn [bindr] in H.
    + destruct (pair_results chi2_contingency X pairs) as [rs|e''];
        cbn [bindr] in H; [discriminate|].
      inversion H; subst. destruct (IH eq_refl) as (a & b & Hin & Hab).
      exists a, b. split; [now right|exact Hab].
    + inversion H; subst. exists var1, var2. split; [now left|auto].
Qed.

(** ** Groups of the results frame and their selected rows *)

Lemma idxmin_from_In : forall (L : list (nat * Result pvalue)) b,
  exists e, In e (b :: L) /\ idxmin_from pvalue_ltb b L = fst e.
Proof.
  induction L as [|x L IH]; intros b.
  - exists b. split; [now left|reflexivity].
  - cbn [idxmin_from].
    destruct (IH (if pvalue_ltb (pv x) (pv b) then x else b)) as (e & He & Hi).
    exists e. split; auto.
    destruct He as [He|He]; [|right; now right].
    destruct (pvalue_ltb (pv x) (pv b)); subst; [right|]; now left.
Qed.

Lemma group_of_In (results : list (Result pvalue)) k i r :
  In (i, r) (group_of results k) ->
  nth_error results i = Some r /\ res_var1 r = k.
Proof.
  unfold group_of. rewrite filter_In. cbn [snd]. intros [Hin Hk].
  split; [now apply enumerate_nth|now apply String.eqb_eq].
Qed.

Lemma group_of_rows (results : list (Result pvalue)) k :
  map snd (group_of results k)
  = filter (fun r => String.eqb (res_var1 r) k) results.
Proof.
  unfold group_of.
  exact (enumerate_snd (fun r => String.eqb (res_var1 r) k) results).
Qed.

Lemma group_of_nonempty (results : list (Result pvalue)) k :
  In k (map res_var1 results) -> group_of results k <> [].
Proof.
  intros Hin E. apply in_map_iff in Hin. destruct Hin as (r & Hr & Hin).
  assert (H : In r (map snd (group_of results k))).
  { rewrite group_of_rows. apply filter_In. split; auto.
    now apply String.eqb_eq. }
  rewrite E in H. destruct H.
Qed.

(** Each group hands [idxmin] one position, with whatever [idxmin]
    guarantees for a group that is not empty. *)
Lemma groupby_idxmin_Forall2 (results : list (Result pvalue))
  (P : string -> nat -> Prop) :
  (forall k, group_of results k <> [] ->
             exists i, idxmin pvalue_ltb (group_of results k) = [i] /\ P k i) ->
  Forall2 P (sort_unique (map res_var1 results))
    (groupby_idxmin pvalue_ltb results).
Proof.
  intros HP. unfold groupby_idxmin.
  assert (Hks : forall k, In k (sort_unique (map res_var1 results)) ->
                          In k (map res_var1 results))
    by (intros k; apply sort_unique_In).
  induction (sort_unique (map res_var1 results)) as [|k ks IH]; cbn [flat_map].
  - constructor.
  - fold (group_of results k).
    destruct (HP k) as (i & -> & Hi).
    + apply group_of_nonempty, Hks. now left.
    + cbn [app]. constructor; auto. apply IH. intros k' Hk'. apply Hks.
      now right.
Qed.

Lemma iloc2_inv (results : list (Result pvalue)) : forall ids rv,
  iloc2 results ids = OK rv ->
  Forall2 (fun i ab => exists r, nth_error results i = Some r
                                 /\ ab = (res_var1 r, res_var2 r)) ids rv.
Proof.
  induction ids as [|i ids IH]; intros rv H; cbn [iloc2] in H.
  - inversion H. constructor.
  - destruct (nth_error results i) as [r|] eqn:E; [|discriminate].
    destruct (iloc2 results ids) as [rest|]; cbn [bindr] in H; [|discriminate].
    inversion H; subst. constructor; eauto.
Qed.

Lemma iloc2_total (results : list (Result pvalue)) : forall ids,
  Forall (fun i => exists r, nth_error results i = Some r) ids ->
  exists rv, iloc2 results ids = OK rv.
Proof.
  induction ids as [|i ids IH]; intros H; cbn [iloc2].
  - eauto.
  - inversion H as [|? ? [r Hr] H']; subst. rewrite Hr.
    destruct (IH H') as [rest ->]. cbn [bindr]. eauto.
Qed.

Lemma Forall2_compose {A B C : Type} (P : A -> B -> Prop) (Q : B -> C -> Prop)
  l1 l2 l3 :
  Forall2 P l1 l2 -> Forall2 Q l2 l3 ->
  Forall2 (fun a c => exists b, P a b /\ Q b c) l1 l3.
Proof.
  intros H. revert l3. induction H; intros l3 H3; inversion H3; subst;
    constructor; eauto.
Qed.

Lemma Forall2_In_r {A B : Type} (P : A -> B -> Prop) l1 l2 b :
  Forall2 P l1 l2 -> In b l2 -> exists a, In a l1 /\ P a b.
Proof.
  induction 1 as [|x y l1 l2 Hxy _ IH]; intros Hin; [destruct Hin|].
  destruct Hin as [<-|Hin].
  - exists x. split; [now left|exact Hxy].
  - destruct (IH Hin) as (a & Ha & HP). exists a. split; [now right|exact HP].
Qed.

Lemma Forall2_In_l {A B : Type} (P : A -> B -> Prop) l1 l2 a :
  Forall2 P l1 l2 -> In a l1 -> exists b, In b l2 /\ P a b.
Proof.
  induction 1 as [|x y l1 l2 Hxy _ IH]; intros Hin; [destruct Hin|].
  destruct Hin as [<-|Hin].
  - exists y. split; [now left|exact Hxy].
  - destruct (IH Hin) as (b & Hb & HP). exists b. split; [now right|exact HP].
Qed.

(** What [_calculate_most_related_variables] returns: for each key of the
    results frame, in sorted order, the pair in the row that [idxmin]
    selects in the key's group. *)
Lemma related_inv (P : list (Result pvalue) -> string -> nat -> Prop) X cat rv :
  (forall results k, group_of results k <> [] ->
     exists i, idxmin pvalue_ltb (group_of results k) = [i] /\ P results k i) ->
  _calculate_most_related_variables pvalue_ltb chi2_contingency X cat = OK rv ->
  exists results,
    pair_results chi2_contingency X (product cat cat) = OK results
    /\ Forall2 (fun k ab => exists i r,
                  P results k i /\ nth_error results i = Some r
                  /\ ab = (res_var1 r, res_var2 r))
         (sort_unique (map res_var1 results)) rv.
Proof.
  intros HP H. unfold _calculate_most_related_variables in H.
  destruct (pair_results chi2_contingency X (product cat cat))
    as [results|] eqn:E; cbn [bindr] in H; [|discriminate].
  exists results. split; auto.
  apply iloc2_inv in H.
  pose proof (groupby_idxmin_Forall2 results (P results) (HP results)) as Hg.
  pose proof (Forall2_compose _ _ _ _ _ Hg H) as Hc.
  eapply Forall2_impl; [|exact Hc].
  intros k ab (i & Hi & r & Hr & Hab). eauto.
Qed.

Lemma idxmin_member (G : list (nat * Result pvalue)) :
  G <> [] ->
  exists i, idxmin pvalue_ltb G = [i] /\ exists r, In (i, r) G.
Proof.
  destruct G as [|b L]; [congruence|]. intros _. cbn [idxmin].
  destruct (idxmin_from_In L b) as ([i r] & He & Hi).
  exists i. split; [now rewrite Hi|]. eauto.
Qed.

Lemma related_total X cat results :
  pair_results chi2_contingency X (product cat cat) = OK results ->
  exists rv,
    _calculate_most_related_variables pvalue_ltb chi2_contingency X cat = OK rv.
Proof.
  intros E. unfold _calculate_most_related_variables. rewrite E. cbn [bindr].
  apply iloc2_total.
  pose proof (groupby_idxmin_Forall2 results
                (fun k i => exists r, In (i, r) (group_of results k))
                (fun k Hk => idxmin_member _ Hk)) as Hg.
  rewrite Forall_forall. intros i Hi.
  destruct (Forall2_In_r _ _ _ _ Hg Hi) as (k & _ & r & Hr).
  apply group_of_In in Hr. exists r. tauto.
Qed.

Lemma Forall2_fst_eq {B : Type} (ks : list string) (rv : list (string * B)) :
  Forall2 (fun k ab => fst ab = k) ks rv -> map fst rv = ks.
Proof. induction 1; simpl; congruence. Qed.



Lemma neq_pair_row A cat :
  filter neq_pair (map (fun b => (A, b)) cat)
  = map (fun b => (A, b)) (candidates A cat).
Proof.
  unfold candidates, neq_pair.
  induction cat as [|b cat IH]; simpl; auto.
  destruct (String.eqb A b); simpl; now rewrite IH.
Qed.

(** The rows of the results frame are the ordered pairs of distinct
    columns, each with the p-value of its pair. *)
Lemma results_rows X cat results :
  pair_results chi2_contingency X (product cat cat) = OK results ->
  (forall r, In r results ->
     In (res_var1 r) cat /\ In (res_var2 r) cat /\ res_var1 r <> res_var2 r
     /\ pvalue_of chi2_contingency X (res_var1 r) (res_var2 r)
        = OK (res_pvalue r))
  /\ (forall a b, In a cat -> In b cat -> a <> b ->
        exists r, In r results /\ res_var1 r = a /\ res_var2 r = b).
Proof.
  intros E. apply pair_results_ok in E. destruct E as [Hm Hall]. split.
  - intros r Hr. rewrite Forall_forall in Hall.
    assert (Hin : In (fst r) (filter neq_pair (product cat cat)))
      by (rewrite <- Hm; now apply in_map).
    apply filter_In in Hin. destruct Hin as [Hp Hn].
    destruct r as [[a b] p]. cbn [fst] in *.
    apply product_In in Hp. unfold neq_pair in Hn. cbn [fst snd] in Hn.
    apply negb_true_iff, String.eqb_neq in Hn.
    unfold res_var1, res_var2; cbn [fst snd]. repeat split; try tauto.
    exact (Hall _ Hr).
  - intros a b Ha Hb Hab.
    assert (Hin : In (a, b) (map fst results)).
    { rewrite Hm. apply filter_In. split; [now apply product_In|].
      unfold neq_pair; cbn [fst snd].
      now apply negb_true_iff, String.eqb_neq. }
    apply in_map_iff in Hin. destruct Hin as ([[a' b'] p] & E & Hin).
    cbn [fst] in E. inversion E; subst. exists (a, b, p). auto.
Qed.


Lemma related_keys X cat rv :
  _calculate_most_related_variables pvalue_ltb chi2_contingency X cat = OK rv ->
  exists results,
    pair_results chi2_contingency X (product cat cat) = OK results
    /\ map fst rv = sort_unique (map res_var1 results)
    /\ forall A B, In (A, B) rv ->
         exists r, In r results /\ res_var1 r = A /\ res_var2 r = B.
Proof.
  intros H.
  destruct (related_inv
              (fun results k i => exists r, In (i, r) (group_of results k))
              X cat rv (fun results k Hk => idxmin_member _ Hk) H)
    as (results & E & Hf).
  exists results. split; auto.
  assert (Hf' : Forall2 (fun k ab => fst ab = k
                  /\ exists r, In r results /\ ab = (res_var1 r, res_var2 r))
                  (sort_unique (map res_var1 results)) rv).
  { eapply Forall2_impl; [|exact Hf].
    intros k ab (i & r & (r' & Hr') & Hn & ->).
    apply group_of_In in Hr'. destruct Hr' as [Hn' Hk].
    rewrite Hn in Hn'. inversion Hn'; subst r'. cbn [fst]. split; auto.
    exists r. split; auto. eapply nth_error_In; eauto. }
  split.
  - apply Forall2_fst_eq. eapply Forall2_impl; [|exact Hf'].
    intros k ab [Hk _]. exact Hk.
  - intros A B Hin.
    destruct (Forall2_In_r _ _ _ _ Hf' Hin) as (k & _ & _ & r & Hr & Hab).
    inversion Hab; subst. eauto.
Qed.

(** ** [fit] *)

Lemma fit_inv self X self' :
  fit pvalue_ltb chi2_contingency self X = OK self' ->
  exists rv l,
    _calculate_most_related_variables pvalue_ltb chi2_contingency X
      (cat_features_of self X) = OK rv
    /\ _get_all_modes X rv = OK l
    /\ self' = mkImputer (cols_to_ignore self) (Some rv) (Some l).
Proof.
  unfold fit. fold (cat_features_of self X). intros H.
  destruct (_calculate_most_related_variables _ _ X (cat_features_of self X))
    as [rv|] eqn:Erv; cbn [bindr] in H; [|discriminate].
  destruct (_get_all_modes X rv) as [l|] eqn:El; cbn [bindr] in H;
    [|discriminate].
  inversion H; subst. exists rv, l. auto.
Qed.

Lemma select_dtypes_object_In X a :
  In a (select_dtypes_object X) -> In a (col_names X).
Proof.
  unfold select_dtypes_object, col_names. rewrite !in_map_iff.
  intros (c & <- & Hc). apply filter_In in Hc. exists c. tauto.
Qed.

Lemma cat_features_In self X a :
  In a (cat_features_of self X) -> In a (col_names X).
Proof.
  unfold cat_features_of, setdiff1d. destruct (cols_to_ignore self).
  - rewrite filter_In, sort_unique_In. intros [H _].
    now apply select_dtypes_object_In.
  - apply select_dtypes_object_In.
Qed.

Lemma NoDup_map_filter {A B : Type} (g : A -> B) (f : A -> bool) l :
  NoDup (map g l) -> NoDup (map g (filter f l)).
Proof.
  induction l as [|x l IH]; simpl; intros H; auto.
  inversion H as [|? ? Hx H']; subst.
  destruct (f x); simpl; auto. constructor; auto.
  intros Hin. apply Hx. apply in_map_iff in Hin.
  destruct Hin as (y & Hy & Hin). apply filter_In in Hin.
  rewrite <- Hy. apply in_map. tauto.
Qed.

Lemma cat_features_NoDup self X :
  well_formed X -> NoDup (cat_features_of self X).
Proof.
  intros (_ & _ & Hnd). unfold cat_features_of, setdiff1d.
  destruct (cols_to_ignore self).
  - apply NoDup_filter, sort_unique_NoDup.
  - unfold select_dtypes_object. now apply NoDup_map_filter.
Qed.

Lemma getitem_In X a : In a (col_names X) -> exists col, getitem X a = OK col.
Proof.
  intros H. unfold getitem. destruct (index_of_In _ _ H) as [j ->]. eauto.
Qed.

Lemma get_all_modes_total X : forall rv,
  (forall a b, In (a, b) rv ->
     In a (col_names X) /\ In b (col_names X) /\ a <> b) ->
  exists l, _get_all_modes X rv = OK l.
Proof.
  induction rv as [|[a b] rv IH]; intros H; cbn [_get_all_modes].
  - eauto.
  - destruct (H a b (or_introl eq_refl)) as (Ha & Hb & Hab).
    destruct IH as [l ->]; [intros; apply H; now right|].
    unfold grouped_modes.
    destruct (getitem_In X b Hb) as [keys ->].
    destruct (getitem_In X a Ha) as [vals ->]. cbn [bindr].
    replace (String.eqb a b) with false
      by (symmetry; now apply String.eqb_neq).
    cbn [bindr]. eauto.
Qed.

(** [fit] completes as soon as the first loop does. *)
Lemma fit_total self X results :
  pair_results chi2_contingency X
    (product (cat_features_of self X) (cat_features_of self X)) = OK results ->
  exists self', fit pvalue_ltb chi2_contingency self X = OK self'.
Proof.
  intros E. destruct (related_total X _ results E) as [rv Hrv].
  destruct (related_keys X _ rv Hrv) as (results' & E' & _ & Hin).
  rewrite E in E'. inversion E'; subst results'.
  destruct (results_rows X _ results E) as [Hrows _].
  destruct (get_all_modes_total X rv) as [l Hl].
  { intros a b Hab. destruct (Hin a b Hab) as (r & Hr & <- & <-).
    destruct (Hrows r Hr) as (H1 & H2 & H3 & _).
    repeat split; auto; now apply (cat_features_In self). }
  unfold fit. fold (cat_features_of self X). rewrite Hrv. cbn [bindr].
  rewrite Hl. cbn [bindr]. eauto.
Qed.

(** [fit] raises only what the test raises on a pair of distinct
    categorical columns of the table. *)
Lemma fit_raise self X e :
  fit pvalue_ltb chi2_contingency self X = Raise e ->
  exists a b col_a col_b,
    In a (cat_features_of self X) /\ In b (cat_features_of self X) /\ a <> b
    /\ getitem X a = OK col_a /\ getitem X b = OK col_b
    /\ chi2_contingency (crosstab col_a col_b) = Raise e.
Proof.
  intros H.
  destruct (pair_results chi2_contingency X
              (product (cat_features_of self X) (cat_features_of self X)))
    as [results|e'] eqn:E.
  - destruct (fit_total self X results E) as [self' Hs]. congruence.
  - assert (e' = e).
    { unfold fit in H. fold (cat_features_of self X) in H.
      unfold _calculate_most_related_variables in H. rewrite E in H.
      cbn [bindr] in H. congruence. }
    subst e'. apply pair_results_raise in E.
    destruct E as (a & b & Hin & Hab & Hp). apply product_In in Hin.
    destruct Hin as [Ha Hb].
    destruct (getitem_In X a (cat_features_In self X a Ha)) as [ca Hca].
    destruct (getitem_In X b (cat_features_In self X b Hb)) as [cb Hcb].
    exists a, b, ca, cb. unfold pvalue_of in Hp. rewrite Hca, Hcb in Hp.
    cbn [bindr] in Hp. auto 10.
Qed.


(** What [fit] returns is a fitted state in the sense of the statements
    about [transform]. *)
Lemma fit_fitted self X self' :
  fit pvalue_ltb chi2_contingency self X = OK self' ->
  exists l, fitted_from X self' l.
Proof.
  intros Hfit.
  destruct (fit_inv self X self' Hfit) as (rv & l & Hcalc & Hl & ->).
  exists l, rv. repeat split; auto.
  destruct (related_keys X _ rv Hcalc) as (results & _ & Hk & _).
  rewrite Hk. apply sort_unique_NoDup.
Qed.

(** ** [idxmin]: the first of the smallest *)

Section Order.

(** p-values are ordered as numbers are: [pvalue_ltb] is a strict weak
    order (NaN does not occur among the values compared). *)
Hypothesis ltb_irrefl : forall p, pvalue_ltb p p = false.
Hypothesis ltb_trans : forall p q r,
  pvalue_ltb p q = true -> pvalue_ltb q r = true -> pvalue_ltb p r = true.
Hypothesis ltb_cotrans : forall p q r,
  pvalue_ltb p r = true -> pvalue_ltb p q = true \/ pvalue_ltb q r = true.








End Order.


(** C6, as the code has it.  [fit] is given no column names it could miss:
    the categorical columns are the object columns of the table itself,
    and a name of the ignore list that is not a column of the table is
    disregarded (the fitted parameters are those of the ignore list without
    it).  [fit] raises nothing of its own: an exception it raises is one the
    test raised on the contingency table of two categorical columns of the
    table. *)
Theorem fit_disregards_absent_names X ignore rv0 am0 :
  cat_features_of (mkImputer (Some ignore) rv0 am0) X
  = cat_features_of
      (mkImputer (Some (filter (fun s => mem s (col_names X)) ignore)) rv0 am0)
      X
  /\ (s <- fit pvalue_ltb chi2_contingency
             (mkImputer (Some ignore) rv0 am0) X ;;
      OK (related_vars_ s, all_modes_ s))%res
     = (s <- fit pvalue_ltb chi2_contingency
               (mkImputer
                  (Some (filter (fun s => mem s (col_names X)) ignore))
                  rv0 am0) X ;;
        OK (related_vars_ s, all_modes_ s))%res
  /\ (forall self e,
        fit pvalue_ltb chi2_contingency self X = Raise e ->
        exists a b col_a col_b,
          In a (cat_features_of self X) /\ In b (cat_features_of self X)
          /\ a <> b
          /\ getitem X a = OK col_a /\ getitem X b = OK col_b
          /\ chi2_contingency (crosstab col_a col_b) = Raise e).
Proof.
  assert (Hcat : cat_features_of (mkImputer (Some ignore) rv0 am0) X
    = cat_features_of
        (mkImputer (Some (filter (fun s => mem s (col_names X)) ignore))
           rv0 am0) X).
  { unfold cat_features_of, setdiff1d. cbn [cols_to_ignore].
    apply filter_ext_in. intros a Ha. f_equal.
    apply sort_unique_In, select_dtypes_object_In in Ha.
    destruct (mem a ignore) eqn:E.
    - symmetry. apply mem_In, filter_In. split; [now apply mem_In|].
      now apply mem_In.
    - symmetry. apply mem_false. intros H. apply filter_In in H.
      destruct H as [H _]. apply mem_In in H. congruence. }
  split; [exact Hcat|]. split; [|intros self e; apply fit_raise].
  unfold fit. fold (cat_features_of (mkImputer (Some ignore) rv0 am0) X).
  fold (cat_features_of
          (mkImputer (Some (filter (fun s => mem s (col_names X)) ignore))
             rv0 am0) X).
  rewrite <- Hcat.
  destruct (_calculate_most_related_variables pvalue_ltb chi2_contingency X
              (cat_features_of (mkImputer (Some ignore) rv0 am0) X))
    as [rv|]; cbn [bindr]; auto.
  destruct (_get_all_modes X rv); cbn [bindr]; auto.
Qed.

End FitProperties.

(* ================================================================== *)
(** * The claims about [fit] on the examples *)

(** On [Demo.Xfit] every pair has the same contingency table, so a test
    that returns a p-value for it gives every pair the same one, and [fit]
    returns [Demo.imputer] whatever the test. *)
Lemma demo_fit_any_test (pvalue : Type) (pvalue_ltb : pvalue -> pvalue -> bool)
  (chi2_contingency : list (list nat) -> result pvalue) p :
  chi2_contingency [[2; 0]; [0; 2]] = OK p ->
  pvalue_ltb p p = false ->
  fit pvalue_ltb chi2_contingency (__init__ None) Demo.Xfit = OK Demo.imputer.
Proof.
  intros Hp Hirr. unfold fit, _calculate_most_related_variables.
  cbn [cols_to_ignore __init__].
  change (select_dtypes_object Demo.Xfit) with ["A"; "B"; "C"].
  cbn [product flat_map map app pair_results String.eqb Ascii.eqb Bool.eqb].
  repeat match goal with
  | |- context [getitem Demo.Xfit ?n] =>
      let c := eval vm_compute in (getitem Demo.Xfit n) in
      change (getitem Demo.Xfit n) with c
  end.
  cbn [bindr].
  repeat match goal with
  | |- context [crosstab ?a ?b] =>
      let c := eval vm_compute in (crosstab a b) in
      change (crosstab a b) with c
  end.
  rewrite !Hp. cbn [bindr].
  unfold groupby_idxmin.
  match goal with
  | |- context [sort_unique ?l] =>
      let c := eval vm_compute in (sort_unique l) in
      change (sort_unique l) with c
  end.
  cbn [flat_map enumerate List.length seq combine filter snd fst res_var1
       String.eqb Ascii.eqb Bool.eqb idxmin idxmin_from res_pvalue app].
  rewrite !Hirr.
  cbn [fst iloc2 nth_error bindr res_var1 res_var2 snd].
  reflexivity.
Qed.

(** Here the p-value is 5 for all pairs. *)
Lemma demo_fit :
  fit Nat.ltb (fun _ => OK 5) (__init__ None) Demo.Xfit = OK Demo.imputer.
Proof. vm_compute. reflexivity. Defined.

Lemma demo_order_fit :
  fit Nat.ltb DemoOrder.width (__init__ None) DemoOrder.X
  = OK DemoOrder.imputer
  /\ related_vars_ DemoOrder.imputer = Some DemoOrder.related.
Proof. split; vm_compute; reflexivity. Defined.


Example demo_order_pvalues :
  pvalue_of DemoOrder.width DemoOrder.X "A" "B" = OK 3
  /\ pvalue_of DemoOrder.width DemoOrder.X "A" "C" = OK 2
  /\ pvalue_of DemoOrder.width DemoOrder.X "A" "D" = OK 2
  /\ before (cat_features_of (__init__ None) DemoOrder.X) "B" "C"
  /\ before (cat_features_of (__init__ None) DemoOrder.X) "C" "D".
Proof.
  repeat split.
  - exists ["A"], [], ["D"]. reflexivity.
  - exists ["A"; "B"], [], []. reflexivity.
Qed.


(** C6, as the spec states it, fails: the ignore list names ["Z"], which
    is no column of [Demo.Xfit].  [fit] returns the fitted state it returns
    without the ignore list, the list itself apart; and with no test
    whatsoever does it raise an exception that the test did not raise. *)
Lemma fit_absent_ignored_name_counterexample :
  ~ In "Z" (col_names Demo.Xfit)
  /\ fit Nat.ltb (fun _ => OK 5) (__init__ (Some ["Z"])) Demo.Xfit
     = OK (mkImputer (Some ["Z"]) (Some Demo.related) (Some Demo.modes))
  /\ ~ (exists (pvalue : Type) (pvalue_ltb : pvalue -> pvalue -> bool)
               (chi2_contingency : list (list nat) -> result pvalue) e,
          fit pvalue_ltb chi2_contingency (__init__ (Some ["Z"])) Demo.Xfit
          = Raise e
          /\ forall t, chi2_contingency t <> Raise e).
Proof.
  split; [simpl; intuition discriminate|].
  split; [vm_compute; reflexivity|].
  intros (pvalue & ltb & chi2 & e & H & Hno).
  destruct (fit_raise pvalue ltb chi2 _ _ e H)
    as (a & b & ca & cb & _ & _ & _ & _ & _ & Hr).
  exact (Hno _ Hr).
Qed.

(* ================================================================== *)
(** * From the fitting table to the filled cell *)

Lemma group_unseen keys vals k : ~ In k keys -> group keys vals k = [].
Proof.
  unfold group. revert vals.
  induction keys as [|a keys IH]; intros [|b vals] Hnot; simpl; auto.
  destruct (cell_eqb a k) eqn:E.
  - apply cell_eqb_eq in E. subst. exfalso. apply Hnot. now left.
  - apply IH. intros H. apply Hnot. now right.
Qed.

Lemma combine_In_nth {A B : Type} (l1 : list A) : forall (l2 : list B) a b,
  In (a, b) (combine l1 l2) ->
  exists j, nth_error l1 j = Some a /\ nth_error l2 j = Some b.
Proof.
  induction l1 as [|x l1 IH]; intros [|y l2] a b H; simpl in H; try tauto.
  destruct H as [H|H].
  - inversion H; subst. exists 0. auto.
  - destruct (IH l2 a b H) as (j & H1 & H2). exists (S j). auto.
Qed.

Lemma group_In keys vals k c :
  In c (group keys vals k) ->
  exists j, nth_error keys j = Some k /\ nth_error vals j = Some c.
Proof.
  unfold group. rewrite in_map_iff. intros ([k' c'] & <- & Hin).
  apply filter_In in Hin. destruct Hin as [Hin Hk]. cbn [fst snd] in *.
  apply cell_eqb_eq in Hk. subst k'. now apply combine_In_nth.
Qed.

Lemma getitem_nth X name col j c :
  getitem X name = OK col -> nth_error col j = Some c ->
  j < List.length (rows X) /\ cell_at X j name = c.
Proof.
  unfold getitem, cell_at. destruct (index_of name (col_names X)) as [jc|];
    [|discriminate].
  intros H Hn. inversion H; subst col. clear H.
  assert (Hlt : j < List.length (rows X)).
  { rewrite <- (length_map (get_cell jc)). apply nth_error_Some. congruence. }
  split; auto.
  rewrite nth_error_map in Hn.
  destruct (nth_error (rows X) j) as [r|] eqn:E; [|discriminate].
  cbn in Hn. inversion Hn. f_equal.
  now apply nth_error_nth.
Qed.

(** The cell a pair of a fitted imputer leaves in its target column: the
    mode of the target over the fitting rows that carry the driver value
    the pair reads. *)
Lemma filled_from_fitting_table Xfit self l h x X Y pre e post i :
  fitted_from Xfit self l ->
  nth_error h x = Some X -> well_formed X ->
  transform_returns self h x Y ->
  l = pre ++ e :: post ->
  i < List.length (rows X) ->
  exists keys vals,
    getitem Xfit (driver e) = OK keys
    /\ getitem Xfit (target e) = OK vals
    /\ cell_at Y i (target e)
       = match cell_at X i (target e) with
         | Some v => Some v
         | None => agg_mode (group keys vals (driver_cell_read X Y pre e i))
         end.
Proof.
  intros Hff Hx Hwf HY Hl Hi.
  assert (Hf : fitted self l) by (exists Xfit; exact Hff).
  pose proof (returned_cell self l h x X Y pre e post i Hf Hx Hwf HY Hl Hi)
    as Hcell.
  destruct Hff as (rv & _ & Hmodes & _).
  assert (Hin : In e l) by (subst l; apply in_or_app; right; now left).
  pose proof (get_all_modes_In Xfit rv _ e Hmodes Hin) as Hg.
  apply grouped_modes_ok in Hg.
  destruct Hg as (_ & keys & vals & Hk & Hv & _ & Hrows).
  exists keys, vals. repeat split; auto.
  rewrite <- (lookup_mode_group keys vals (mode_map e) _ Hrows).
  exact Hcell.
Qed.

(** X2.  No support, no value: when the driver value a pair reads in a row
    does not occur in the driver column of the fitting table, or occurs
    only in rows whose target is missing, a missing target cell of that
    row stays missing. *)
Theorem unseen_driver_value_leaves_missing Xfit self l h x X Y pre e post i :
  fitted_from Xfit self l ->
  nth_error h x = Some X -> well_formed X ->
  transform_returns self h x Y ->
  l = pre ++ e :: post ->
  i < List.length (rows X) ->
  cell_at X i (target e) = None ->
  exists keys vals,
    getitem Xfit (driver e) = OK keys
    /\ getitem Xfit (target e) = OK vals
    /\ (~ In (driver_cell_read X Y pre e i) keys ->
        cell_at Y i (target e) = None)
    /\ (dropna (group keys vals (driver_cell_read X Y pre e i)) = [] ->
        cell_at Y i (target e) = None).
Proof.
  intros Hff Hx Hwf HY Hl Hi Ht.
  destruct (filled_from_fitting_table Xfit self l h x X Y pre e post i
              Hff Hx Hwf HY Hl Hi) as (keys & vals & Hk & Hv & Hcell).
  rewrite Ht in Hcell.
  exists keys, vals. repeat split; auto.
  - intros Hnot. rewrite Hcell, (group_unseen keys vals _ Hnot). reflexivity.
  - intros Hnone. rewrite Hcell. unfold agg_mode, mode. now rewrite Hnone.
Qed.

(** X3.  [transform] invents nothing: a label it puts into a missing target
    cell is a label of the target column of the fitting table, found there
    in a row whose driver cell is the driver value the pair read, and it is
    one of the most frequent labels among those rows. *)
Theorem filled_value_has_support Xfit self l h x X Y pre e post i v :
  fitted_from Xfit self l ->
  nth_error h x = Some X -> well_formed X ->
  transform_returns self h x Y ->
  l = pre ++ e :: post ->
  i < List.length (rows X) ->
  cell_at X i (target e) = None ->
  cell_at Y i (target e) = Some v ->
  (exists j, j < List.length (rows Xfit)
             /\ cell_at Xfit j (driver e) = driver_cell_read X Y pre e i
             /\ cell_at Xfit j (target e) = Some v)
  /\ exists keys vals,
       getitem Xfit (driver e) = OK keys
       /\ getitem Xfit (target e) = OK vals
       /\ most_frequent (group keys vals (driver_cell_read X Y pre e i)) v.
Proof.
  intros Hff Hx Hwf HY Hl Hi Ht Hv.
  destruct (filled_from_fitting_table Xfit self l h x X Y pre e post i
              Hff Hx Hwf HY Hl Hi) as (keys & vals & Hk & Hvals & Hcell).
  rewrite Ht, Hv in Hcell.
  pose proof (agg_mode_spec
                (group keys vals (driver_cell_read X Y pre e i))) as Hspec.
  rewrite <- Hcell in Hspec. destruct Hspec as [Hmf _].
  split; [|exists keys, vals; auto].
  destruct Hmf as [Hin _]. apply dropna_In, group_In in Hin.
  destruct Hin as (j & Hj1 & Hj2).
  destruct (getitem_nth Xfit _ keys j _ Hk Hj1) as [Hlt Hc1].
  destruct (getitem_nth Xfit _ vals j _ Hvals Hj2) as [_ Hc2].
  exists j. auto.
Qed.

Lemma demo_fitted_from : fitted_from Demo.Xfit Demo.imputer Demo.modes.
Proof. exists Demo.related. repeat split. solve_NoDup. Defined.

Lemma demo_unseen_returns :
  transform_returns Demo.imputer [DemoUnseen.Xin] 0 DemoUnseen.Xin.
Proof. eexists. eexists. split; vm_compute; reflexivity. Defined.

Lemma unseen_driver_value_leaves_missing_witness :
  exists keys vals,
    getitem Demo.Xfit "B" = OK keys
    /\ getitem Demo.Xfit "A" = OK vals
    /\ (~ In (driver_cell_read DemoUnseen.Xin DemoUnseen.Xin []
                (nth 0 Demo.modes ("", "", Demo.Xin)) 0) keys ->
        cell_at DemoUnseen.Xin 0 "A" = None)
    /\ (dropna (group keys vals
                  (driver_cell_read DemoUnseen.Xin DemoUnseen.Xin []
                     (nth 0 Demo.modes ("", "", Demo.Xin)) 0)) = [] ->
        cell_at DemoUnseen.Xin 0 "A" = None).
Proof.
  apply (unseen_driver_value_leaves_missing Demo.Xfit Demo.imputer Demo.modes
           [DemoUnseen.Xin] 0 DemoUnseen.Xin DemoUnseen.Xin []
           (nth 0 Demo.modes ("", "", Demo.Xin)) (tl Demo.modes) 0).
  - exact demo_fitted_from.
  - reflexivity.
  - solve_well_formed.
  - exact demo_unseen_returns.
  - reflexivity.
  - simpl. lia.
  - reflexivity.
Defined.

Lemma filled_value_has_support_witness :
  (exists j, j < List.length (rows Demo.Xfit)
             /\ cell_at Demo.Xfit j "B"
                = driver_cell_read Demo.Xin Demo.Xout []
                    (nth 0 Demo.modes ("", "", Demo.Xin)) 0
             /\ cell_at Demo.Xfit j "A" = Some "a1")
  /\ exists keys vals,
       getitem Demo.Xfit "B" = OK keys
       /\ getitem Demo.Xfit "A" = OK vals
       /\ most_frequent
            (group keys vals
               (driver_cell_read Demo.Xin Demo.Xout []
                  (nth 0 Demo.modes ("", "", Demo.Xin)) 0)) "a1".
Proof.
  apply (filled_value_has_support Demo.Xfit Demo.imputer Demo.modes
           [Demo.Xin] 0 Demo.Xin Demo.Xout []
           (nth 0 Demo.modes ("", "", Demo.Xin)) (tl Demo.modes) 0 "a1").
  - exact demo_fitted_from.
  - reflexivity.
  - exact demo_Xin_well_formed.
  - exact demo_returns.
  - reflexivity.
  - simpl. lia.
  - reflexivity.
  - reflexivity.
Defined.

(* ================================================================== *)
(** * The ModeMaps, one by one *)

(** X6.  The ModeMap of a pair has one row for each driver value of the
    fitting table, the missing marker included when the driver column has
    a missing cell, and no other; a driver value is not dropped when none
    of its rows has a target label: its row holds the missing marker. *)
Theorem mode_map_has_one_row_per_driver_value Xfit self l e :
  fitted_from Xfit self l ->
  In e l ->
  exists keys vals,
    getitem Xfit (driver e) = OK keys
    /\ getitem Xfit (target e) = OK vals
    /\ NoDup (map (get_cell 0) (rows (mode_map e)))
    /\ (forall k, In k keys <-> In k (map (get_cell 0) (rows (mode_map e))))
    /\ (forall k, In k keys -> dropna (group keys vals k) = [] ->
                  In [k; None] (rows (mode_map e))).
Proof.
  intros (rv & _ & Hl & _) Hin.
  pose proof (get_all_modes_In Xfit rv l e Hl Hin) as Hg.
  apply grouped_modes_ok in Hg.
  destruct Hg as ((_ & _ & Hnd) & keys & vals & Hk & Hv & _ & Hrows).
  exists keys, vals. repeat split; auto.
  - intros Hin'. rewrite Hrows, map_map. cbn [get_cell nth].
    rewrite map_id. now apply group_keys_In.
  - intros Hin'. rewrite Hrows, map_map in Hin'. cbn [get_cell nth] in Hin'.
    rewrite map_id in Hin'. now apply group_keys_In.
  - intros k Hk' Hnone. rewrite Hrows. apply in_map_iff. exists k.
    split; [|now apply group_keys_In].
    unfold agg_mode, mode. now rewrite Hnone.
Qed.

Lemma mode_map_has_one_row_per_driver_value_witness :
  exists keys vals,
    getitem DemoNaN.Xfit "B" = OK keys
    /\ getitem DemoNaN.Xfit "A" = OK vals
    /\ NoDup (map (get_cell 0)
                (rows (mode_map (nth 0 DemoNaN.modes ("", "", DemoNaN.Xin)))))
    /\ (forall k,
          In k keys <->
          In k (map (get_cell 0)
                  (rows (mode_map (nth 0 DemoNaN.modes
                                     ("", "", DemoNaN.Xin))))))
    /\ (forall k, In k keys -> dropna (group keys vals k) = [] ->
                  In [k; None]
                     (rows (mode_map (nth 0 DemoNaN.modes
                                        ("", "", DemoNaN.Xin))))).
Proof.
  apply (mode_map_has_one_row_per_driver_value DemoNaN.Xfit DemoNaN.imputer
           DemoNaN.modes (nth 0 DemoNaN.modes ("", "", DemoNaN.Xin))
           demo_nan_fitted).
  now left.
Defined.

(* ================================================================== *)
(** * [_get_all_modes] on any list of pairs *)

Lemma getitem_OK_In X a col : getitem X a = OK col -> In a (col_names X).
Proof.
  unfold getitem. destruct (index_of a (col_names X)) as [j|] eqn:E;
    [|discriminate].
  intros _. apply index_of_Some in E. eapply nth_error_In. exact (proj2 E).
Qed.

(** X9.  [_get_all_modes] returns exactly when every pair names two
    different columns of the table, and then it returns one ModeMap per
    pair, in the order of the pairs. *)
Theorem get_all_modes_returns_iff X related_vars :
  ((exists l, _get_all_modes X related_vars = OK l)
   <-> (forall a b, In (a, b) related_vars ->
          In a (col_names X) /\ In b (col_names X) /\ a <> b))
  /\ (forall l, _get_all_modes X related_vars = OK l ->
        map (fun e => (target e, driver e)) l = related_vars).
Proof.
  split; [split|].
  - intros [l Hl] a b Hin.
    assert (He : exists e, In e l /\ target e = a /\ driver e = b).
    { destruct (get_all_modes_ok X related_vars l Hl) as [_ Hmap].
      rewrite <- Hmap in Hin. apply in_map_iff in Hin.
      destruct Hin as (e & He & Hin). inversion He. eauto. }
    destruct He as (e & He & <- & <-).
    pose proof (get_all_modes_In X related_vars l e Hl He) as Hg.
    apply grouped_modes_ok in Hg.
    destruct Hg as (_ & keys & vals & Hk & Hv & Hne & _).
    repeat split; auto; eapply getitem_OK_In; eauto.
  - apply get_all_modes_total.
  - intros l Hl. exact (proj2 (get_all_modes_ok X related_vars l Hl)).
Qed.

(* ================================================================== *)
(** * [transform] before [fit], and on tables put together *)

(** X7.  Called on an imputer that was never fitted, [transform] first
    copies its input and then fails on [self.all_modes_] with an
    [AttributeError]; the copy is all it leaves behind. *)
Theorem transform_before_fit_raises self h x X :
  all_modes_ self = None ->
  nth_error h x = Some X ->
  transform self x h = (Raise (AttributeError "all_modes_"), h ++ [X]).
Proof.
  intros Hnone Hx. unfold transform.
  unfold bind at 1. unfold Frame.copy, bind at 1, deref, new. rewrite Hx.
  unfold bind at 1. rewrite Hnone. reflexivity.
Qed.

Lemma transform_before_fit_raises_witness :
  transform (__init__ None) 0 [Demo.Xin]
  = (Raise (AttributeError "all_modes_"), [Demo.Xin] ++ [Demo.Xin]).
Proof.
  apply (transform_before_fit_raises (__init__ None) [Demo.Xin] 0 Demo.Xin);
    reflexivity.
Defined.

Lemma common_dtype_same d : common_dtype d d = d.
Proof. now destruct d. Qed.

Lemma common_columns_same c : common_columns c c = c.
Proof.
  unfold common_columns. induction c as [|[n d] c IH]; cbn; auto.
  now rewrite common_dtype_same, IH.
Qed.

Lemma common_columns_names c1 : forall c2,
  map fst c2 = map fst c1 ->
  map fst (common_columns c1 c2) = map fst c1.
Proof.
  unfold common_columns.
  induction c1 as [|a c1 IH]; intros [|b c2] H; try discriminate; auto.
  cbn in *. injection H as _ H. f_equal. now apply IH.
Qed.

Lemma common_columns_set_nth j a b c1 : forall c2,
  common_columns (set_nth j a c1) (set_nth j b c2)
  = set_nth j (fst a, common_dtype (snd a) (snd b)) (common_columns c1 c2).
Proof.
  unfold common_columns. revert j.
  induction c1 as [|x c1 IH]; intros [|j] [|y c2]; cbn; auto.
  now rewrite IH.
Qed.

Lemma common_columns_nth c1 : forall c2 j name,
  List.length c2 = List.length c1 ->
  snd (nth j (common_columns c1 c2) (name, object))
  = common_dtype (snd (nth j c1 (name, object)))
      (snd (nth j c2 (name, object))).
Proof.
  unfold common_columns.
  induction c1 as [|x c1 IH]; intros [|y c2] [|j] name H;
    try discriminate; cbn; auto.
Qed.

Lemma dtype_of_common A B C name :
  col_names B = col_names A ->
  columns C = common_columns (columns A) (columns B) ->
  dtype_of C name = common_dtype (dtype_of A name) (dtype_of B name).
Proof.
  intros Hn Hc. unfold dtype_of, col_names in *.
  rewrite Hc, Hn, common_columns_names by exact Hn.
  destruct (index_of name (map fst (columns A))); auto.
  apply common_columns_nth.
  rewrite <- (length_map fst (columns B)), Hn. apply length_map.
Qed.

Lemma combine_app_same {A B : Type} (l1 l1' : list A) : forall l2 l2' : list B,
  List.length l2 = List.length l1 ->
  combine (l1 ++ l1') (l2 ++ l2') = combine l1 l2 ++ combine l1' l2'.
Proof.
  induction l1 as [|a l1 IH]; intros [|b l2] l2' H; try discriminate; auto.
  cbn. f_equal. apply IH. now inversion H.
Qed.

Lemma fillna_dtype_common dA dB dm (sA sB oA oB : list cell) :
  List.length oA = List.length sA ->
  fillna_dtype (common_dtype dA dB, sA ++ sB) (dm, oA ++ oB)
  = common_dtype (fillna_dtype (dA, sA) (dm, oA))
      (fillna_dtype (dB, sB) (dm, oB)).
Proof.
  intros H. unfold fillna_dtype. cbn [fst snd].
  rewrite combine_app_same, existsb_app by exact H.
  destruct dA, dB, dm, (existsb _ (combine sA oA)),
    (existsb _ (combine sB oB)); reflexivity.
Qed.

Lemma key_compatible_common dA dB k :
  key_compatible dA k = true -> key_compatible dB k = true ->
  key_compatible (common_dtype dA dB) k = true.
Proof. destruct dA, dB, k; cbn; congruence. Qed.

(** A pass over two tables put together is the pass over each. *)
Lemma impute_step_stacked A B C e A' B' :
  modes_ok e ->
  Forall (fun r => List.length r = List.length (columns A)) (rows A) ->
  Forall (fun r => List.length r = List.length (columns B)) (rows B) ->
  col_names B = col_names A ->
  columns C = common_columns (columns A) (columns B) ->
  rows C = rows A ++ rows B ->
  impute_step A e = OK A' -> impute_step B e = OK B' ->
  exists C',
    impute_step C e = OK C'
    /\ columns C' = common_columns (columns A') (columns B')
    /\ rows C' = rows A' ++ rows B'.
Proof.
  intros Hok HwfA HwfB Hn Hc Hr HA HB.
  destruct (impute_step_inv _ _ _ Hok HwfA HA)
    as (j1 & j2 & H1 & H2 & H3 & H4 & HcA & HrA).
  destruct (impute_step_inv _ _ _ Hok HwfB HB)
    as (j1' & j2' & H1' & H2' & _ & H4' & HcB & HrB).
  rewrite Hn in H1', H2'.
  assert (j1' = j1) by congruence. assert (j2' = j2) by congruence.
  subst j1' j2'. clear H1' H2'.
  assert (HnC : col_names C = col_names A).
  { unfold col_names in *. rewrite Hc. now apply common_columns_names. }
  assert (HlenB : List.length (columns B) = List.length (columns A)).
  { rewrite <- (length_map fst (columns B)). unfold col_names in Hn.
    rewrite Hn. apply length_map. }
  assert (HwfC : Forall (fun r => List.length r = List.length (columns C))
                   (rows C)).
  { assert (HlenC : List.length (columns C) = List.length (columns A)).
    { rewrite <- (length_map fst (columns C)). unfold col_names in HnC.
      rewrite HnC. apply length_map. }
    rewrite Hr, HlenC. apply Forall_app. split; auto.
    now rewrite <- HlenB. }
  destruct e as [[var1 var2] modes].
  unfold target, driver, mode_map in *; cbn [fst snd] in *.
  eexists. split; [|split].
  - apply (impute_step_ok C var1 var2 modes j1 j2 Hok HwfC).
    + now rewrite HnC.
    + now rewrite HnC.
    + now rewrite HnC.
    + rewrite (dtype_of_common A B C var2 Hn Hc).
      now apply key_compatible_common.
  - cbn [columns]. rewrite HcA, HcB, common_columns_set_nth. cbn [fst snd].
    unfold step_dtype, target, mode_map. cbn [fst snd].
    rewrite Hc, Hr, !map_app, (dtype_of_common A B C var1 Hn Hc).
    rewrite fillna_dtype_common by (now rewrite !length_map).
    reflexivity.
  - cbn [rows]. now rewrite HrA, HrB, Hr, map_app.
Qed.

Lemma impute_all_stacked l : forall A B C A' B',
  Forall modes_ok l ->
  Forall (fun r => List.length r = List.length (columns A)) (rows A) ->
  Forall (fun r => List.length r = List.length (columns B)) (rows B) ->
  col_names B = col_names A ->
  columns C = common_columns (columns A) (columns B) ->
  rows C = rows A ++ rows B ->
  impute_all l A = OK A' -> impute_all l B = OK B' ->
  exists C',
    impute_all l C = OK C'
    /\ columns C' = common_columns (columns A') (columns B')
    /\ rows C' = rows A' ++ rows B'.
Proof.
  induction l as [|e l IH]; intros A B C A' B' Hok HwfA HwfB Hn Hc Hr HA HB.
  - cbn in *. inversion HA; inversion HB; subst. eauto.
  - inversion Hok as [|? ? Hok1 Hok']; subst. cbn [impute_all] in *.
    destruct (impute_step A e) as [A1|] eqn:EA; cbn [bindr] in HA;
      [|discriminate].
    destruct (impute_step B e) as [B1|] eqn:EB; cbn [bindr] in HB;
      [|discriminate].
    destruct (impute_step_stacked A B C e A1 B1 Hok1 HwfA HwfB Hn Hc Hr EA EB)
      as (C1 & EC & Hc1 & Hr1).
    rewrite EC. cbn [bindr].
    destruct (impute_step_frame _ _ _ Hok1 HwfA EA) as (HnA & HwfA' & _).
    destruct (impute_step_frame _ _ _ Hok1 HwfB EB) as (HnB & HwfB' & _).
    apply (IH A1 B1 C1 A' B'); auto. congruence.
Qed.

Lemma stack_well_formed X1 X2 :
  well_formed X1 -> well_formed X2 -> columns X1 = columns X2 ->
  well_formed (stack X1 X2).
Proof.
  intros (Hr1 & Hi1 & Hn1) (Hr2 & Hi2 & _) Hc. unfold stack, well_formed.
  unfold col_names. cbn [rows columns index].
  rewrite <- Hc in *. rewrite common_columns_same. repeat split.
  - apply Forall_app. split; auto.
  - rewrite !length_app. congruence.
  - exact Hn1.
Qed.

(** X8.  [transform] works row by row: what it returns for two tables with
    the same columns put one on top of the other is what it returns for
    each, put one on top of the other.  A row is filled the same way
    whatever rows come with it. *)
Theorem transform_of_stacked_tables self l h1 x1 h2 x2 h3 x3 X1 X2 Y1 Y2 :
  fitted self l ->
  well_formed X1 -> well_formed X2 -> columns X1 = columns X2 ->
  nth_error h1 x1 = Some X1 ->
  nth_error h2 x2 = Some X2 ->
  nth_error h3 x3 = Some (stack X1 X2) ->
  transform_returns self h1 x1 Y1 ->
  transform_returns self h2 x2 Y2 ->
  transform_returns self h3 x3 (stack Y1 Y2).
Proof.
  intros Hf (Hr1 & Hi1 & _) (Hr2 & Hi2 & _) Hc Hx1 Hx2 Hx3 HY1 HY2.
  pose proof (fitted_modes_ok _ _ Hf) as Hok.
  pose proof (fitted_all_modes _ _ Hf) as Hl.
  apply (returns_iff_value self h1 x1 X1 Y1 Hx1) in HY1.
  apply (returns_iff_value self h2 x2 X2 Y2 Hx2) in HY2.
  destruct (transform_value_inv self l X1 Y1 Hl HY1) as (Yc1 & Hrun1 & ->).
  destruct (transform_value_inv self l X2 Y2 Hl HY2) as (Yc2 & Hrun2 & ->).
  destruct (impute_all_inv l X1 Yc1 Hok Hr1 Hrun1) as (_ & _ & Hrows1 & _).
  destruct (impute_all_inv l X2 Yc2 Hok Hr2 Hrun2) as (_ & _ & Hrows2 & _).
  destruct (impute_all_stacked l X1 X2 (stack X1 X2) Yc1 Yc2 Hok Hr1 Hr2)
    as (Yc & Hrun & Hcols & Hrows); auto.
  { unfold col_names. now rewrite Hc. }
  apply (returns_iff_value self h3 x3 (stack X1 X2) _ Hx3).
  rewrite (transform_value_of self l (stack X1 X2) Yc Hl Hrun).
  - unfold stack. cbn [index columns rows]. now rewrite Hcols, Hrows.
  - rewrite Hrows, Hrows1, Hrows2. unfold stack. cbn [index].
    rewrite !length_app, !length_map. congruence.
Qed.

Lemma demo_stack_returns_1 :
  transform_returns Demo.imputer [DemoStack.X1] 0 DemoStack.Y1.
Proof. eexists. eexists. split; vm_compute; reflexivity. Defined.

Lemma demo_stack_returns_2 :
  transform_returns Demo.imputer [DemoStack.X2] 0 DemoStack.Y2.
Proof. eexists. eexists. split; vm_compute; reflexivity. Defined.

Lemma transform_of_stacked_tables_witness :
  transform_returns Demo.imputer [stack DemoStack.X1 DemoStack.X2] 0
    (stack DemoStack.Y1 DemoStack.Y2).
Proof.
  apply (transform_of_stacked_tables Demo.imputer Demo.modes
           [DemoStack.X1] 0 [DemoStack.X2] 0
           [stack DemoStack.X1 DemoStack.X2] 0
           DemoStack.X1 DemoStack.X2 DemoStack.Y1 DemoStack.Y2).
  - exact demo_fitted.
  - solve_well_formed.
  - solve_well_formed.
  - reflexivity.
  - reflexivity.
  - reflexivity.
  - reflexivity.
  - exact demo_stack_returns_1.
  - exact demo_stack_returns_2.
Defined.

(* ================================================================== *)
(** * What [fit] selects, and what [transform] makes of it *)

Lemma dtype_eqb_eq a b : dtype_eqb a b = true <-> a = b.
Proof. destruct a, b; simpl; split; congruence. Qed.

Lemma select_dtypes_object_iff X a :
  In a (select_dtypes_object X) <-> In (a, object) (columns X).
Proof.
  unfold select_dtypes_object. rewrite in_map_iff. split.
  - intros ([n d] & <- & Hin). apply filter_In in Hin.
    destruct Hin as [Hin Hd]. cbn [fst snd] in *.
    apply dtype_eqb_eq in Hd. now subst.
  - intros Hin. exists (a, object). split; auto.
    apply filter_In. split; auto.
Qed.

Lemma cat_features_iff self X a :
  In a (cat_features_of self X) <->
  In (a, object) (columns X)
  /\ (forall ignore, cols_to_ignore self = Some ignore -> ~ In a ignore).
Proof.
  unfold cat_features_of, setdiff1d. destruct (cols_to_ignore self) as [ig|].
  - rewrite filter_In, sort_unique_In, select_dtypes_object_iff,
      negb_true_iff, mem_false.
    split.
    + intros [H1 H2]. split; auto. intros ignore E. now inversion E; subst.
    + intros [H1 H2]. split; auto.
  - rewrite select_dtypes_object_iff. split; [|tauto].
    intros H. split; auto. discriminate.
Qed.

Section FitThenTransform.

Variable pvalue : Type.
Variable pvalue_ltb : pvalue -> pvalue -> bool.
Variable chi2_contingency : list (list nat) -> result pvalue.

(** X4.  Every pair [fit] selects is made of two different object-typed
    columns of the fitting table, and a column of the ignore list is in no
    pair, neither as target nor as driver. *)
Theorem fit_pairs_are_unignored_object_columns self0 X self rv A B :
  fit pvalue_ltb chi2_contingency self0 X = OK self ->
  related_vars_ self = Some rv ->
  In (A, B) rv ->
  A <> B
  /\ In (A, object) (columns X) /\ In (B, object) (columns X)
  /\ (forall ignore, cols_to_ignore self0 = Some ignore ->
                     ~ In A ignore /\ ~ In B ignore).
Proof.
  intros Hfit Hrv Hin.
  destruct (fit_inv pvalue pvalue_ltb chi2_contingency self0 X self Hfit)
    as (rv' & l & Hcalc & _ & ->).
  cbn [related_vars_] in Hrv. inversion Hrv; subst rv'.
  destruct (related_keys pvalue pvalue_ltb chi2_contingency X _ rv Hcalc)
    as (results & E & _ & Hrows).
  destruct (Hrows A B Hin) as (r & Hr & <- & <-).
  destruct (results_rows pvalue pvalue_ltb chi2_contingency X _ results E)
    as [Hall _].
  destruct (Hall r Hr) as (H1 & H2 & Hne & _).
  apply cat_features_iff in H1, H2. destruct H1 as [H1 H1'], H2 as [H2 H2'].
  repeat split; auto.
Qed.

(** X5.  [fit] lists its pairs by target, in strictly increasing order of
    the target labels, whatever the order of the columns in the table, and
    stores the ModeMaps in that order: it is the order in which
    [transform] fills the targets. *)
Theorem fit_orders_pairs_by_target self0 X self rv l :
  fit pvalue_ltb chi2_contingency self0 X = OK self ->
  related_vars_ self = Some rv ->
  all_modes_ self = Some l ->
  sorted (map fst rv)
  /\ map target l = map fst rv
  /\ map driver l = map snd rv.
Proof.
  intros Hfit Hrv Hl.
  destruct (fit_inv pvalue pvalue_ltb chi2_contingency self0 X self Hfit)
    as (rv' & l' & Hcalc & Hmodes & ->).
  cbn [related_vars_ all_modes_] in Hrv, Hl.
  inversion Hrv; subst rv'. inversion Hl; subst l'.
  destruct (related_keys pvalue pvalue_ltb chi2_contingency X _ rv Hcalc)
    as (results & _ & Hk & _).
  destruct (get_all_modes_ok X rv l Hmodes) as [_ Hmap].
  repeat split.
  - rewrite Hk. apply sort_unique_sorted.
  - rewrite <- Hmap, map_map. reflexivity.
  - rewrite <- Hmap, map_map. reflexivity.
Qed.

(** X1.  Fit, then transform.  For an imputer fitted on [Xfit] and a pair
    (target, driver) of its state, [transform] leaves a target cell that
    holds a label as it is and gives a missing one the mode of the target
    over the rows of [Xfit] whose driver cell is the driver value read in
    the row: a label of highest frequency among the target labels of these
    rows and the least of such labels in the order of labels, or the
    missing marker when these rows have no label. *)
Theorem fit_then_transform_fills_group_mode
  self0 Xfit self l h x X Y pre e post i :
  fit pvalue_ltb chi2_contingency self0 Xfit = OK self ->
  all_modes_ self = Some l ->
  nth_error h x = Some X -> well_formed X ->
  transform_returns self h x Y ->
  l = pre ++ e :: post ->
  i < List.length (rows X) ->
  exists keys vals,
    getitem Xfit (driver e) = OK keys
    /\ getitem Xfit (target e) = OK vals
    /\ match cell_at X i (target e) with
       | Some v => cell_at Y i (target e) = Some v
       | None =>
           match cell_at Y i (target e) with
           | Some v =>
               most_frequent
                 (group keys vals (driver_cell_read X Y pre e i)) v
               /\ forall w,
                    most_frequent
                      (group keys vals (driver_cell_read X Y pre e i)) w ->
                    w = v \/ slt v w
           | None =>
               dropna (group keys vals (driver_cell_read X Y pre e i)) = []
           end
       end.
Proof.
  intros Hfit Hl Hx Hwf HY Hsplit Hi.
  destruct (fit_fitted pvalue pvalue_ltb chi2_contingency self0 Xfit self Hfit)
    as [l' Hff].
  assert (l' = l).
  { destruct Hff as (rv & _ & _ & _ & Hl'). congruence. }
  subst l'.
  destruct (filled_from_fitting_table Xfit self l h x X Y pre e post i
              Hff Hx Hwf HY Hsplit Hi) as (keys & vals & Hk & Hv & Hcell).
  exists keys, vals. repeat split; auto.
  destruct (cell_at X i (target e)); [exact Hcell|].
  rewrite Hcell. apply agg_mode_spec.
Qed.

End FitThenTransform.

Lemma fit_pairs_are_unignored_object_columns_witness :
  "C" <> "A"
  /\ In ("C", object) (columns Demo.Xfit)
  /\ In ("A", object) (columns Demo.Xfit)
  /\ (forall ignore, cols_to_ignore (__init__ (Some ["Z"])) = Some ignore ->
                     ~ In "C" ignore /\ ~ In "A" ignore).
Proof.
  apply (fit_pairs_are_unignored_object_columns nat Nat.ltb (fun _ => OK 5)
           (__init__ (Some ["Z"])) Demo.Xfit
           (mkImputer (Some ["Z"]) (Some Demo.related) (Some Demo.modes))
           Demo.related "C" "A").
  - vm_compute. reflexivity.
  - reflexivity.
  - simpl. tauto.
Defined.

Lemma fit_orders_pairs_by_target_witness :
  sorted (map fst DemoOrder.related)
  /\ map target
       (match all_modes_ DemoOrder.imputer with Some l => l | None => [] end)
     = map fst DemoOrder.related
  /\ map driver
       (match all_modes_ DemoOrder.imputer with Some l => l | None => [] end)
     = map snd DemoOrder.related.
Proof.
  apply (fit_orders_pairs_by_target nat Nat.ltb DemoOrder.width
           (__init__ None) DemoOrder.X DemoOrder.imputer).
  - exact (proj1 demo_order_fit).
  - reflexivity.
  - reflexivity.
Defined.

Lemma fit_then_transform_fills_group_mode_witness :
  exists keys vals,
    getitem Demo.Xfit "A" = OK keys
    /\ getitem Demo.Xfit "C" = OK vals
    /\ match cell_at Demo.Xin 0 "C" with
       | Some v => cell_at Demo.Xout 0 "C" = Some v
       | None =>
           match cell_at Demo.Xout 0 "C" with
           | Some v =>
               most_frequent
                 (group keys vals
                    (driver_cell_read Demo.Xin Demo.Xout (firstn 2 Demo.modes)
                       (nth 2 Demo.modes ("", "", Demo.Xin)) 0)) v
               /\ forall w,
                    most_frequent
                      (group keys vals
                         (driver_cell_read Demo.Xin Demo.Xout
                            (firstn 2 Demo.modes)
                            (nth 2 Demo.modes ("", "", Demo.Xin)) 0)) w ->
                    w = v \/ slt v w
           | None =>
               dropna
                 (group keys vals
                    (driver_cell_read Demo.Xin Demo.Xout (firstn 2 Demo.modes)
                       (nth 2 Demo.modes ("", "", Demo.Xin)) 0)) = []
           end
       end.
Proof.
  apply (fit_then_transform_fills_group_mode nat Nat.ltb (fun _ => OK 5)
           (__init__ None) Demo.Xfit Demo.imputer Demo.modes [Demo.Xin] 0
           Demo.Xin Demo.Xout (firstn 2 Demo.modes)
           (nth 2 Demo.modes ("", "", Demo.Xin)) [] 0).
  - exact demo_fit.
  - reflexivity.
  - reflexivity.
  - exact demo_Xin_well_formed.
  - exact demo_returns.
  - reflexivity.
  - simpl. lia.
Defined.

(* ================================================================== *)
(** * [download_from_kaggle] *)

(** ** The name of the archive *)

Lemma str_split_nonempty sep s : str_split sep s <> [].
Proof.
  destruct s as [|c s]; simpl; [discriminate|].
  destruct (Ascii.eqb c sep); [discriminate|].
  destruct (str_split sep s); discriminate.
Qed.

Lemma str_split_concat sep s :
  String.concat (String sep "") (str_split sep s) = s.
Proof.
  induction s as [|c s IH]; [reflexivity|]. cbn [str_split].
  pose proof (str_split_nonempty sep s) as Hne.
  destruct (str_split sep s) as [|h t]; [congruence|]. clear Hne.
  destruct (Ascii.eqb c sep) eqn:E.
  - apply Ascii.eqb_eq in E. subst c.
    change (String.concat (String sep "") ("" :: h :: t))
      with (String sep (String.concat (String sep "") (h :: t))).
    now rewrite IH.
  - destruct t as [|h' t].
    + cbn in *. now rewrite IH.
    + change (String.concat (String sep "") (String c h :: h' :: t))
        with (String c (String.concat (String sep "") (h :: h' :: t))).
      now rewrite IH.
Qed.

Lemma str_split_parts sep s :
  Forall (fun p => ~ In sep (list_ascii_of_string p)) (str_split sep s).
Proof.
  induction s as [|c s IH]; cbn [str_split].
  - repeat constructor. simpl. tauto.
  - destruct (Ascii.eqb c sep) eqn:E.
    + constructor; [simpl; tauto|exact IH].
    + apply Ascii.eqb_neq in E.
      destruct (str_split sep s) as [|h t].
      * constructor; [|constructor]. simpl. intuition congruence.
      * inversion IH as [|? ? Hh Ht]; subst. constructor; [|exact Ht].
        simpl. intuition congruence.
Qed.

Lemma string_append_assoc a b c :
  String.append (String.append a b) c = String.append a (String.append b c).
Proof. induction a as [|x a IH]; simpl; congruence. Qed.

Lemma concat_last sep (l : list string) :
  l <> [] ->
  exists pre,
    String.concat sep l = String.append pre (last l "")
    /\ (pre = "" \/ exists p, pre = String.append p sep).
Proof.
  induction l as [|x l IH]; [congruence|]. intros _.
  destruct l as [|y l].
  - exists "". split; auto.
  - destruct IH as (pre & Heq & Hpre); [discriminate|].
    change (last (x :: y :: l) "") with (last (y :: l) "").
    change (String.concat sep (x :: y :: l))
      with (String.append x (String.append sep (String.concat sep (y :: l)))).
    rewrite Heq.
    exists (String.append x (String.append sep pre)). split.
    + now rewrite !string_append_assoc.
    + right. destruct Hpre as [->|[p ->]].
      * exists x. clear. induction x as [|c x IH]; simpl.
        -- induction sep as [|d sep IHs]; simpl; congruence.
        -- now rewrite IH.
      * exists (String.append x (String.append sep p)).
        now rewrite !string_append_assoc.
Qed.

(** X10.  The archive the function looks for, unpacks and moves is named
    after the last argument of the command: the text after its last [/]
    (all of it when it has none), followed by [.zip].  That text has no
    [/], so the archive is looked for in [directory] itself. *)
Theorem archive_name_is_last_component args :
  exists pre name,
    last args "" = String.append pre name
    /\ archive_name args = String.append name ".zip"
    /\ no_slash name
    /\ (pre = "" \/ exists p, pre = String.append p "/")
    /\ no_slash (archive_name args).
Proof.
  unfold archive_name.
  set (s := last args "").
  destruct (concat_last "/" (str_split "/" s) (str_split_nonempty "/" s))
    as (pre & Heq & Hpre).
  rewrite str_split_concat in Heq.
  assert (Hns : no_slash (last (str_split "/" s) "")).
  { pose proof (str_split_parts "/" s) as Hall.
    rewrite Forall_forall in Hall. apply Hall.
    destruct (exists_last (str_split_nonempty "/" s)) as (l' & a & ->).
    rewrite last_last. apply in_or_app. right. now left. }
  exists pre, (last (str_split "/" s) ""). repeat split; auto.
  unfold no_slash in *. intros Hin. apply Hns.
  clear - Hin. induction (last (str_split "/" s) "") as [|c n IH];
    simpl in *.
  - intuition discriminate.
  - destruct Hin as [Hin|Hin]; auto.
Qed.

Section KaggleProperties.

Variable path : Type.
Variable world : Type.
Variable Path_data : path.
Variable parent : path -> path.
Variable joinpath : path -> string -> path.
Variable mkdir : path -> world -> option exn * world.
Variable is_file : path -> world -> bool.
Variable subprocess_run : list string -> world -> option exn * world.
Variable unpack_archive : string -> path -> world -> option exn * world.
Variable move : string -> path -> world -> option exn * world.

Local Abbreviation download :=
  (download_from_kaggle Path_data parent joinpath mkdir is_file
     subprocess_run unpack_archive move).

Lemma kaggle_command_dec expr : {kaggle_command expr} + {~ kaggle_command expr}.
Proof.
  destruct expr as [|k [|x [|d [|arg args]]]];
    try (right; intros (x' & a' & args' & E); discriminate).
  destruct (string_dec k "kaggle") as [->|Hk].
  - destruct (string_dec d "download") as [->|Hd].
    + left. exists x, arg, args. reflexivity.
    + right. intros (x' & a' & args' & E). inversion E. congruence.
  - right. intros (x' & a' & args' & E). inversion E. congruence.
Defined.

Lemma and_then_no_own_exception op k w :
  (forall w', (exists m, fst (k w') = Some (SyntaxError m)
               \/ fst (k w') = Some (TypeError m)) -> False) ->
  (exists m, fst (and_then world op k w) = Some (SyntaxError m)
             \/ fst (and_then world op k w) = Some (TypeError m)) -> False.
Proof.
  intros Hk. unfold and_then. destruct (op w) as [[e|] w'].
  - intros (m & [H|H]); discriminate.
  - apply Hk.
Qed.

(** X11.  The arguments are checked before anything is touched.  A
    [directory] that is no [Path] gives a [TypeError], whatever the
    expression; otherwise an expression that is not of the form
    [["kaggle", _, "download", arg, ...]] (the command without anything
    after ["download"] included) gives a [SyntaxError].  In both cases the
    world is as it was.  An expression of that form never gives either of
    the two. *)
Theorem download_checks_arguments_first expr w :
  download expr NotAPath w
  = (Some (TypeError "The `directory` argument must be `Path` instance!"), w)
  /\ (forall directory, directory <> NotAPath ->
        (~ kaggle_command expr ->
         download expr directory w
         = (Some (SyntaxError "Invalid expression!"), w))
        /\ (kaggle_command expr ->
            forall m,
              fst (download expr directory w) <> Some (SyntaxError m)
              /\ fst (download expr directory w) <> Some (TypeError m))).
Proof.
  split; [reflexivity|]. intros directory Hdir.
  assert (Hres : exists d, resolve_directory Path_data directory = Some d).
  { destruct directory; simpl; eauto. congruence. }
  destruct Hres as [d Hd]. split.
  - intros Hnot. unfold download_from_kaggle.
    change (match directory with
            | NoDirectory => Some Path_data
            | APath p => Some p
            | NotAPath => None
            end) with (resolve_directory Path_data directory).
    rewrite Hd.
    destruct expr as [|k [|x [|dl [|arg args]]]]; try reflexivity.
    destruct (String.eqb k "kaggle") eqn:Ek; [|reflexivity].
    destruct (String.eqb dl "download") eqn:Edl; [|reflexivity].
    apply String.eqb_eq in Ek, Edl. subst. exfalso. apply Hnot.
    exists x, arg, args. reflexivity.
  - intros (x & arg & args & ->) m.
    assert (Hno : (exists m,
              fst (download ("kaggle" :: x :: "download" :: arg :: args)
                     directory w) = Some (SyntaxError m)
              \/ fst (download ("kaggle" :: x :: "download" :: arg :: args)
                        directory w) = Some (TypeError m)) -> False).
    { unfold download_from_kaggle.
      change (match directory with
              | NoDirectory => Some Path_data
              | APath p => Some p
              | NotAPath => None
              end) with (resolve_directory Path_data directory).
      rewrite Hd. cbn [String.eqb Ascii.eqb Bool.eqb andb].
      apply and_then_no_own_exception. intros w1.
      destruct (is_file _ w1).
      - intros (m' & [H|H]); discriminate.
      - repeat (apply and_then_no_own_exception; intros ?).
        intros (m' & [H|H]); discriminate. }
    split; intros H; apply Hno; exists m; auto.
Qed.

(** X12.  Download once.  Suppose [move] puts the file into the directory
    and [mkdir] removes no file.  After a call that completed, the archive
    is a file of the directory, and a second call with the same arguments
    only makes the parent directory again: it runs no command, unpacks and
    moves nothing. *)
Theorem download_runs_once x arg args directory d w w' :
  (forall f dir w0 w1, move f dir w0 = (None, w1) ->
                       is_file (joinpath dir f) w1 = true) ->
  (forall p q w0 r w1, mkdir p w0 = (r, w1) -> is_file q w0 = true ->
                       is_file q w1 = true) ->
  resolve_directory Path_data directory = Some d ->
  download ("kaggle" :: x :: "download" :: arg :: args) directory w
  = (None, w') ->
  is_file (joinpath d (archive_name (arg :: args))) w' = true
  /\ download ("kaggle" :: x :: "download" :: arg :: args) directory w'
     = match mkdir (parent d) w' with
       | (Some e, w'') => (Some (Effect e), w'')
       | (None, w'') => (None, w'')
       end.
Proof.
  intros Hmove Hmkdir Hd Hcall.
  assert (Hfile : is_file (joinpath d (archive_name (arg :: args))) w' = true).
  { unfold download_from_kaggle in Hcall.
    change (match directory with
            | NoDirectory => Some Path_data
            | APath p => Some p
            | NotAPath => None
            end) with (resolve_directory Path_data directory) in Hcall.
    rewrite Hd in Hcall. cbn [String.eqb Ascii.eqb Bool.eqb andb] in Hcall.
    unfold and_then at 1 in Hcall.
    destruct (mkdir (parent d) w) as [[e|] w1]; [discriminate|].
    destruct (is_file (joinpath d (archive_name (arg :: args))) w1) eqn:E.
    - inversion Hcall; subst. exact E.
    - unfold and_then at 1 in Hcall.
      destruct (subprocess_run _ w1) as [[e|] w2]; [discriminate|].
      unfold and_then at 1 in Hcall.
      destruct (unpack_archive _ d w2) as [[e|] w3]; [discriminate|].
      unfold and_then at 1 in Hcall.
      destruct (move _ d w3) as [[e|] w4] eqn:Em; [discriminate|].
      inversion Hcall; subst. now apply (Hmove _ _ _ _ Em). }
  split; auto.
  unfold download_from_kaggle.
  change (match directory with
          | NoDirectory => Some Path_data
          | APath p => Some p
          | NotAPath => None
          end) with (resolve_directory Path_data directory).
  rewrite Hd. cbn [String.eqb Ascii.eqb Bool.eqb andb].
  unfold and_then at 1.
  destruct (mkdir (parent d) w') as [[e|] w''] eqn:Em; auto.
  now rewrite (Hmkdir _ _ _ _ _ Em Hfile).
Qed.

End KaggleProperties.

Lemma download_runs_once_witness :
  DemoKaggle.is_file
    (DemoKaggle.here "data" (archive_name ["-d"; "owner/titanic"]))
    ["data/titanic.zip"; "data/train.csv"] = true
  /\ download_from_kaggle "data" (fun _ => ".") DemoKaggle.here
       DemoKaggle.mkdir DemoKaggle.is_file DemoKaggle.run DemoKaggle.unpack
       DemoKaggle.move
       ("kaggle" :: "datasets" :: "download" :: "-d" :: ["owner/titanic"])
       NoDirectory ["data/titanic.zip"; "data/train.csv"]
     = match DemoKaggle.mkdir "." ["data/titanic.zip"; "data/train.csv"] with
       | (Some e, w'') => (Some (Effect e), w'')
       | (None, w'') => (None, w'')
       end.
Proof.
  apply (download_runs_once string DemoKaggle.world "data" (fun _ => ".")
           DemoKaggle.here DemoKaggle.mkdir DemoKaggle.is_file DemoKaggle.run
           DemoKaggle.unpack DemoKaggle.move
           "datasets" "-d" ["owner/titanic"] NoDirectory "data" []).
  - intros f dir w0 w1 H. unfold DemoKaggle.move in H. inversion H; subst.
    unfold DemoKaggle.is_file. apply mem_In. now left.
  - intros p q w0 r w1 H Hq. unfold DemoKaggle.mkdir in H.
    inversion H; subst. exact Hq.
  - reflexivity.
  - vm_compute. reflexivity.
Defined.

(* ================================================================== *)
(** * How many pairs *)

Lemma candidates_length A cat :
  NoDup cat -> In A cat -> S (List.length (candidates A cat)) = List.length cat.
Proof.
  unfold candidates. induction cat as [|b cat IH]; intros Hnd Hin;
    [destruct Hin|].
  inversion Hnd as [|? ? Hb Hnd']; subst. cbn [filter List.length].
  destruct Hin as [->|Hin].
  - rewrite String.eqb_refl. cbn [negb]. f_equal.
    clear - Hb. induction cat as [|c cat IH]; auto. cbn [filter].
    replace (String.eqb A c) with false.
    + cbn [negb List.length]. f_equal. apply IH. intros H. apply Hb.
      now right.
    + symmetry. apply String.eqb_neq. intros ->. apply Hb. now left.
  - replace (String.eqb A b) with false.
    + cbn [negb List.length]. f_equal. now apply IH.
    + symmetry. apply String.eqb_neq. intros ->. contradiction.
Qed.

Lemma distinct_pairs_length cat :
  NoDup cat ->
  List.length (filter neq_pair (product cat cat))
  = List.length cat * (List.length cat - 1).
Proof.
  intros Hnd. unfold product.
  assert (H : forall l, (forall a, In a l -> In a cat) ->
            List.length (filter neq_pair
                           (flat_map (fun a => map (fun b => (a, b)) cat) l))
            = List.length l * (List.length cat - 1)).
  { induction l as [|a l IH]; intros Hl; [reflexivity|].
    cbn [flat_map]. rewrite filter_app, length_app, neq_pair_row, length_map.
    rewrite IH by (intros; apply Hl; now right).
    pose proof (candidates_length a cat Hnd (Hl a (or_introl eq_refl))).
    cbn [List.length]. lia. }
  apply H. auto.
Qed.

Section PairCount.

Variable pvalue : Type.
Variable pvalue_ltb : pvalue -> pvalue -> bool.
Variable chi2_contingency : list (list nat) -> result pvalue.

(** X13.  With k categorical columns, two at least, a [fit] that completes
    has run the test once for every ordered pair of different columns,
    k(k-1) times, and has selected k pairs, one for each column. *)
Theorem fit_tests_every_ordered_pair self0 X self rv :
  well_formed X ->
  2 <= List.length (cat_features_of self0 X) ->
  fit pvalue_ltb chi2_contingency self0 X = OK self ->
  related_vars_ self = Some rv ->
  (exists results,
     pair_results chi2_contingency X
       (product (cat_features_of self0 X) (cat_features_of self0 X))
     = OK results
     /\ List.length results
        = List.length (cat_features_of self0 X)
          * (List.length (cat_features_of self0 X) - 1))
  /\ List.length rv = List.length (cat_features_of self0 X)
  /\ (forall A, In A (cat_features_of self0 X) <-> In A (map fst rv)).
Proof.
  intros Hwf Hk Hfit Hrv.
  pose proof (cat_features_NoDup self0 X Hwf) as Hnd.
  destruct (fit_inv pvalue pvalue_ltb chi2_contingency self0 X self Hfit)
    as (rv' & l & Hcalc & _ & ->).
  cbn [related_vars_] in Hrv. inversion Hrv; subst rv'.
  destruct (related_keys pvalue pvalue_ltb chi2_contingency X _ rv Hcalc)
    as (results & E & Hkeys & _).
  destruct (results_rows pvalue pvalue_ltb chi2_contingency X _ results E)
    as [Hrows Hall].
  assert (Hiff : forall A, In A (cat_features_of self0 X)
                           <-> In A (map fst rv)).
  { intros A. rewrite Hkeys, sort_unique_In, in_map_iff. split.
    - intros HA.
      assert (HB : exists B, In B (cat_features_of self0 X) /\ A <> B).
      { destruct (cat_features_of self0 X) as [|c1 [|c2 t]];
          cbn [List.length] in Hk; try lia.
        inversion Hnd as [|? ? Hc1 _]; subst.
        destruct (string_dec A c1) as [->|Hne].
        - exists c2. split; [right; now left|].
          intros ->. apply Hc1. now left.
        - exists c1. split; [now left|exact Hne]. }
      destruct HB as (B & HB & Hne).
      destruct (Hall A B HA HB Hne) as (r & Hr & H1 & _). eauto.
    - intros (r & <- & Hr). now apply Hrows. }
  split; [|split; auto].
  - exists results. split; [exact E|].
    transitivity (List.length (map fst results));
      [symmetry; apply length_map|].
    rewrite (proj1 (pair_results_ok pvalue chi2_contingency X _ results E)).
    now apply distinct_pairs_length.
  - rewrite <- (length_map fst rv). apply Nat.le_antisymm.
    + apply NoDup_incl_length.
      * rewrite Hkeys. apply sort_unique_NoDup.
      * intros A HA. now apply Hiff.
    + apply NoDup_incl_length; auto. intros A HA. now apply Hiff.
Qed.

End PairCount.

Lemma fit_tests_every_ordered_pair_witness :
  (exists results,
     pair_results DemoOrder.width DemoOrder.X
       (product (cat_features_of (__init__ None) DemoOrder.X)
                (cat_features_of (__init__ None) DemoOrder.X))
     = OK results
     /\ List.length results
        = List.length (cat_features_of (__init__ None) DemoOrder.X)
          * (List.length (cat_features_of (__init__ None) DemoOrder.X) - 1))
  /\ List.length DemoOrder.related
     = List.length (cat_features_of (__init__ None) DemoOrder.X)
  /\ (forall A, In A (cat_features_of (__init__ None) DemoOrder.X)
                <-> In A (map fst DemoOrder.related)).
Proof.
  apply (fit_tests_every_ordered_pair nat Nat.ltb DemoOrder.width
           (__init__ None) DemoOrder.X DemoOrder.imputer DemoOrder.related).
  - solve_well_formed.
  - simpl. lia.
  - exact (proj1 demo_order_fit).
  - reflexivity.
Defined.
